(** * A shallow embedding of [src/index.js] (proper-lockfile)

    The module is written in continuation-passing style over Node's
    event loop: every filesystem primitive of [options.fs] is
    asynchronous, it ends the current turn, and its callback runs in a
    later turn against whatever the process memory holds by then.  The
    embedding keeps that shape.  A JavaScript function that takes a
    callback becomes a Rocq function that takes a continuation and
    yields a [proc], the tree of the calls it makes to its external
    collaborators (filesystem, clock, uuid generator, path library);
    each callback of the source is one continuation of the tree and
    receives the collaborator's answer together with the memory current
    at that time.

    The process memory holds the global [locks] object, the lock objects
    it points to (closures keep a lock object alive after it left
    [locks], so objects live in a heap and are named by address) and the
    pending [setTimeout] timers of the renewal loop.

    Left out: the handler of the process's [exit] event (lines 271-280),
    the reshuffling of optional arguments at the head of [lock] and
    [unlock], numbers that are not integers, a [retries] option given
    as an object instead of a number, and canonical paths that name a
    property which [locks], a plain object, inherits from
    [Object.prototype] ([inherited] below): there [locks[file]] finds
    the inherited property whatever was registered, and the embedding,
    which keeps the keys that [locks] owns, does not follow the code. *)

From Stdlib Require Import ZArith Lia.
From stdpp Require Import base option list gmap strings.

Local Open Scope string_scope.
Local Open Scope Z_scope.

(** ** Values *)

(** Paths are strings.  A JavaScript string whose content is inspected
    ([uid], the content of the uid file) is the list of its UTF-16 code
    units. *)
Abbreviation path := string (only parsing).
Abbreviation jsstr := (list N) (only parsing).

(** An [Error] object as [err-code] and [fs] build them: message, [code]
    and the extra property [file] that [acquireLock] attaches. *)
Record jserr : Type := mkErr {
  message : string;
  code : string;
  efile : option string
}.

#[global] Instance jserr_eq_dec : EqDecision jserr.
Proof. solve_decision. Defined.

(** [errcode(msg, code, props)] *)
Definition errcode (msg cd : string) (file : option string) : jserr :=
  mkErr msg cd file.

Definition ELOCKED (file : path) : jserr :=
  errcode "Lock file is already being hold" "ELOCKED" (Some file).
Definition ENOTACQUIRED : jserr :=
  errcode "Lock is not acquired" "ENOTACQUIRED" None.
Definition ERELEASED : jserr :=
  errcode "Lock is already released" "ERELEASED" None.
Definition EUPDATE : jserr :=
  errcode "Unable to update lock within the stale threshold" "EUPDATE" None.
Definition EMISMATCH : jserr :=
  errcode "Lock uid mismatch" "EMISMATCH" None.

(** Reading a property of [undefined] throws a [TypeError]. *)
Definition TypeError : jserr := mkErr "TypeError" "" None.

(** [err.code === 'ENOENT'] *)
Definition is_ENOENT (err : jserr) : bool := String.eqb (code err) "ENOENT".

(** [a || b] on numbers: [0] is falsy. *)
Definition js_or (a b : Z) : Z := if a =? 0 then b else a.

(** [a || b] where [a] may be [undefined] or [null]. *)
Definition js_or_opt (a : option Z) (b : Z) : Z :=
  match a with Some v => js_or v b | None => b end.

(** [Math.round(n / 2)] on an integer [n]: ties go towards plus
    infinity. *)
Definition round_half (n : Z) : Z := (n + 1) / 2.

(** [String.prototype.trim]: the code units of ECMAScript's WhiteSpace
    and LineTerminator productions are removed at both ends. *)
Definition is_js_space (c : N) : bool :=
  existsb (N.eqb c)
    [9; 10; 11; 12; 13; 32; 160; 5760; 8192; 8193; 8194; 8195; 8196; 8197;
     8198; 8199; 8200; 8201; 8202; 8232; 8233; 8239; 8287; 12288; 65279]%N.

Fixpoint trim_start (s : list N) : list N :=
  match s with
  | c :: r => if is_js_space c then trim_start r else s
  | [] => []
  end.

Definition trim (s : list N) : list N :=
  rev (trim_start (rev (trim_start s))).

(** ** Paths of the lock artifact *)

Definition getLockFile (file : path) : path := file +:+ ".lock".

(** [path.join(getLockFile(file), '.uid')]: every caller passes the
    canonical path that [canonicalPath] produced, on which [path.join]
    adds one separator and the segment (it normalizes the result,
    which changes nothing unless the canonical path is [./]). *)
Definition getUidFile (file : path) : path := getLockFile file +:+ "/.uid".

(** The names of the properties that every object inherits from
    [Object.prototype], in a process that has added none of its own.
    [locks[file]] is truthy at each of them although [locks] owns no
    such key: [acquireLock] (line 31) then reports ELOCKED and [unlock]
    (lines 258-259) takes the inherited value for a lock object.
    Statements that speak of a path that is not registered carry the
    hypothesis [inherited file = false]. *)
Definition inherited (file : path) : bool :=
  existsb (String.eqb file)
    ["constructor"; "toString"; "toLocaleString"; "valueOf"; "hasOwnProperty";
     "isPrototypeOf"; "propertyIsEnumerable"; "__proto__"; "__defineGetter__";
     "__defineSetter__"; "__lookupGetter__"; "__lookupSetter__"].

(** ** [path.normalize] *)

(** Node's [path.normalize] for POSIX paths: empty and [.] segments are
    dropped, a [..] segment takes the segment before it away (at the
    head of a relative path it stays), a trailing separator is kept,
    and the empty result is [.]. *)
Definition slash : Ascii.ascii := Ascii.ascii_of_nat 47.

(** [path.split('/')] *)
Fixpoint split_path (s : string) : list string :=
  match s with
  | EmptyString => [EmptyString]
  | String c r =>
    if Ascii.eqb c slash then EmptyString :: split_path r
    else match split_path r with
         | seg :: rest => String c seg :: rest
         | [] => [String c EmptyString]
         end
  end.

(** [normalizeArray(parts, allowAboveRoot)]; [res] is the result so
    far, last segment first. *)
Fixpoint normalizeArray (parts res : list string) (allowAboveRoot : bool)
    : list string :=
  match parts with
  | [] => rev res
  | p :: parts' =>
    if String.eqb p "" || String.eqb p "." then
      normalizeArray parts' res allowAboveRoot
    else if String.eqb p ".." then
      match res with
      | top :: res' =>
        if negb (String.eqb top "..") then normalizeArray parts' res' allowAboveRoot
        else if allowAboveRoot then normalizeArray parts' (".." :: res) allowAboveRoot
        else normalizeArray parts' res allowAboveRoot
      | [] =>
        if allowAboveRoot then normalizeArray parts' [".."] allowAboveRoot
        else normalizeArray parts' [] allowAboveRoot
      end
    else normalizeArray parts' (p :: res) allowAboveRoot
  end.

(** [parts.join('/')] *)
Fixpoint join_path (parts : list string) : string :=
  match parts with
  | [] => ""
  | [p] => p
  | p :: rest => p +:+ "/" +:+ join_path rest
  end.

Fixpoint ends_with_slash (s : string) : bool :=
  match s with
  | EmptyString => false
  | String c EmptyString => Ascii.eqb c slash
  | String _ r => ends_with_slash r
  end.

Definition normalize (p : path) : path :=
  let isAbsolute := match p with String c _ => Ascii.eqb c slash | _ => false end in
  let trailingSlash := ends_with_slash p in
  let q := join_path (normalizeArray (split_path p) [] (negb isAbsolute)) in
  let q := if String.eqb q "" && negb isAbsolute then "." else q in
  let q := if negb (String.eqb q "") && trailingSlash then q +:+ "/" else q in
  (if isAbsolute then "/" else "") +:+ q.

(** ** Options *)

(** The options as [acquireLock], [updateLock] and [unlock] read them
    ([options.fs] is the environment of the run, see [env]). *)
Record options : Type := mkOptions {
  stale : Z;
  update : Z;
  resolve : bool;
  retries : nat
}.

(** [extend({}, options, { stale: v })] *)
Definition set_stale (v : Z) (o : options) : options :=
  {| stale := v; update := update o; resolve := resolve o; retries := retries o |}.

(** The options a caller of [lock] supplies: a property that is absent
    (or [undefined], which [extend] skips) is [None].  Numbers are
    integers of milliseconds. *)
Record supplied : Type := mkSupplied {
  s_stale : option Z;
  s_update : option Z;
  s_resolve : option bool;
  s_retries : option nat
}.

(** Lines 174-185 of [lock]: defaults, then the clamps. *)
Definition effective (s : supplied) : options :=
  let stale0 := default 10000 (s_stale s) in
  let update0 := default 5000 (s_update s) in
  let stale1 := Z.max (js_or stale0 0) 2000 in
  {| stale := stale1;
     update := Z.max (Z.min (js_or update0 0) (round_half stale1)) 1000;
     resolve := default true (s_resolve s);
     retries := default 0%nat (s_retries s) |}.

(** ** Process memory *)

Abbreviation addr := nat (only parsing).
Abbreviation timer := nat (only parsing).

(** [compromised || function (err) { throw err; }] *)
Inductive handler : Type :=
| UserHandler
| DefaultThrow.

(** A lock object, [locks[file]].  Properties that the source reads
    before it ever writes them ([released], [updateDelay],
    [updateTimeout], [updateError]) start out [undefined]: [false] and
    [None]. *)
Record lockobj : Type := mkLock {
  uid : list N;
  lopts : options;
  compromised : handler;
  lastUpdate : Z;
  released : bool;
  updateDelay : option Z;
  updateTimeout : option nat;
  updateError : option jserr
}.

Definition set_released (b : bool) (l : lockobj) : lockobj :=
  mkLock (uid l) (lopts l) (compromised l) (lastUpdate l) b
         (updateDelay l) (updateTimeout l) (updateError l).
Definition set_updateDelay (d : option Z) (l : lockobj) : lockobj :=
  mkLock (uid l) (lopts l) (compromised l) (lastUpdate l) (released l)
         d (updateTimeout l) (updateError l).
Definition set_updateTimeout (t : option nat) (l : lockobj) : lockobj :=
  mkLock (uid l) (lopts l) (compromised l) (lastUpdate l) (released l)
         (updateDelay l) t (updateError l).
Definition set_updateError (e : option jserr) (l : lockobj) : lockobj :=
  mkLock (uid l) (lopts l) (compromised l) (lastUpdate l) (released l)
         (updateDelay l) (updateTimeout l) e.
Definition set_lastUpdate (t : Z) (l : lockobj) : lockobj :=
  mkLock (uid l) (lopts l) (compromised l) t (released l)
         (updateDelay l) (updateTimeout l) (updateError l).

(** What the closure passed to [setTimeout] in [updateLock] captured:
    [file], [options] and the lock object; [t_delay] is the delay it was
    armed with. *)
Record pending : Type := mkPending {
  t_file : string;
  t_opts : options;
  t_lock : nat;
  t_delay : Z
}.

(** The memory of the process: the module-level [locks] object (the
    keys it owns, see [inherited]), the heap of lock objects and the
    armed timers.  Addresses and timer
    handles are never reused, and no function below removes an object
    from the heap: a closure always finds the lock object it captured
    (where the embedding has to say what happens otherwise, it stops
    with a [TypeError]). *)
Record mem : Type := mkMem {
  locks : gmap string nat;
  heap : gmap nat lockobj;
  timers : gmap nat pending;
  next_addr : nat;
  next_timer : nat
}.

Definition empty_mem : mem := mkMem ∅ ∅ ∅ 0 0.

Definition set_locks (f : gmap string nat -> gmap string nat) (m : mem) : mem :=
  mkMem (f (locks m)) (heap m) (timers m) (next_addr m) (next_timer m).
Definition set_heap (f : gmap nat lockobj -> gmap nat lockobj) (m : mem) : mem :=
  mkMem (locks m) (f (heap m)) (timers m) (next_addr m) (next_timer m).
Definition set_timers (f : gmap nat pending -> gmap nat pending) (m : mem) : mem :=
  mkMem (locks m) (heap m) (f (timers m)) (next_addr m) (next_timer m).

(** Assignment to a property of the lock object at [h]. *)
Definition store (h : nat) (l : lockobj) (m : mem) : mem :=
  set_heap (insert h l) m.

(** [clearTimeout(t)] *)
Definition clearTimeout (t : nat) (m : mem) : mem :=
  set_timers (delete t) m.

(** [setTimeout(closure, delay)]: the new handle and the memory. *)
Definition setTimeout (p : pending) (m : mem) : nat * mem :=
  (next_timer m,
   mkMem (locks m) (heap m) (<[next_timer m := p]> (timers m))
         (next_addr m) (S (next_timer m))).

(** ** The calls to the filesystem *)

(** The primitives of [options.fs] that the module calls.  [Utimes]
    carries the two time arguments, [Date.now() / 1000] seconds each,
    as the millisecond count they were computed from. *)
Inductive fscall : Type :=
| Mkdir (p : string)
| WriteFile (p : string) (data : list N)
| Stat (p : string)
| Unlink (p : string)
| Rmdir (p : string)
| ReadFile (p : string)
| Utimes (p : string) (atime mtime : Z)
| Realpath (p : string).

(** What a successful call passes to its callback: [stat.mtime.getTime()]
    for [Stat], the content (after [toString()]) for [ReadFile], the
    resolved path for [Realpath], nothing for the others. *)
Definition ret (c : fscall) : Type :=
  match c with
  | Stat _ => Z
  | ReadFile _ => list N
  | Realpath _ => string
  | _ => unit
  end.

(** The function [lock] hands to its caller: a closure over [file],
    [options] and the lock object. *)
Record releaser : Type := mkReleaser {
  r_file : string;
  r_opts : options;
  r_lock : nat
}.

(** Calls of functions that the user supplied. *)
Inductive event : Type :=
| Compromised (h : nat) (e : jserr)          (* lock.compromised(err) *)
| AcquireCb (r : jserr + list N)             (* callback of acquireLock *)
| LockCb (r : jserr + releaser)              (* callback of lock *)
| ReleasedCb (r : option jserr).             (* releasedCallback / callback of unlock *)

(** ** Programs *)

(** One run of the module from a given memory.  [Fs], [Par] and [Sleep]
    end the current turn with memory [m]; their continuation is the
    callback and runs on the answer and on the memory of the turn in
    which it is called.  [Now], [UuidV4] and [Normalize] are synchronous
    ([Date.now()], [uuid.v4()], [path.normalize]). *)
Inductive proc : Type :=
| Ret (m : mem)
| Throw (e : jserr) (m : mem)
| OutOfFuel
| Notify (ev : event) (k : proc)
| Now (k : Z -> proc)
| UuidV4 (k : list N -> proc)
| Normalize (p : string) (k : string -> proc)
| Fs (m : mem) (c : fscall) (k : jserr + ret c -> mem -> proc)
| Par (m : mem) (c1 c2 : fscall) (k : jserr + ret c1 * ret c2 -> mem -> proc)
| Sleep (m : mem) (ms : Z) (k : mem -> proc).

(** ** The module *)

(** [canonicalPath(file, options, callback)] *)
Definition canonicalPath (file : path) (res : bool)
    (callback : jserr + string -> mem -> proc) (m : mem) : proc :=
  if negb res then Normalize file (fun p => callback (inr p) m)
  else Fs m (Realpath file) callback.

(** [removeLock(file, options, callback)] *)
Definition removeLock (file : path)
    (callback : option jserr -> mem -> proc) (m : mem) : proc :=
  (* Remove uidfile, ignoring ENOENT errors *)
  Fs m (Unlink (getUidFile file)) (fun r m =>
    let rmdir :=
      (* Remove lockfile, ignoring ENOENT errors *)
      Fs m (Rmdir (getLockFile file)) (fun r m =>
        match r with
        | inl err => if negb (is_ENOENT err) then callback (Some err) m
                     else callback None m
        | inr _ => callback None m
        end) in
    match r with
    | inl err => if negb (is_ENOENT err) then callback (Some err) m else rmdir
    | inr _ => rmdir
    end).

(** [acquireLock(file, options, callback)].  The function calls itself
    with [stale: 0], under which it cannot call itself again; [fuel]
    bounds the depth of that recursion and two units are enough
    ([acquireLock_total]). *)
Fixpoint acquireLock (fuel : nat) (file : path) (opts : options)
    (callback : jserr + list N -> mem -> proc) (m : mem) : proc :=
  match fuel with
  | O => OutOfFuel
  | S fuel' =>
    (* Fast fail if a lock is acquired here *)
    match locks m !! file with
    | Some _ => callback (inl (ELOCKED file)) m
    | None =>
      (* Use mkdir to create the lockfile (atomic operation) *)
      Fs m (Mkdir (getLockFile file)) (fun r m =>
        match r with
        | inr _ =>
          (* If we successfuly created the lockfile,
             write the uidfile and we are done *)
          UuidV4 (fun uid =>
            Fs m (WriteFile (getUidFile file) uid) (fun r m =>
              match r with
              | inl err => removeLock file (fun _ m => callback (inl err) m) m
              | inr _ => callback (inr uid) m
              end))
        | inl _ =>
          (* Otherwise, check if lock is stale by analyzing the file mtime *)
          if stale opts <=? 0 then callback (inl (ELOCKED file)) m
          else
            Fs m (Stat (getLockFile file)) (fun r m =>
              match r with
              | inl err =>
                (* Retry if the lockfile has been removed (meanwhile) *)
                if is_ENOENT err
                then acquireLock fuel' file (set_stale 0 opts) callback m
                else callback (inl err) m
              | inr mtime =>
                Now (fun now =>
                  if mtime >=? now - stale opts
                  then callback (inl (ELOCKED file)) m
                  else
                    (* If it's stale, remove it and try again! *)
                    removeLock file (fun r m =>
                      match r with
                      | Some err => callback (inl err) m
                      | None =>
                        acquireLock fuel' file (set_stale 0 opts) callback m
                      end) m)
              end)
        end)
    end
  end.

(** [lock.compromised(err)] *)
Definition call_compromised (h : nat) (err : jserr) (m : mem) : proc :=
  match heap m !! h with
  | None => Throw TypeError m
  | Some l =>
    Notify (Compromised h err)
      (match compromised l with
       | UserHandler => Ret m
       | DefaultThrow => Throw err m
       end)
  end.

(** [unlock(file, options, callback)]; of [options] only [resolve] (and
    [fs]) is read, so that [unlock(file, extend({}, options, { resolve:
    false }), callback)] is [unlock file false callback]. *)
Definition unlock (file : path) (res : bool)
    (callback : option jserr -> mem -> proc) (m : mem) : proc :=
  (* Resolve to a canonical file path *)
  canonicalPath file res (fun r m =>
    match r with
    | inl err => callback (Some err) m
    | inr file =>
      (* Skip if the lock is not acquired *)
      match locks m !! file with
      | None => callback (Some ENOTACQUIRED) m
      | Some h =>
        match heap m !! h with
        | None => Throw TypeError m
        | Some l =>
          (* Cancel lock mtime update *)
          let m1 := match updateTimeout l with
                    | Some t => clearTimeout t m
                    | None => m
                    end in
          (* Signal the lock has been released *)
          let m2 := store h (set_released true l) m1 in
          (* Delete from acquired *)
          let m3 := set_locks (delete file) m2 in
          removeLock file callback m3
        end
      end
    end) m.

(** The synchronous part of [updateLock(file, options)]: it arms the
    timer whose closure is [tick] below. *)
Definition updateLock (file : path) (opts : options)
    (k : mem -> proc) (m : mem) : proc :=
  match locks m !! file with
  | None => Throw TypeError m
  | Some h =>
    match heap m !! h with
    | None => Throw TypeError m
    | Some l =>
      let d := js_or_opt (updateDelay l) (update opts) in
      let '(t, m1) := setTimeout (mkPending file opts h d) m in
      k (store h (set_updateTimeout (Some t) (set_updateDelay (Some d) l)) m1)
    end
  end.

(** The callback of [async.parallel] in [updateLock] (lines 117-156).
    [res] is what [async.parallel] passes: the first error, or the
    results of [read] and [utimes]. *)
Definition tick_done (file : path) (opts : options) (h : nat)
    (res : jserr + list N * unit) (m : mem) : proc :=
  match heap m !! h with
  | None => Throw TypeError m
  | Some l =>
    (* Ignore if the lock was released *)
    if released l then Ret m
    else
      Now (fun now =>
        (* Verify if we are within the stale threshold *)
        if lastUpdate l <=? now - stale opts then
          unlock file false (fun _ m =>
            match heap m !! h with
            | None => Throw TypeError m
            | Some l' =>
              call_compromised h (default EUPDATE (updateError l')) m
            end) m
        else
          match res with
          | inl err =>
            (* If it failed to update the lockfile, keep trying unless
               the lockfile/uidfile was deleted! *)
            if is_ENOENT err then
              unlock file false (fun _ m => call_compromised h err m) m
            else
              let l1 := set_updateDelay (Some 1000)
                          (set_updateError (Some err) l) in
              updateLock file opts Ret (store h l1 m)
          | inr (data, _) =>
            (* Verify lock uid *)
            if negb (bool_decide (trim data = uid l)) then
              let m1 := store h (set_released true l) m in
              let m2 := set_locks (delete file) m1 in
              call_compromised h EMISMATCH m2
            else
              (* All ok, keep updating.. *)
              Now (fun now' =>
                let l1 := set_updateDelay None
                            (set_updateError None
                               (set_lastUpdate now' l)) in
                updateLock file opts Ret (store h l1 m))
          end)
  end.

(** The closure passed to [setTimeout] (lines 109-157) up to the call
    of [async.parallel]. *)
Definition tick (file : path) (opts : options) (h : nat) (m : mem) : proc :=
  Now (fun now =>
    match heap m !! h with
    | None => Throw TypeError m
    | Some l =>
      let m1 := store h (set_updateTimeout None l) m in
      Par m1 (ReadFile (getUidFile file)) (Utimes (getLockFile file) now now)
          (tick_done file opts h)
    end).

(** The event loop fires timer [t]: nothing happens if it was cleared. *)
Definition fire (t : nat) (m : mem) : proc :=
  match timers m !! t with
  | None => Ret m
  | Some p => tick (t_file p) (t_opts p) (t_lock p) (clearTimeout t m)
  end.

(** The function that [lock] passes to its callback (lines 221-230). *)
Definition release (r : releaser)
    (releasedCallback : option jserr -> mem -> proc) (m : mem) : proc :=
  match heap m !! r_lock r with
  | None => Throw TypeError m
  | Some l =>
    if released l then releasedCallback (Some ERELEASED) m
    else
      (* Not necessary to resolve twice when unlocking *)
      unlock (r_file r) false releasedCallback m
  end.

(** Package [retry] with its defaults ([factor: 2], [minTimeout: 1000],
    no randomisation): the delays before the retries of an operation
    created with [{ retries: n }]. *)
Definition retry_timeouts (n : nat) : list Z :=
  map (fun i => 1000 * 2 ^ Z.of_nat i) (seq 0 n).

(** [operation.mainError()] of package [retry]: the error whose message
    occurred most often, the latest among equals. *)
Definition count_message (msg : string) (errs : list jserr) : nat :=
  length (filter (fun e => message e = msg) errs).

Fixpoint mainError_from (seen : list jserr) (rest : list jserr)
    (best : option jserr) (bestCount : nat) : option jserr :=
  match rest with
  | [] => best
  | e :: rest' =>
    let seen' := (seen ++ [e])%list in
    let c := count_message (message e) seen' in
    if (bestCount <=? c)%nat then mainError_from seen' rest' (Some e) c
    else mainError_from seen' rest' best bestCount
  end.

Definition mainError (errs : list jserr) : option jserr :=
  mainError_from [] errs None 0.

(** The callback of [acquireLock] in [lock] once the lock is acquired
    (lines 210-230): the lock object is registered, the renewal loop
    started and the release function passed to the caller. *)
Definition acquired (file : path) (opts : options) (comp : handler)
    (callback : jserr + releaser -> mem -> proc) (u : list N) (m : mem) : proc :=
  (* We now own the lock *)
  Now (fun now =>
    let h := next_addr m in
    let l := mkLock u opts comp now false None None None in
    let m1 := mkMem (<[file := h]> (locks m)) (<[h := l]> (heap m))
                    (timers m) (S h) (next_timer m) in
    (* We must keep the lock fresh to avoid staleness *)
    updateLock file opts
      (fun m2 => callback (inr (mkReleaser file opts h)) m2) m1).

(** [operation.attempt(function () { acquireLock(...) })] with the
    callback of lines 199-231; [timeouts] are the delays still
    available to [operation.retry] and [errors] the errors it has
    recorded. *)
Fixpoint attempt (timeouts : list Z) (errors : list jserr)
    (file : path) (opts : options) (comp : handler)
    (callback : jserr + releaser -> mem -> proc) (m : mem) : proc :=
  acquireLock 2 file opts (fun r m =>
    match r with
    | inl err =>
      (* operation.retry(err) *)
      match timeouts with
      | t :: timeouts' =>
        Sleep m t (attempt timeouts' (errors ++ [err])%list file opts comp callback)
      | [] =>
        callback (inl (default err (mainError (errors ++ [err])%list))) m
      end
    | inr u => acquired file opts comp callback u m
    end) m.

(** [lock(file, options, compromised, callback)] *)
Definition lock (file : path) (s : supplied) (comp : option handler)
    (callback : jserr + releaser -> mem -> proc) (m : mem) : proc :=
  let opts := effective s in
  let comp := default DefaultThrow comp in
  (* Resolve to a canonical file path *)
  canonicalPath file (resolve opts) (fun r m =>
    match r with
    | inl err => callback (inl err) m
    | inr file =>
      (* Attempt to acquire the lock *)
      attempt (retry_timeouts (retries opts)) [] file opts comp callback m
    end) m.

(** ** Running a program against its collaborators *)

(** The collaborators of the module, over a state [W] of their own:
    [options.fs], [Date.now], [uuid.v4], [path.normalize], the order in
    which the two tasks of [async.parallel] finish and the passing of
    time while a retry of package [retry] waits. *)
Record env (W : Type) : Type := mkEnv {
  do_fs : forall c : fscall, W -> (jserr + ret c) * W;
  do_now : W -> Z * W;
  do_uuid : W -> list N * W;
  do_normalize : string -> string;
  do_order : W -> bool * W;
  do_sleep : Z -> W -> W
}.

Arguments do_fs {W} _ _ _.
Arguments do_now {W} _ _.
Arguments do_uuid {W} _ _.
Arguments do_normalize {W} _ _.
Arguments do_order {W} _ _.
Arguments do_sleep {W} _ _ _.

(** [async.parallel] with two tasks: the final callback gets the error
    of the task that failed first, or both results. *)
Definition async_parallel {A B : Type} (r1 : jserr + A) (r2 : jserr + B)
    (first1 : bool) : jserr + A * B :=
  match r1, r2 with
  | inr a, inr b => inr (a, b)
  | inl e, inr _ => inl e
  | inr _, inl e => inl e
  | inl e1, inl e2 => inl (if first1 then e1 else e2)
  end.

(** What a run shows to the outside. *)
Inductive obs : Type :=
| OCall (c : fscall)
| OEvent (ev : event)
| OSleep (ms : Z).

Inductive final : Type :=
| Done (m : mem)
| Crashed (e : jserr) (m : mem)
| Stuck.

Record outcome (W : Type) : Type := mkOut {
  trace : list obs;
  result : final;
  after : W
}.

Arguments mkOut {W} _ _ _.
Arguments trace {W} _.
Arguments result {W} _.
Arguments after {W} _.

Definition emit {W : Type} (o : obs) (out : outcome W) : outcome W :=
  mkOut (o :: trace out) (result out) (after out).

(** A run in which no other turn of this process comes in between:
    every callback finds the memory its predecessor left. *)
Fixpoint run {W : Type} (E : env W) (p : proc) (w : W) : outcome W :=
  match p with
  | Ret m => mkOut [] (Done m) w
  | Throw e m => mkOut [] (Crashed e m) w
  | OutOfFuel => mkOut [] Stuck w
  | Notify ev k => emit (OEvent ev) (run E k w)
  | Now k => run E (k (do_now E w).1) (do_now E w).2
  | UuidV4 k => run E (k (do_uuid E w).1) (do_uuid E w).2
  | Normalize p k => run E (k (do_normalize E p)) w
  | Fs m c k => emit (OCall c) (run E (k (do_fs E c w).1 m) (do_fs E c w).2)
  | Par m c1 c2 k =>
    let a1 := do_fs E c1 w in
    let a2 := do_fs E c2 a1.2 in
    let o := do_order E a2.2 in
    emit (OCall c1) (emit (OCall c2)
      (run E (k (async_parallel a1.1 a2.1 o.1) m) o.2))
  | Sleep m ms k => emit (OSleep ms) (run E (k m) (do_sleep E ms w))
  end.

(** The filesystem calls and the user callbacks of a trace. *)
Definition calls (t : list obs) : list fscall :=
  omap (fun o => match o with OCall c => Some c | _ => None end) t.
Definition events (t : list obs) : list event :=
  omap (fun o => match o with OEvent e => Some e | _ => None end) t.

(** Observers for the callbacks that a user passes in. *)
Definition on_acquire (r : jserr + list N) (m : mem) : proc :=
  Notify (AcquireCb r) (Ret m).
Definition on_lock (r : jserr + releaser) (m : mem) : proc :=
  Notify (LockCb r) (Ret m).
Definition on_released (r : option jserr) (m : mem) : proc :=
  Notify (ReleasedCb r) (Ret m).

(** ** A filesystem *)

(** The module reaches the filesystem through [options.fs] only, by
    default package [graceful-fs], which is not part of the repository.
    Statements about what is on disk need a filesystem to speak of:
    [PosixFs.E] is one, after the spec's description of the primitives,
    and [PosixFs.F] is the same filesystem in which a call can also
    fail with an error scheduled for it (the spec's "unexpected
    filesystem failures"), a failed call changing nothing.  The model
    has no symbolic links, and the modification time of an entry
    changes only by [mkdir], [writeFile] and [utimes] of that entry. *)
Module PosixFs.

Inductive node : Type :=
| Dir (mtime : Z)
| File (mtime : Z) (data : list N).

Definition mtime_of (n : node) : Z :=
  match n with Dir t => t | File t _ => t end.

Definition set_mtime (t : Z) (n : node) : node :=
  match n with Dir _ => Dir t | File _ d => File t d end.

Record world : Type := mkWorld {
  fs : gmap string node;
  clock : Z;
  uuids : list (list N);
  read_first : bool
}.

Definition syserr (cd : string) : jserr := mkErr cd cd None.

(** The directory part of a path: [None] for a path without
    separator, [Some ""] for an entry of the root directory. *)
Fixpoint parent (p : string) : option string :=
  match p with
  | EmptyString => None
  | String c r =>
    match parent r with
    | Some q => Some (String c q)
    | None => if Ascii.eqb c (Ascii.ascii_of_nat 47) then Some EmptyString else None
    end
  end.

(** The entry in which [p] is to be created exists and is a
    directory; the root and the working directory always are. *)
Definition parent_error (f : gmap string node) (p : string) : option jserr :=
  match parent p with
  | None => None
  | Some EmptyString => None
  | Some q =>
    match f !! q with
    | Some (Dir _) => None
    | Some (File _ _) => Some (syserr "ENOTDIR")
    | None => Some (syserr "ENOENT")
    end
  end.

(** No entry lies below directory [p]. *)
Definition is_empty_dir (f : gmap string node) (p : string) : bool :=
  bool_decide (map_Forall (fun q _ => String.prefix (p +:+ "/") q = false) f).

Definition with_fs (f : gmap string node) (w : world) : world :=
  mkWorld f (clock w) (uuids w) (read_first w).

(** Modelled from the spec: the primitive filesystem operations that
    [options.fs] supplies (sections 1 and 6: "assumed to behave per
    standard POSIX-like semantics", atomic directory creation, stat,
    file read and write, unlink and directory removal, each reporting a
    distinguishable not-found condition). *)
Definition posix (c : fscall) (w : world) : (jserr + ret c) * world :=
  let f := fs w in
  match c return (jserr + ret c) * world with
  | Mkdir p =>
    match f !! p with
    | Some _ => (inl (syserr "EEXIST"), w)
    | None =>
      match parent_error f p with
      | Some e => (inl e, w)
      | None => (inr tt, with_fs (<[p := Dir (clock w)]> f) w)
      end
    end
  | WriteFile p d =>
    match f !! p with
    | Some (Dir _) => (inl (syserr "EISDIR"), w)
    | Some (File _ _) => (inr tt, with_fs (<[p := File (clock w) d]> f) w)
    | None =>
      match parent_error f p with
      | Some e => (inl e, w)
      | None => (inr tt, with_fs (<[p := File (clock w) d]> f) w)
      end
    end
  | Stat p =>
    match f !! p with
    | Some n => (inr (mtime_of n), w)
    | None => (inl (syserr "ENOENT"), w)
    end
  | Unlink p =>
    match f !! p with
    | Some (File _ _) => (inr tt, with_fs (delete p f) w)
    | Some (Dir _) => (inl (syserr "EISDIR"), w)
    | None => (inl (syserr "ENOENT"), w)
    end
  | Rmdir p =>
    match f !! p with
    | Some (Dir _) =>
      if is_empty_dir f p then (inr tt, with_fs (delete p f) w)
      else (inl (syserr "ENOTEMPTY"), w)
    | Some (File _ _) => (inl (syserr "ENOTDIR"), w)
    | None => (inl (syserr "ENOENT"), w)
    end
  | ReadFile p =>
    match f !! p with
    | Some (File _ d) => (inr d, w)
    | Some (Dir _) => (inl (syserr "EISDIR"), w)
    | None => (inl (syserr "ENOENT"), w)
    end
  | Utimes p _ t =>
    match f !! p with
    | Some n => (inr tt, with_fs (<[p := set_mtime t n]> f) w)
    | None => (inl (syserr "ENOENT"), w)
    end
  | Realpath p =>
    match f !! p with
    | Some _ => (inr p, w)
    | None => (inl (syserr "ENOENT"), w)
    end
  end.

Definition next_uuid (w : world) : list N * world :=
  match uuids w with
  | u :: rest => (u, mkWorld (fs w) (clock w) rest (read_first w))
  | [] => ([], w)
  end.

Definition sleep (ms : Z) (w : world) : world :=
  mkWorld (fs w) (clock w + ms) (uuids w) (read_first w).

(** The collaborators at canonical paths: the keys of [fs] are
    normalized paths, on which [path.normalize] is the identity, and
    [realpath] answers an existing path with that same path, as it
    does for an absolute normalized path without symbolic links.  A
    statement on [E] about a path that the caller passes is about such
    a path.  [Enorm] below is the same with [path.normalize]
    itself. *)
Definition E : env world :=
  mkEnv world posix (fun w => (clock w, w)) next_uuid (fun p => p)
        (fun w => (read_first w, w)) sleep.

Definition Enorm : env world :=
  mkEnv world posix (fun w => (clock w, w)) next_uuid normalize
        (fun w => (read_first w, w)) sleep.

(** A filesystem with a schedule of faults: each call consumes the
    head of the schedule and fails with the error found there, if
    any. *)
Record faulty : Type := mkFaulty {
  base : world;
  faults : list (option jserr)
}.

Definition call (c : fscall) (v : faulty) : (jserr + ret c) * faulty :=
  match faults v with
  | Some e :: rest => (inl e, mkFaulty (base v) rest)
  | _ => ((posix c (base v)).1, mkFaulty (posix c (base v)).2 (tail (faults v)))
  end.

(** The next call is not made to fail. *)
Definition spared (v : faulty) : Prop :=
  match faults v with Some _ :: _ => False | _ => True end.

Definition F : env faulty :=
  mkEnv faulty call
        (fun v => (clock (base v), v))
        (fun v => ((next_uuid (base v)).1,
                   mkFaulty (next_uuid (base v)).2 (faults v)))
        (fun p => p)
        (fun v => (read_first (base v), v))
        (fun ms v => mkFaulty (sleep ms (base v)) (faults v)).

(** The lock artifact of [file] is absent: no lock directory and
    nothing below its path. *)
Definition no_artifact (f : gmap string node) (file : string) : Prop :=
  f !! getLockFile file = None /\
  map_Forall (fun q _ => String.prefix (getLockFile file +:+ "/") q = false) f.

(** The artifact of [file] is what the module leaves there, whole or
    in part: the uid file, if present, is a file, the lock directory,
    if present, a directory, and nothing else lies below it. *)
Definition artifact_wf (f : gmap string node) (file : string) : Prop :=
  (forall t, f !! getUidFile file <> Some (Dir t)) /\
  (forall t d, f !! getLockFile file <> Some (File t d)) /\
  (forall q n, f !! q = Some n ->
     String.prefix (getLockFile file +:+ "/") q = true -> q = getUidFile file).

(** The fresh artifact: the filesystem after a successful
    acquisition at time [t] with token [u]. *)
Definition with_artifact (file : string) (t : Z) (u : list N)
    (f : gmap string node) : gmap string node :=
  <[getUidFile file := File t u]> (<[getLockFile file := Dir t]> f).

End PosixFs.

(** ** Notions used in the statements *)

(** "Ignoring ENOENT errors": what [removeLock] makes of the answer of
    [unlink] or [rmdir]. *)
Definition teardown_error (r : jserr + unit) : option jserr :=
  match r with
  | inl err => if is_ENOENT err then None else Some err
  | inr _ => None
  end.

(** The second phase of an acquisition in the words of the spec (4.1,
    steps 1 to 3, and 9: "phase 2 (bare atomic create attempt, no
    staleness check)"): the local check, one [mkdir], the write of the
    token with its teardown on failure; contention fails with ELOCKED
    and nothing is retried.  [acquireLock_retry_is_once] compares it
    with the source's recursive call. *)
Definition acquire_once (file : path)
    (callback : jserr + list N -> mem -> proc) (m : mem) : proc :=
  match locks m !! file with
  | Some _ => callback (inl (ELOCKED file)) m
  | None =>
    Fs m (Mkdir (getLockFile file)) (fun r m =>
      match r with
      | inr _ =>
        UuidV4 (fun uid =>
          Fs m (WriteFile (getUidFile file) uid) (fun r m =>
            match r with
            | inl err => removeLock file (fun _ m => callback (inl err) m) m
            | inr _ => callback (inr uid) m
            end))
      | inl _ => callback (inl (ELOCKED file)) m
      end)
  end.

(** No answer of the collaborators makes a program run out of fuel. *)
Inductive fuelled : proc -> Prop :=
| fuelled_Ret m : fuelled (Ret m)
| fuelled_Throw e m : fuelled (Throw e m)
| fuelled_Notify ev k : fuelled k -> fuelled (Notify ev k)
| fuelled_Now k : (forall t, fuelled (k t)) -> fuelled (Now k)
| fuelled_UuidV4 k : (forall u, fuelled (k u)) -> fuelled (UuidV4 k)
| fuelled_Normalize p k : (forall q, fuelled (k q)) -> fuelled (Normalize p k)
| fuelled_Fs m c k : (forall r m', fuelled (k r m')) -> fuelled (Fs m c k)
| fuelled_Par m c1 c2 k :
    (forall r m', fuelled (k r m')) -> fuelled (Par m c1 c2 k)
| fuelled_Sleep m ms k : (forall m', fuelled (k m')) -> fuelled (Sleep m ms k).

(** The bookkeeping of [unlock] (lines 263-265) on the lock object [l]
    at [h], registered for [file]: the pending timer is cleared, the
    object marked released and the entry deleted from [locks]. *)
Definition release_mem (file : path) (h : nat) (l : lockobj) (m : mem) : mem :=
  set_locks (delete file)
    (store h (set_released true l)
       (match updateTimeout l with
        | Some t => clearTimeout t m
        | None => m
        end)).

(** The caller that releases as soon as it has the lock. *)
Definition release_at_once (r : jserr + releaser) (m : mem) : proc :=
  match r with
  | inr rl => release rl on_released m
  | inl e => on_lock (inl e) m
  end.

(** The memory a run ended with. *)
Definition mem_of {W : Type} (o : outcome W) : mem :=
  match result o with
  | Done m => m
  | Crashed _ m => m
  | Stuck => empty_mem
  end.

(** [exposes P p]: every memory with which [p] ends a turn satisfies
    [P], provided every callback is entered with a memory that
    satisfies [P] (other turns of the process may have run in between,
    as long as they kept [P]). *)
Inductive exposes (P : mem -> Prop) : proc -> Prop :=
| exposes_Ret m : P m -> exposes P (Ret m)
| exposes_Throw e m : P m -> exposes P (Throw e m)
| exposes_OutOfFuel : exposes P OutOfFuel
| exposes_Notify ev k : exposes P k -> exposes P (Notify ev k)
| exposes_Now k : (forall t, exposes P (k t)) -> exposes P (Now k)
| exposes_UuidV4 k : (forall u, exposes P (k u)) -> exposes P (UuidV4 k)
| exposes_Normalize p k :
    (forall q, exposes P (k q)) -> exposes P (Normalize p k)
| exposes_Fs m c k :
    P m -> (forall r m', P m' -> exposes P (k r m')) -> exposes P (Fs m c k)
| exposes_Par m c1 c2 k :
    P m -> (forall r m', P m' -> exposes P (k r m')) ->
    exposes P (Par m c1 c2 k)
| exposes_Sleep m ms k :
    P m -> (forall m', P m' -> exposes P (k m')) -> exposes P (Sleep m ms k).

(** The lock object at [h] exists and is marked released. *)
Definition gone (h : nat) (m : mem) : Prop :=
  (h < next_addr m)%nat /\
  exists l, heap m !! h = Some l /\ released l = true.

(** [answers_once Q n p]: whatever the collaborators answer and
    whatever memory the callbacks find, [p] makes at most [n] calls to
    the filesystem, then calls one user function, with an argument that
    satisfies [Q], and stops; it neither throws nor calls a second
    one. *)
Inductive answers_once (Q : event -> Prop) : nat -> proc -> Prop :=
| answers_Notify n ev m : Q ev -> answers_once Q n (Notify ev (Ret m))
| answers_Now n k :
    (forall t, answers_once Q n (k t)) -> answers_once Q n (Now k)
| answers_UuidV4 n k :
    (forall u, answers_once Q n (k u)) -> answers_once Q n (UuidV4 k)
| answers_Normalize n p k :
    (forall q, answers_once Q n (k q)) -> answers_once Q n (Normalize p k)
| answers_Fs n m c k :
    (forall r m', answers_once Q n (k r m')) -> answers_once Q (S n) (Fs m c k)
| answers_Par n m c1 c2 k :
    (forall r m', answers_once Q n (k r m')) ->
    answers_once Q (S (S n)) (Par m c1 c2 k)
| answers_Sleep n m ms k :
    (forall m', answers_once Q n (k m')) -> answers_once Q n (Sleep m ms k).

Definition is_AcquireCb (ev : event) : Prop := exists r, ev = AcquireCb r.
Definition is_LockCb (ev : event) : Prop := exists r, ev = LockCb r.


(** The waits of package [retry] in a trace. *)
Definition sleeps (t : list obs) : list Z :=
  omap (fun o => match o with OSleep ms => Some ms | _ => None end) t.

(** [p] never asks [path.normalize]. *)
Inductive path_free : proc -> Prop :=
| path_free_Ret m : path_free (Ret m)
| path_free_Throw e m : path_free (Throw e m)
| path_free_OutOfFuel : path_free OutOfFuel
| path_free_Notify ev k : path_free k -> path_free (Notify ev k)
| path_free_Now k : (forall t, path_free (k t)) -> path_free (Now k)
| path_free_UuidV4 k : (forall u, path_free (k u)) -> path_free (UuidV4 k)
| path_free_Fs m c k : (forall r m', path_free (k r m')) -> path_free (Fs m c k)
| path_free_Par m c1 c2 k :
    (forall r m', path_free (k r m')) -> path_free (Par m c1 c2 k)
| path_free_Sleep m ms k :
    (forall m', path_free (k m')) -> path_free (Sleep m ms k).

(** ** Operations in flight together *)

(** The rest of the current turn of [p]: the synchronous collaborators
    answer and the user's functions are called, until [p] waits for a
    callback or stops. *)
Fixpoint turn {W : Type} (E : env W) (p : proc) (w : W) : list obs * proc * W :=
  match p with
  | Notify ev k => let r := turn E k w in (OEvent ev :: r.1.1, r.1.2, r.2)
  | Now k => turn E (k (do_now E w).1) (do_now E w).2
  | UuidV4 k => turn E (k (do_uuid E w).1) (do_uuid E w).2
  | Normalize q k => turn E (k (do_normalize E q)) w
  | _ => ([], p, w)
  end.

(** The memory with which a program ended its last turn. *)
Definition left_mem (p : proc) : option mem :=
  match p with
  | Ret m | Throw _ m | Fs m _ _ | Par m _ _ _ | Sleep m _ _ => Some m
  | _ => None
  end.

(** The event loop calls the callback that [p] waits for, in a turn
    that starts with memory [m] (the memory that the turn before it
    left, of whatever operation): the call is answered and the turn
    runs to its end. *)
Definition wake {W : Type} (E : env W) (p : proc) (m : mem) (w : W)
    : list obs * proc * W :=
  match p with
  | Fs _ c k =>
    let a := do_fs E c w in
    let r := turn E (k a.1 m) a.2 in
    (OCall c :: r.1.1, r.1.2, r.2)
  | Par _ c1 c2 k =>
    let a1 := do_fs E c1 w in
    let a2 := do_fs E c2 a1.2 in
    let o := do_order E a2.2 in
    let r := turn E (k (async_parallel a1.1 a2.1 o.1) m) o.2 in
    (OCall c1 :: OCall c2 :: r.1.1, r.1.2, r.2)
  | Sleep _ ms k =>
    let r := turn E (k m) (do_sleep E ms w) in
    (OSleep ms :: r.1.1, r.1.2, r.2)
  | _ => ([], p, w)
  end.

(** Two operations in flight, [a] and [b]; [sched] says whose callback
    the event loop calls next ([true]: that of [a]).  Every turn starts
    with the memory that the turn before it left. *)
Fixpoint interleave {W : Type} (E : env W) (sched : list bool)
    (a b : proc) (m : mem) (w : W) : list obs * (proc * proc) * mem * W :=
  match sched with
  | [] => ([], (a, b), m, w)
  | first :: rest =>
    let r := wake E (if first then a else b) m w in
    let m' := default m (left_mem r.1.2) in
    let s := interleave E rest (if first then r.1.2 else a)
               (if first then b else r.1.2) m' r.2 in
    ((r.1.1 ++ s.1.1.1)%list, s.1.1.2, s.1.2, s.2)
  end.

(** A trace put before an outcome. *)
Definition prepend {W : Type} (t : list obs) (o : outcome W) : outcome W :=
  mkOut (t ++ trace o)%list (result o) (after o).

(** [ends P p]: in a run of [p] in which no other turn comes in
    between, whatever the collaborators answer, [p] calls one user
    function and stops; the call and the memory it leaves satisfy
    [P]. *)
Inductive ends (P : event -> mem -> Prop) : proc -> Prop :=
| ends_Notify ev m : P ev m -> ends P (Notify ev (Ret m))
| ends_Now k : (forall t, ends P (k t)) -> ends P (Now k)
| ends_UuidV4 k : (forall u, ends P (k u)) -> ends P (UuidV4 k)
| ends_Normalize p k : (forall q, ends P (k q)) -> ends P (Normalize p k)
| ends_Fs m c k : (forall r, ends P (k r m)) -> ends P (Fs m c k)
| ends_Par m c1 c2 k : (forall r, ends P (k r m)) -> ends P (Par m c1 c2 k)
| ends_Sleep m ms k : ends P (k m) -> ends P (Sleep m ms k).

(** The memory after [lock] registered token [u] for [file] at time
    [now], from memory [m]. *)
Definition registered (file : path) (opts : options) (comp : handler)
    (u : list N) (now : Z) (m : mem) : mem :=
  let h := next_addr m in
  let t := next_timer m in
  mkMem (<[file := h]> (locks m))
        (<[h := mkLock u opts comp now false (Some (update opts)) (Some t) None]>
           (heap m))
        (<[t := mkPending file opts h (update opts)]> (timers m))
        (S h) (S t).

(** ** Sample data *)

Module Sample.
Import PosixFs.

(** A directory [/tmp] with a file [a]; two tokens. *)
Definition fs0 : gmap string node :=
  {[ "/tmp" := Dir 0; "/tmp/a" := File 0 [] ]}.
Definition mine : list N := [109; 105; 110; 101]%N.
Definition other : list N := [111; 116; 104; 101; 114]%N.

(** [{ resolve: false }]: stale 10000, update 5000, no retry. *)
Definition plain : supplied := mkSupplied None None (Some false) None.
Definition opts : options := effective plain.

Definition eio : jserr := syserr "EIO".

(** [lock('/tmp/a', { resolve: false }, compromised, callback)] at
    time 0 in an empty process. *)
Definition w_start : world := mkWorld fs0 0 [mine] true.
Definition m_held : mem :=
  mem_of (run E (lock "/tmp/a" plain (Some UserHandler) on_lock empty_mem) w_start).
Definition l_held : lockobj :=
  mkLock mine opts UserHandler 0 false (Some 5000) (Some 0%nat) None.
Definition r_held : releaser := mkReleaser "/tmp/a" opts 0.

(** The artifact of this process, and the one of another party that
    took the lock at time [t]. *)
Definition fs_mine : gmap string node := with_artifact "/tmp/a" 0 mine fs0.
Definition fs_other (t : Z) : gmap string node :=
  with_artifact "/tmp/a" t other fs0.

(** The memory after the first tick of [m_held], at time 5000, whose
    [utimes] fails with EIO. *)
Definition m_failed : mem :=
  mem_of (run F (fire 0 m_held)
            (mkFaulty (mkWorld fs_mine 5000 [] true) [None; Some eio])).

(** No options at all, and [{ resolve: false, retries: 2 }]. *)
Definition defaults : supplied := mkSupplied None None None None.
Definition patient : supplied := mkSupplied None None (Some false) (Some 2%nat).

(** The lock object of [m_failed], and [m_held] after its release. *)
Definition l_failed : lockobj :=
  mkLock mine opts UserHandler 0 false (Some 1000) (Some 1%nat) (Some eio).
Definition m_released : mem := release_mem "/tmp/a" 0 l_held m_held.

(** Two calls of [lock('/tmp/a', { resolve: false }, ...)] made one
    after the other by one process at time 20000, while the lock that
    another party took at time 0 lies there, stale.  Each call passes
    the fast check, finds [mkdir] failing and the lock stale; the first
    removes the stale artifact and creates its own directory, the
    second then removes that directory, empty as yet, and creates its
    own; both write their token and both call back with a release
    function. *)
Definition yours : list N := [121; 111; 117; 114; 115]%N.
Definition w_stale : world := mkWorld (fs_other 0) 20000 [mine; yours] true.
Definition first_call : proc :=
  (turn E (lock "/tmp/a" plain (Some UserHandler) on_lock empty_mem) w_stale).1.2.
Definition second_call : proc :=
  (turn E (lock "/tmp/a" plain (Some UserHandler) on_lock empty_mem) w_stale).1.2.
Definition raced : list obs * (proc * proc) * mem * world :=
  interleave E [true; false; true; false; true; false;
                true; true; false; false; true; false]
    first_call second_call empty_mem w_stale.
Definition t_raced : list obs := raced.1.1.1.
Definition m_raced : mem := raced.1.2.
Definition w_raced : world := raced.2.
Definition r_first : releaser := mkReleaser "/tmp/a" opts 0.
Definition r_second : releaser := mkReleaser "/tmp/a" opts 1.
Definition l_first : lockobj :=
  mkLock mine opts UserHandler 20000 false (Some 5000) (Some 0%nat) None.
Definition l_second : lockobj :=
  mkLock yours opts UserHandler 20000 false (Some 5000) (Some 1%nat) None.

End Sample.

(** * Properties *)

(** ** Facts about [run] *)

Section RunFacts.
Context {W : Type} (E : env W).

Lemma run_Fs m c k w r w1 :
  do_fs E c w = (r, w1) ->
  run E (Fs m c k) w = emit (OCall c) (run E (k r m) w1).
Proof. intros H. cbn [run]. rewrite H. reflexivity. Qed.

Lemma run_Now k w t w1 :
  do_now E w = (t, w1) -> run E (Now k) w = run E (k t) w1.
Proof. intros H. cbn [run]. rewrite H. reflexivity. Qed.

Lemma run_UuidV4 k w u w1 :
  do_uuid E w = (u, w1) -> run E (UuidV4 k) w = run E (k u) w1.
Proof. intros H. cbn [run]. rewrite H. reflexivity. Qed.

Lemma run_on_acquire r m w :
  run E (on_acquire r m) w = mkOut [OEvent (AcquireCb r)] (Done m) w.
Proof. reflexivity. Qed.

Lemma run_on_released r m w :
  run E (on_released r m) w = mkOut [OEvent (ReleasedCb r)] (Done m) w.
Proof. reflexivity. Qed.

End RunFacts.

(** ** Turns *)

Section Turns.
Context {W : Type} (E : env W).

(** A run is its first turn and the run of what is left. *)
Lemma run_turn (p : proc) (w : W) :
  run E p w =
  prepend (turn E p w).1.1 (run E (turn E p w).1.2 (turn E p w).2).
Proof.
  revert w.
  induction p as [m|e m| |ev k IH|k IH|k IH|q k IH|m c k _|m c1 c2 k _|m ms k _];
    intros w; cbn [turn run]; try reflexivity.
  - rewrite IH. reflexivity.
  - apply IH.
  - apply IH.
  - apply IH.
Qed.

(** Woken with the memory it left, a waiting program goes on as in a
    run of its own. *)
Lemma run_wake (p : proc) (m : mem) (w : W) :
  left_mem p = Some m ->
  run E p w =
  prepend (wake E p m w).1.1 (run E (wake E p m w).1.2 (wake E p m w).2).
Proof.
  destruct p as [m0|e m0| |ev k|k|k|q k|m0 c k|m0 c1 c2 k|m0 ms k];
    cbn [left_mem]; try discriminate; intros [= ->]; cbn [wake run];
    try reflexivity.
  - rewrite run_turn at 1. reflexivity.
  - cbv zeta. rewrite run_turn at 1. reflexivity.
  - rewrite run_turn at 1. reflexivity.
Qed.

End Turns.

(** ** The clamps of [lock] *)

Lemma js_or_0 (a : Z) : js_or a 0 = a.
Proof. unfold js_or. destruct (Z.eqb_spec a 0); congruence. Qed.

Lemma round_half_bounds (n : Z) : n <= 2 * round_half n <= n + 1.
Proof.
  unfold round_half.
  pose proof (Z.div_mod (n + 1) 2 ltac:(lia)) as Hd.
  pose proof (Z.mod_pos_bound (n + 1) 2 ltac:(lia)) as Hm.
  lia.
Qed.

Lemma round_half_even (n : Z) : Z.even n = true -> 2 * round_half n = n.
Proof.
  intros [k ->]%Z.even_spec. unfold round_half.
  replace (2 * k + 1) with (1 + k * 2) by lia.
  rewrite Z.div_add by lia. change (1 / 2) with 0. lia.
Qed.

Lemma stale_default (s : supplied) :
  default 10000 (s_stale s) =
  match s_stale s with Some v => v | None => 10000 end.
Proof. destruct (s_stale s); reflexivity. Qed.

Lemma update_default (s : supplied) :
  default 5000 (s_update s) =
  match s_update s with Some v => v | None => 5000 end.
Proof. destruct (s_update s); reflexivity. Qed.

Lemma effective_stale_min (s : supplied) : 2000 <= stale (effective s).
Proof. unfold effective. cbn [stale]. lia. Qed.

(** C5 (amended): the effective staleness threshold is
    [max(supplied or 0, 2000)] with default 10000 and the effective
    renewal interval is [max(min(supplied or 0, round(stale / 2)), 1000)]
    with default 5000; the threshold is never below 2000 ms and the
    interval lies between 1000 ms and [round(stale / 2)], which is
    [stale / 2] for an even threshold and half a millisecond more for
    an odd one. *)
Theorem effective_options_clamped (s : supplied) :
  let o := effective s in
  stale o = Z.max (match s_stale s with Some v => v | None => 10000 end) 2000 /\
  update o =
    Z.max (Z.min (match s_update s with Some v => v | None => 5000 end)
                 (round_half (stale o))) 1000 /\
  2000 <= stale o /\
  1000 <= update o /\
  2 * update o <= stale o + 1 /\
  (Z.even (stale o) = true -> 2 * update o <= stale o).
Proof.
  cbn zeta. unfold effective. cbn [stale update]. rewrite !js_or_0.
  rewrite stale_default, update_default.
  set (st := Z.max _ 2000).
  pose proof (round_half_bounds st) as Hr.
  repeat split; try lia.
  intros Hev. apply round_half_even in Hev. lia.
Qed.

(** C5 as stated fails for an odd threshold: with [stale: 2001] the
    interval is 1001 ms, more than [2001 / 2]. *)
Lemma effective_options_odd_threshold :
  let o := effective (mkSupplied (Some 2001) None None None) in
  stale o = 2001 /\ update o = 1001 /\ ~ (2 * update o <= stale o).
Proof.
  cbv zeta. split; [reflexivity | split; [reflexivity |]].
  vm_compute. intros H. apply H. reflexivity.
Qed.

(** ** Teardown *)

Lemma teardown_error_not_ENOENT (r : jserr + unit) (e : jserr) :
  teardown_error r = Some e -> is_ENOENT e = false.
Proof.
  destruct r as [err|]; cbn [teardown_error]; [|discriminate].
  destruct (is_ENOENT err) eqn:H; [discriminate|]. intros [= <-]. exact H.
Qed.

Section Teardown.
Context {W : Type} (E : env W).

(** [removeLock] unlinks the uid file, then, unless that failed with
    an error other than ENOENT, removes the directory; its callback
    gets the first error that is not ENOENT. *)
Lemma run_removeLock file cb m w :
  run E (removeLock file cb m) w =
  let a := do_fs E (Unlink (getUidFile file)) w in
  match teardown_error a.1 with
  | Some err => emit (OCall (Unlink (getUidFile file))) (run E (cb (Some err) m) a.2)
  | None =>
    let b := do_fs E (Rmdir (getLockFile file)) a.2 in
    emit (OCall (Unlink (getUidFile file)))
      (emit (OCall (Rmdir (getLockFile file)))
         (run E (cb (teardown_error b.1) m) b.2))
  end.
Proof.
  unfold removeLock. cbn [run]. cbv zeta.
  destruct (do_fs E (Unlink (getUidFile file)) w) as [[e|[]] w1]; cbn [fst snd teardown_error].
  - destruct (is_ENOENT e); cbn [negb run]; [|reflexivity].
    destruct (do_fs E (Rmdir (getLockFile file)) w1) as [[e'|[]] w2];
      cbn [fst snd teardown_error]; [|reflexivity].
    destruct (is_ENOENT e'); reflexivity.
  - cbn [run].
    destruct (do_fs E (Rmdir (getLockFile file)) w1) as [[e'|[]] w2];
      cbn [fst snd teardown_error]; [|reflexivity].
    destruct (is_ENOENT e'); reflexivity.
Qed.

End Teardown.

(** ** The fast local check *)

Lemma count_message_app msg l1 l2 :
  count_message msg (l1 ++ l2)%list = (count_message msg l1 + count_message msg l2)%nat.
Proof. unfold count_message. rewrite filter_app, length_app. reflexivity. Qed.

Lemma count_message_all (e : jserr) (l : list jserr) :
  Forall (eq e) l -> count_message (message e) l = length l.
Proof.
  unfold count_message. induction 1 as [|x l <- _ IH]; [reflexivity|].
  rewrite filter_cons_True by reflexivity. cbn. congruence.
Qed.

Lemma mainError_from_same (e : jserr) (rest seen : list jserr) best bc :
  Forall (eq e) seen -> Forall (eq e) rest -> (bc <= length seen)%nat ->
  mainError_from seen rest best bc =
  match rest with [] => best | _ => Some e end.
Proof.
  revert seen best bc.
  induction rest as [|x rest IH]; intros seen best bc Hs Hr Hbc; [reflexivity|].
  apply Forall_cons in Hr as [<- Hr']. cbn [mainError_from].
  assert (Forall (eq e) (seen ++ [e])%list) as Hs'.
  { apply Forall_app. split; [assumption|]. constructor; [reflexivity|constructor]. }
  rewrite (count_message_all e _ Hs'), length_app. cbn [length].
  destruct (Nat.leb_spec bc (length seen + 1)); [|lia].
  rewrite (IH _ _ _ Hs' Hr') by (rewrite length_app; cbn; lia).
  destruct rest; reflexivity.
Qed.

Section FastFail.
Context {W : Type} (E : env W).

Lemma acquireLock_held fuel file opts cb m h :
  locks m !! file = Some h ->
  acquireLock (S fuel) file opts cb m = cb (inl (ELOCKED file)) m.
Proof. intros H. cbn [acquireLock]. rewrite H. reflexivity. Qed.

Lemma attempt_held timeouts errors file opts comp m h w :
  locks m !! file = Some h ->
  Forall (eq (ELOCKED file)) errors ->
  let o := run E (attempt timeouts errors file opts comp on_lock m) w in
  calls (trace o) = [] /\
  events (trace o) = [LockCb (inl (ELOCKED file))] /\
  result o = Done m.
Proof.
  intros Hh. revert errors w.
  induction timeouts as [|t ts IH]; intros errors w Herr; cbv zeta.
  - cbn [attempt]. rewrite (acquireLock_held _ _ _ _ _ _ Hh).
    unfold mainError. rewrite (mainError_from_same (ELOCKED file)); cycle 1.
    { constructor. }
    { apply Forall_app. split; [assumption|]. constructor; [reflexivity|constructor]. }
    { cbn; lia. }
    destruct errors; cbn; auto.
  - cbn [attempt]. rewrite (acquireLock_held _ _ _ _ _ _ Hh).
    cbn [run emit trace result calls events omap].
    apply IH. apply Forall_app. split; [assumption|].
    constructor; [reflexivity|constructor].
Qed.

End FastFail.

(** C4: [acquireLock] on a path that is in [locks] calls back with
    ELOCKED in the same turn, before any filesystem primitive is
    called: no call is made, the memory and the filesystem stay as they
    are.  The same holds for [lock] on a path whose canonical form
    (taken without the filesystem, [resolve: false]) is in [locks],
    whatever the number of retries. *)
Theorem acquire_registered_fails_fast {W : Type} (E : env W) (w : W)
    (fuel : nat) (file : string) (opts : options) (m : mem) (h : nat) :
  locks m !! file = Some h ->
  (forall cb, acquireLock (S fuel) file opts cb m = cb (inl (ELOCKED file)) m) /\
  run E (acquireLock (S fuel) file opts on_acquire m) w =
    mkOut [OEvent (AcquireCb (inl (ELOCKED file)))] (Done m) w /\
  (forall raw s comp,
     do_normalize E raw = file -> resolve (effective s) = false ->
     let o := run E (lock raw s comp on_lock m) w in
     calls (trace o) = [] /\
     events (trace o) = [LockCb (inl (ELOCKED file))] /\
     result o = Done m).
Proof.
  intros Hh. split; [|split].
  - intros cb. exact (acquireLock_held _ _ _ _ _ _ Hh).
  - rewrite (acquireLock_held _ _ _ _ _ _ Hh). reflexivity.
  - intros raw s comp Hn Hr. unfold lock, canonicalPath. rewrite Hr.
    cbn [negb run]. rewrite Hn.
    apply (attempt_held E _ _ _ _ _ _ _ _ Hh). constructor.
Qed.

(** ** Acquisition *)

(** The recursive call of [acquireLock], made with [stale: 0], is one
    bare attempt whatever fuel is left. *)
Lemma acquireLock_retry_is_once fuel file opts cb m :
  acquireLock (S fuel) file (set_stale 0 opts) cb m = acquire_once file cb m.
Proof. reflexivity. Qed.

Lemma fuelled_run {W : Type} (E : env W) (p : proc) :
  fuelled p -> forall w, result (run E p w) <> Stuck.
Proof.
  induction 1; intros w; cbn [run emit result]; try discriminate; auto.
Qed.

Lemma removeLock_fuelled file cb m :
  (forall r m', fuelled (cb r m')) -> fuelled (removeLock file cb m).
Proof.
  intros Hcb. unfold removeLock. constructor. intros [e|[]] m'.
  - destruct (negb (is_ENOENT e)); [apply Hcb|].
    constructor. intros [e'|[]] m''; [destruct (negb (is_ENOENT e'))|]; apply Hcb.
  - constructor. intros [e'|[]] m''; [destruct (negb (is_ENOENT e'))|]; apply Hcb.
Qed.

Lemma acquire_once_fuelled file cb m :
  (forall r m', fuelled (cb r m')) -> fuelled (acquire_once file cb m).
Proof.
  intros Hcb. unfold acquire_once. destruct (locks m !! file); [apply Hcb|].
  constructor. intros [e|[]] m'; [apply Hcb|].
  constructor. intros u. constructor. intros [e|[]] m''; [|apply Hcb].
  apply removeLock_fuelled. intros _ ?. apply Hcb.
Qed.

(** [acquireLock] returns to its callback on two units of fuel (and on
    any larger amount), whatever the filesystem answers. *)
Theorem acquireLock_total fuel file opts cb m :
  (forall r m', fuelled (cb r m')) ->
  fuelled (acquireLock (S (S fuel)) file opts cb m).
Proof.
  intros Hcb. cbn [acquireLock]. destruct (locks m !! file); [apply Hcb|].
  constructor. intros [e|[]] m'.
  - destruct (stale opts <=? 0); [apply Hcb|].
    constructor. intros [e'|mtime] m''.
    + destruct (is_ENOENT e'); [|apply Hcb].
      change (fuelled (acquire_once file cb m'')).
      apply acquire_once_fuelled, Hcb.
    + constructor. intros now. destruct (mtime >=? now - stale opts); [apply Hcb|].
      apply removeLock_fuelled. intros [err|] m3; [apply Hcb|].
      change (fuelled (acquire_once file cb m3)).
      apply acquire_once_fuelled, Hcb.
  - constructor. intros u. constructor. intros [e|[]] m''; [|apply Hcb].
    apply removeLock_fuelled. intros _ ?. apply Hcb.
Qed.

Section Acquisition.
Context {W : Type} (E : env W).

(** The path of [acquireLock] on which [mkdir] succeeds and the write
    of the token fails, in any environment: the teardown is
    [removeLock], and the callback gets the error of the write
    whatever the teardown reports. *)
Lemma run_acquire_write_failed fuel file opts cb m w w1 u w2 err w3 :
  locks m !! file = None ->
  do_fs E (Mkdir (getLockFile file)) w = (inr tt, w1) ->
  do_uuid E w1 = (u, w2) ->
  do_fs E (WriteFile (getUidFile file) u) w2 = (inl err, w3) ->
  run E (acquireLock (S fuel) file opts cb m) w =
  emit (OCall (Mkdir (getLockFile file)))
    (emit (OCall (WriteFile (getUidFile file) u))
      (let a := do_fs E (Unlink (getUidFile file)) w3 in
       match teardown_error a.1 with
       | Some _ =>
         emit (OCall (Unlink (getUidFile file))) (run E (cb (inl err) m) a.2)
       | None =>
         let b := do_fs E (Rmdir (getLockFile file)) a.2 in
         emit (OCall (Unlink (getUidFile file)))
           (emit (OCall (Rmdir (getLockFile file)))
              (run E (cb (inl err) m) b.2))
       end)).
Proof.
  intros Hl Hmk Hu Hw. cbn [acquireLock]. rewrite Hl.
  rewrite (run_Fs E _ _ _ _ _ _ Hmk). cbn iota beta.
  rewrite (run_UuidV4 E _ _ _ _ Hu).
  rewrite (run_Fs E _ _ _ _ _ _ Hw). cbn iota beta.
  rewrite run_removeLock. reflexivity.
Qed.

(** The same path when the write succeeds. *)
Lemma run_acquire_created fuel file opts cb m w w1 u w2 w3 :
  locks m !! file = None ->
  do_fs E (Mkdir (getLockFile file)) w = (inr tt, w1) ->
  do_uuid E w1 = (u, w2) ->
  do_fs E (WriteFile (getUidFile file) u) w2 = (inr tt, w3) ->
  run E (acquireLock (S fuel) file opts cb m) w =
  emit (OCall (Mkdir (getLockFile file)))
    (emit (OCall (WriteFile (getUidFile file) u))
       (run E (cb (inr u) m) w3)).
Proof.
  intros Hl Hmk Hu Hw. cbn [acquireLock]. rewrite Hl.
  rewrite (run_Fs E _ _ _ _ _ _ Hmk). cbn iota beta.
  rewrite (run_UuidV4 E _ _ _ _ Hu).
  rewrite (run_Fs E _ _ _ _ _ _ Hw). reflexivity.
Qed.

End Acquisition.

(** C1 (amended): in a contended acquisition with a positive threshold
    in which [stat] of the lock directory succeeds, the call fails with
    ELOCKED when [now - mtime <= stale] (a lock whose age equals the
    threshold is still fresh); when [now - mtime > stale] the uid file
    is unlinked and then the directory removed, not-found errors
    ignored; another error of the removal is passed to the callback and
    nothing is retried; otherwise the acquisition is retried once, as a
    bare attempt without staleness check. *)
Theorem contended_acquisition_staleness {W : Type} (E : env W) (w : W)
    (fuel : nat) (file : string) (opts : options)
    (cb : jserr + list N -> mem -> proc) (m : mem)
    (e : jserr) (w1 : W) (mtime : Z) (w2 : W) (now : Z) (w3 : W) :
  locks m !! file = None ->
  do_fs E (Mkdir (getLockFile file)) w = (inl e, w1) ->
  0 < stale opts ->
  do_fs E (Stat (getLockFile file)) w1 = (inr mtime, w2) ->
  do_now E w2 = (now, w3) ->
  (now - mtime <= stale opts ->
   run E (acquireLock (S (S fuel)) file opts cb m) w =
   emit (OCall (Mkdir (getLockFile file)))
     (emit (OCall (Stat (getLockFile file)))
        (run E (cb (inl (ELOCKED file)) m) w3))) /\
  (stale opts < now - mtime ->
   run E (acquireLock (S (S fuel)) file opts cb m) w =
   emit (OCall (Mkdir (getLockFile file)))
     (emit (OCall (Stat (getLockFile file)))
        (let a := do_fs E (Unlink (getUidFile file)) w3 in
         match teardown_error a.1 with
         | Some err =>
           emit (OCall (Unlink (getUidFile file))) (run E (cb (inl err) m) a.2)
         | None =>
           let b := do_fs E (Rmdir (getLockFile file)) a.2 in
           emit (OCall (Unlink (getUidFile file)))
             (emit (OCall (Rmdir (getLockFile file)))
                (match teardown_error b.1 with
                 | Some err => run E (cb (inl err) m) b.2
                 | None => run E (acquire_once file cb m) b.2
                 end))
         end))).
Proof.
  intros Hl Hmk Hst Hstat Hnow.
  assert (run E (acquireLock (S (S fuel)) file opts cb m) w =
          emit (OCall (Mkdir (getLockFile file)))
            (emit (OCall (Stat (getLockFile file)))
               (if mtime >=? now - stale opts
                then run E (cb (inl (ELOCKED file)) m) w3
                else run E (removeLock file (fun r m' =>
                       match r with
                       | Some err => cb (inl err) m'
                       | None => acquire_once file cb m'
                       end) m) w3))) as Hrun.
  { cbn [acquireLock]. rewrite Hl.
    rewrite (run_Fs E _ _ _ _ _ _ Hmk). cbn iota beta.
    destruct (Z.leb_spec (stale opts) 0) as [?|_]; [lia|].
    rewrite (run_Fs E _ _ _ _ _ _ Hstat). cbn iota beta.
    rewrite (run_Now E _ _ _ _ Hnow).
    destruct (mtime >=? now - stale opts); reflexivity. }
  split; intros Hage; rewrite Hrun.
  - destruct (Z.geb_spec mtime (now - stale opts)); [reflexivity|lia].
  - destruct (Z.geb_spec mtime (now - stale opts)); [lia|].
    rewrite run_removeLock. cbv zeta.
    destruct (teardown_error _); [reflexivity|].
    destruct (teardown_error _); reflexivity.
Qed.

(** ** Release and renewal *)

Lemma release_mem_heap file h l m :
  heap (release_mem file h l m) !! h = Some (set_released true l).
Proof.
  unfold release_mem, set_locks, store, set_heap. cbn [heap].
  apply lookup_insert_eq.
Qed.

Lemma release_mem_locks file h l m :
  locks (release_mem file h l m) !! file = None.
Proof. unfold release_mem, set_locks. cbn [locks]. apply lookup_delete_eq. Qed.

Lemma release_mem_timers file h l m t :
  updateTimeout l = Some t -> timers (release_mem file h l m) !! t = None.
Proof.
  intros Ht. unfold release_mem. rewrite Ht.
  unfold set_locks, store, set_heap, clearTimeout, set_timers.
  cbn [timers]. apply lookup_delete_eq.
Qed.

Lemma release_mem_timers_sub file h l m t :
  timers m !! t = None -> timers (release_mem file h l m) !! t = None.
Proof.
  intros Ht. unfold release_mem, set_locks, store, set_heap. cbn [timers].
  destruct (updateTimeout l) as [t'|]; [|assumption].
  unfold clearTimeout, set_timers. cbn [timers].
  rewrite lookup_delete. case_decide; [reflexivity|assumption].
Qed.

Section Release.
Context {W : Type} (E : env W).

Lemma run_unlock_held file cb m h l w :
  do_normalize E file = file ->
  locks m !! file = Some h ->
  heap m !! h = Some l ->
  run E (unlock file false cb m) w =
  run E (removeLock file cb (release_mem file h l m)) w.
Proof.
  intros Hn Hl Hh. unfold unlock, canonicalPath. cbn [negb run].
  rewrite Hn, Hl, Hh. reflexivity.
Qed.

(** A released handle: its release function reports ERELEASED in the
    same turn and calls nothing. *)
Lemma release_released r cb m l :
  heap m !! r_lock r = Some l -> released l = true ->
  release r cb m = cb (Some ERELEASED) m.
Proof. intros Hh Hr. unfold release. rewrite Hh, Hr. reflexivity. Qed.

Lemma run_release_held r cb m l w :
  do_normalize E (r_file r) = r_file r ->
  locks m !! r_file r = Some (r_lock r) ->
  heap m !! r_lock r = Some l -> released l = false ->
  run E (release r cb m) w =
  run E (removeLock (r_file r) cb (release_mem (r_file r) (r_lock r) l m)) w.
Proof.
  intros Hn Hl Hh Hr. unfold release. rewrite Hh, Hr.
  apply run_unlock_held; assumption.
Qed.

Lemma run_call_compromised h err m l w :
  heap m !! h = Some l ->
  run E (call_compromised h err m) w =
  mkOut [OEvent (Compromised h err)]
        (match compromised l with
         | UserHandler => Done m
         | DefaultThrow => Crashed err m
         end) w.
Proof.
  intros Hh. unfold call_compromised. rewrite Hh.
  destruct (compromised l); reflexivity.
Qed.

(** A tick that finds its lock object released does nothing. *)
Lemma tick_done_released file opts h res m l :
  heap m !! h = Some l -> released l = true ->
  tick_done file opts h res m = Ret m.
Proof. intros Hh Hr. unfold tick_done. rewrite Hh, Hr. reflexivity. Qed.

(** The tick whose answers arrive within the threshold, both
    successful, with a content that is not the token. *)
Lemma run_tick_done_mismatch file opts h data u m l now w w1 :
  heap m !! h = Some l -> released l = false ->
  do_now E w = (now, w1) ->
  now - stale opts < lastUpdate l ->
  trim data <> uid l ->
  run E (tick_done file opts h (inr (data, u)) m) w =
  let m' := set_locks (delete file) (store h (set_released true l) m) in
  mkOut [OEvent (Compromised h EMISMATCH)]
        (match compromised l with
         | UserHandler => Done m'
         | DefaultThrow => Crashed EMISMATCH m'
         end) w1.
Proof.
  intros Hh Hr Hnow Hfresh Hne. unfold tick_done. rewrite Hh, Hr.
  rewrite (run_Now E _ _ _ _ Hnow).
  destruct (Z.leb_spec (lastUpdate l) (now - stale opts)); [lia|].
  rewrite bool_decide_eq_false_2 by assumption. cbn [negb]. cbv zeta.
  erewrite run_call_compromised.
  2:{ unfold set_locks, store, set_heap. cbn [heap]. apply lookup_insert_eq. }
  reflexivity.
Qed.

(** The tick whose answers arrive when the last renewal is a full
    threshold old. *)
Lemma run_tick_done_overdue file opts h res m l now w w1 :
  heap m !! h = Some l -> released l = false ->
  locks m !! file = Some h -> do_normalize E file = file ->
  do_now E w = (now, w1) ->
  lastUpdate l <= now - stale opts ->
  run E (tick_done file opts h res m) w =
  let m' := release_mem file h l m in
  let err := default EUPDATE (updateError l) in
  let fin := mkOut [OEvent (Compromised h err)]
               (match compromised l with
                | UserHandler => Done m'
                | DefaultThrow => Crashed err m'
                end) in
  let a := do_fs E (Unlink (getUidFile file)) w1 in
  match teardown_error a.1 with
  | Some _ => emit (OCall (Unlink (getUidFile file))) (fin a.2)
  | None =>
    let b := do_fs E (Rmdir (getLockFile file)) a.2 in
    emit (OCall (Unlink (getUidFile file)))
      (emit (OCall (Rmdir (getLockFile file))) (fin b.2))
  end.
Proof.
  intros Hh Hr Hl Hn Hnow Hover. unfold tick_done. rewrite Hh, Hr.
  rewrite (run_Now E _ _ _ _ Hnow).
  destruct (Z.leb_spec (lastUpdate l) (now - stale opts)); [|lia].
  rewrite (run_unlock_held _ _ _ _ _ _ Hn Hl Hh).
  rewrite run_removeLock. cbv zeta.
  rewrite !release_mem_heap.
  destruct (teardown_error _).
  - erewrite run_call_compromised by apply release_mem_heap. reflexivity.
  - erewrite run_call_compromised by apply release_mem_heap. reflexivity.
Qed.

End Release.

Section Renewal.
Context {W : Type} (E : env W).

Lemma run_Par m c1 c2 k w r1 w1 r2 w2 b w3 :
  do_fs E c1 w = (r1, w1) -> do_fs E c2 w1 = (r2, w2) ->
  do_order E w2 = (b, w3) ->
  run E (Par m c1 c2 k) w =
  emit (OCall c1) (emit (OCall c2) (run E (k (async_parallel r1 r2 b) m) w3)).
Proof.
  intros H1 H2 H3. cbn [run]. cbv zeta. rewrite H1. cbn [fst snd].
  rewrite H2. cbn [fst snd]. rewrite H3. reflexivity.
Qed.

(** The closure of the timer up to the callback of [async.parallel]. *)
Lemma run_tick file opts h m l w t0 w1 r1 w2 r2 w3 b w4 :
  heap m !! h = Some l ->
  do_now E w = (t0, w1) ->
  do_fs E (ReadFile (getUidFile file)) w1 = (r1, w2) ->
  do_fs E (Utimes (getLockFile file) t0 t0) w2 = (r2, w3) ->
  do_order E w3 = (b, w4) ->
  run E (tick file opts h m) w =
  emit (OCall (ReadFile (getUidFile file)))
    (emit (OCall (Utimes (getLockFile file) t0 t0))
       (run E (tick_done file opts h (async_parallel r1 r2 b)
                 (store h (set_updateTimeout None l) m)) w4)).
Proof.
  intros Hh Hnow H1 H2 H3. unfold tick.
  rewrite (run_Now E _ _ _ _ Hnow). rewrite Hh.
  apply (run_Par _ _ _ _ _ _ _ _ _ _ _ H1 H2 H3).
Qed.

End Renewal.

(** C2 (amended): in a renewal tick on a handle that is not released,
    whose read of the uid file and update of the mtime both succeed and
    whose answers arrive while the last successful renewal is less than
    the staleness threshold old, a content that (trimmed) is not the
    handle's token marks the handle released, removes its entry from
    [locks] and calls the compromise callback with EMISMATCH; nothing
    is rescheduled and the artifact is not touched. *)
Theorem tick_uid_mismatch {W : Type} (E : env W) (w : W)
    (file : string) (opts : options) (h : nat) (m : mem) (l : lockobj)
    (t0 : Z) (w1 : W) (data : list N) (w2 w3 : W) (b : bool) (w4 : W)
    (now : Z) (w5 : W) :
  heap m !! h = Some l -> released l = false ->
  do_now E w = (t0, w1) ->
  do_fs E (ReadFile (getUidFile file)) w1 = (inr data, w2) ->
  do_fs E (Utimes (getLockFile file) t0 t0) w2 = (inr tt, w3) ->
  do_order E w3 = (b, w4) ->
  do_now E w4 = (now, w5) ->
  now - stale opts < lastUpdate l ->
  trim data <> uid l ->
  let o := run E (tick file opts h m) w in
  let l' := set_released true (set_updateTimeout None l) in
  let m' := set_locks (delete file) (store h l' m) in
  events (trace o) = [Compromised h EMISMATCH] /\
  calls (trace o) =
    [ReadFile (getUidFile file); Utimes (getLockFile file) t0 t0] /\
  result o = (match compromised l with
              | UserHandler => Done m'
              | DefaultThrow => Crashed EMISMATCH m'
              end) /\
  heap m' !! h = Some l' /\ released l' = true /\
  locks m' !! file = None /\ timers m' = timers m.
Proof.
  intros Hh Hr Hnow0 Hread Hut Hord Hnow Hfresh Hne. cbv zeta.
  rewrite (run_tick E _ _ _ _ _ _ _ _ _ _ _ _ _ _ Hh Hnow0 Hread Hut Hord).
  cbn [async_parallel].
  erewrite (run_tick_done_mismatch E file opts h data tt _
              (set_updateTimeout None l) now w4 w5); cycle 1.
  { unfold store, set_heap. cbn [heap]. apply lookup_insert_eq. }
  { exact Hr. }
  { exact Hnow. }
  { exact Hfresh. }
  { exact Hne. }
  cbv zeta. cbn [emit trace result events calls omap compromised set_updateTimeout].
  repeat split.
  - destruct (compromised l); unfold store, set_heap, set_locks; cbn;
      rewrite insert_insert_eq; reflexivity.
  - unfold set_locks, store, set_heap. cbn [heap]. apply lookup_insert_eq.
  - unfold set_locks. cbn [locks]. apply lookup_delete_eq.
Qed.

(** C9 (amended): when the answers of a tick of a handle that is not
    released and is the entry that [locks] holds for its path arrive
    and the last successful renewal is a full staleness threshold old
    or older, then whatever the tick's own filesystem operations
    returned the handle is released locally (timer cleared, marked released, removed from
    [locks], uid file and directory removed as far as they can be, the
    errors of that removal ignored) and the compromise callback is
    called once: with the error remembered from an earlier failed tick
    if there is one, with EUPDATE ("update timeout") otherwise. *)
Theorem overdue_tick_compromises {W : Type} (E : env W) (w : W)
    (file : string) (opts : options) (h : nat)
    (res : jserr + list N * unit) (m : mem) (l : lockobj)
    (now : Z) (w1 : W) :
  heap m !! h = Some l -> released l = false ->
  locks m !! file = Some h -> do_normalize E file = file ->
  do_now E w = (now, w1) ->
  lastUpdate l <= now - stale opts ->
  let o := run E (tick_done file opts h res m) w in
  let m' := release_mem file h l m in
  let err := match updateError l with Some e => e | None => EUPDATE end in
  events (trace o) = [Compromised h err] /\
  result o = (match compromised l with
              | UserHandler => Done m'
              | DefaultThrow => Crashed err m'
              end) /\
  (calls (trace o) = [Unlink (getUidFile file)] \/
   calls (trace o) = [Unlink (getUidFile file); Rmdir (getLockFile file)]) /\
  heap m' !! h = Some (set_released true l) /\
  locks m' !! file = None /\
  (forall t, updateTimeout l = Some t -> timers m' !! t = None).
Proof.
  intros Hh Hr Hl Hn Hnow Hover. cbv zeta.
  rewrite (run_tick_done_overdue E _ _ _ res _ _ _ _ _ Hh Hr Hl Hn Hnow Hover).
  cbv zeta.
  assert (default EUPDATE (updateError l) =
          match updateError l with Some e => e | None => EUPDATE end) as ->
    by (destruct (updateError l); reflexivity).
  destruct (teardown_error _);
    cbn [emit trace result events calls omap];
    (split; [reflexivity|]); (split; [reflexivity|]);
    (split; [auto|]);
    (split; [apply release_mem_heap|]);
    (split; [apply release_mem_locks|]);
    intros t Ht; apply release_mem_timers; assumption.
Qed.

(** C6 (amended): releasing a handle that is not released and is the
    entry that [locks] holds for its path clears its pending renewal
    timer in the turn of the call, so that the timer cannot fire
    afterwards, and marks it released; and a tick whose answers
    arrive once the handle is marked released returns at once: it
    calls nothing, notifies nobody, arms no timer and leaves [locks]
    and the rest of the memory as they are.  The release itself
    notifies only its own callback.  (The release function acts on the
    entry that [locks] holds for the path, line 229: a live handle
    that is not that entry keeps its timer.) *)
Theorem released_handle_is_quiet {W : Type} (E : env W) (w : W)
    (r : releaser) (m : mem) (l : lockobj) :
  do_normalize E (r_file r) = r_file r ->
  locks m !! r_file r = Some (r_lock r) ->
  heap m !! r_lock r = Some l -> released l = false ->
  let o := run E (release r on_released m) w in
  let m' := release_mem (r_file r) (r_lock r) l m in
  result o = Done m' /\
  (exists x, events (trace o) = [ReleasedCb x]) /\
  (forall t, updateTimeout l = Some t ->
     timers m' !! t = None /\ fire t m' = Ret m') /\
  (forall file opts res w2,
     run E (tick_done file opts (r_lock r) res m') w2 = mkOut [] (Done m') w2) /\
  (forall file opts res m2 l2 w2,
     heap m2 !! r_lock r = Some l2 -> released l2 = true ->
     run E (tick_done file opts (r_lock r) res m2) w2 = mkOut [] (Done m2) w2).
Proof.
  intros Hn Hl Hh Hr. cbv zeta.
  rewrite (run_release_held E _ _ _ _ _ Hn Hl Hh Hr), run_removeLock. cbv zeta.
  assert (forall file opts res m2 l2 w2,
            heap m2 !! r_lock r = Some l2 -> released l2 = true ->
            run E (tick_done file opts (r_lock r) res m2) w2 =
            mkOut [] (Done m2) w2) as Hquiet.
  { intros file opts res m2 l2 w2 Hh2 Hr2.
    rewrite (tick_done_released file opts _ res _ _ Hh2 Hr2). reflexivity. }
  split; [|split; [|split; [|split]]].
  - destruct (teardown_error _); reflexivity.
  - destruct (teardown_error _); eexists; reflexivity.
  - intros t Ht.
    pose proof (release_mem_timers (r_file r) (r_lock r) l m t Ht) as Hgone.
    split; [exact Hgone|]. unfold fire. rewrite Hgone. reflexivity.
  - intros file opts res w2.
    apply (Hquiet _ _ _ _ (set_released true l)); [apply release_mem_heap|reflexivity].
  - exact Hquiet.
Qed.

(** C10: once a tick has called the compromise callback for a uid
    mismatch, the release function of that handle reports ERELEASED in
    the turn of the call and calls no filesystem primitive: the
    artifact, now another party's, is not torn down.  This holds in the
    memory the tick left and in every memory in which the handle is
    marked released ([released_is_stable]: every later one).  The
    standalone [unlock] of the path reports ENOTACQUIRED, again without
    any filesystem call. *)
Theorem release_after_mismatch {W : Type} (E : env W) (w : W)
    (file : string) (opts : options) (h : nat) (data : list N)
    (m : mem) (l : lockobj) (now : Z) (w1 : W) :
  heap m !! h = Some l -> released l = false ->
  do_now E w = (now, w1) ->
  now - stale opts < lastUpdate l ->
  trim data <> uid l ->
  let o := run E (tick_done file opts h (inr (data, tt)) m) w in
  let m' := set_locks (delete file) (store h (set_released true l) m) in
  events (trace o) = [Compromised h EMISMATCH] /\
  (result o = Done m' \/ result o = Crashed EMISMATCH m') /\
  (forall ropts w2,
     run E (release (mkReleaser file ropts h) on_released m') w2 =
     mkOut [OEvent (ReleasedCb (Some ERELEASED))] (Done m') w2) /\
  (forall ropts m2 l2 w2,
     heap m2 !! h = Some l2 -> released l2 = true ->
     run E (release (mkReleaser file ropts h) on_released m2) w2 =
     mkOut [OEvent (ReleasedCb (Some ERELEASED))] (Done m2) w2) /\
  (forall w2,
     do_normalize E file = file ->
     run E (unlock file false on_released m') w2 =
     mkOut [OEvent (ReleasedCb (Some ENOTACQUIRED))] (Done m') w2).
Proof.
  intros Hh Hr Hnow Hfresh Hne. cbv zeta.
  rewrite (run_tick_done_mismatch E _ _ _ _ _ _ _ _ _ _ Hh Hr Hnow Hfresh Hne).
  cbv zeta. cbn [trace result events omap].
  assert (forall ropts m2 l2 w2,
            heap m2 !! h = Some l2 -> released l2 = true ->
            run E (release (mkReleaser file ropts h) on_released m2) w2 =
            mkOut [OEvent (ReleasedCb (Some ERELEASED))] (Done m2) w2) as Hrel.
  { intros ropts m2 l2 w2 Hh2 Hr2.
    rewrite (release_released (mkReleaser file ropts h) on_released m2 l2 Hh2 Hr2).
    reflexivity. }
  split; [reflexivity|]. split; [destruct (compromised l); auto|].
  split; [|split; [exact Hrel|]].
  - intros ropts w2. apply (Hrel _ _ (set_released true l)); [|reflexivity].
    unfold set_locks, store, set_heap. cbn [heap]. apply lookup_insert_eq.
  - intros w2 Hn. unfold unlock, canonicalPath. cbn [negb run]. rewrite Hn.
    unfold set_locks at 1. cbn [locks]. rewrite lookup_delete_eq. reflexivity.
Qed.

(** ** On the filesystem model *)

Module PosixFacts.
Import PosixFs.

Lemma prefix_sep_self (s : string) : String.prefix (s +:+ "/") s = false.
Proof.
  induction s as [|c s IH]; [reflexivity|].
  change (String c s +:+ "/") with (String c (s +:+ "/")).
  cbn [String.prefix]. destruct (Ascii.ascii_dec c c); [exact IH|reflexivity].
Qed.

Lemma prefix_app (s t : string) : String.prefix s (s +:+ t) = true.
Proof.
  induction s as [|c s IH]; [destruct t; reflexivity|].
  change (String c s +:+ t) with (String c (s +:+ t)).
  cbn [String.prefix]. destruct (Ascii.ascii_dec c c); [exact IH|congruence].
Qed.

Lemma append_assoc (a b c : string) : (a +:+ b) +:+ c = a +:+ (b +:+ c).
Proof.
  induction a as [|x a IH]; [reflexivity|].
  change ((String x a +:+ b) +:+ c) with (String x ((a +:+ b) +:+ c)).
  rewrite IH. reflexivity.
Qed.

Lemma prefix_lock_uid (file : string) :
  String.prefix (getLockFile file +:+ "/") (getUidFile file) = true.
Proof.
  unfold getUidFile.
  change "/.uid" with ("/" +:+ ".uid"). rewrite <- append_assoc.
  apply prefix_app.
Qed.

Lemma uid_neq_lock (file : string) : getUidFile file <> getLockFile file.
Proof.
  intros Heq. pose proof (prefix_lock_uid file) as H.
  rewrite Heq, prefix_sep_self in H. discriminate.
Qed.

Lemma parent_uid (s : string) : parent (s +:+ "/.uid") = Some s.
Proof.
  induction s as [|c s IH]; [reflexivity|].
  change (String c s +:+ "/.uid") with (String c (s +:+ "/.uid")).
  cbn [parent]. rewrite IH. reflexivity.
Qed.

Lemma lock_nonempty (file : string) : getLockFile file <> EmptyString.
Proof. unfold getLockFile. destruct file; discriminate. Qed.

(** With the lock directory in place the uid file can be created. *)
Lemma parent_error_uid (f : gmap string node) (file : string) (t : Z) :
  f !! getLockFile file = Some (Dir t) ->
  parent_error f (getUidFile file) = None.
Proof.
  intros H. unfold parent_error, getUidFile. rewrite parent_uid.
  pose proof (lock_nonempty file) as Hne.
  destruct (getLockFile file) eqn:Hl; [congruence|].
  rewrite H. reflexivity.
Qed.

Lemma with_fs_same (w : world) : with_fs (fs w) w = w.
Proof. destruct w; reflexivity. Qed.

Lemma no_artifact_uid (f : gmap string node) (file : string) :
  no_artifact f file -> f !! getUidFile file = None.
Proof.
  intros [_ Hall]. destruct (f !! getUidFile file) eqn:Hu; [|reflexivity].
  apply Hall in Hu. rewrite prefix_lock_uid in Hu. discriminate.
Qed.

(** [removeLock] on a well-formed artifact, on the filesystem model:
    both calls are made, the callback gets no error, and neither the
    uid file nor the directory is there afterwards. *)
Lemma posix_removeLock (w : world) (file : string) cb (m : mem) :
  artifact_wf (fs w) file ->
  run E (removeLock file cb m) w =
  emit (OCall (Unlink (getUidFile file)))
    (emit (OCall (Rmdir (getLockFile file)))
       (run E (cb None m)
          (with_fs (delete (getLockFile file) (delete (getUidFile file) (fs w))) w))).
Proof.
  intros (Huid & Hlock & Hrest). rewrite run_removeLock. cbv zeta.
  cbn [do_fs E].
  assert (exists r1, posix (Unlink (getUidFile file)) w =
              (r1, with_fs (delete (getUidFile file) (fs w)) w) /\
            teardown_error r1 = None) as (r1 & Hc1 & Ht1).
  { unfold posix.
    destruct (fs w !! getUidFile file) as [[t|t d]|] eqn:Hu.
    - exfalso. exact (Huid t eq_refl).
    - eexists. split; reflexivity.
    - eexists. rewrite delete_id by assumption. rewrite with_fs_same.
      split; reflexivity. }
  rewrite Hc1. cbn [fst snd]. rewrite Ht1.
  set (w1 := with_fs (delete (getUidFile file) (fs w)) w).
  assert (exists r2, posix (Rmdir (getLockFile file)) w1 =
              (r2, with_fs (delete (getLockFile file)
                              (delete (getUidFile file) (fs w))) w) /\
            teardown_error r2 = None) as (r2 & Hc2 & Ht2).
  { unfold posix. cbn [fs w1 with_fs].
    destruct (delete (getUidFile file) (fs w) !! getLockFile file)
      as [[t|t d]|] eqn:Hl.
    - unfold is_empty_dir. rewrite bool_decide_eq_true_2.
      + eexists. split; reflexivity.
      + intros q n Hq.
        destruct (String.prefix (getLockFile file +:+ "/") q) eqn:Hp;
          [|reflexivity].
        rewrite lookup_delete in Hq. case_decide as Hd; [discriminate|].
        exfalso. apply Hd. symmetry. exact (Hrest q n Hq Hp).
    - exfalso. rewrite lookup_delete_ne in Hl by apply uid_neq_lock.
      exact (Hlock t d Hl).
    - eexists. rewrite (delete_id _ (getLockFile file)) by assumption.
      split; [unfold w1; destruct w; reflexivity|reflexivity]. }
  rewrite Hc2. cbn [fst snd]. rewrite Ht2. reflexivity.
Qed.

End PosixFacts.

(** ** Release and the round trip on the filesystem model *)

Section OnDisk.
Import PosixFs PosixFacts.

Lemma next_uuid_with_fs (f : gmap string node) (w : world) :
  next_uuid (with_fs f w) = ((next_uuid w).1, with_fs f (next_uuid w).2).
Proof.
  unfold next_uuid, with_fs. cbn [uuids].
  destruct (uuids w) eqn:Hu; cbn; rewrite ?Hu; reflexivity.
Qed.

Lemma next_uuid_fs (w : world) : fs (next_uuid w).2 = fs w.
Proof. unfold next_uuid. destruct (uuids w); reflexivity. Qed.

Lemma next_uuid_clock (w : world) : clock (next_uuid w).2 = clock w.
Proof. unfold next_uuid. destruct (uuids w); reflexivity. Qed.

Lemma with_artifact_wf file t u f :
  no_artifact f file -> artifact_wf (with_artifact file t u f) file.
Proof.
  intros [Hl Hall]. unfold with_artifact. split; [|split].
  - intros t'. rewrite lookup_insert_eq. discriminate.
  - intros t' d. rewrite lookup_insert_ne by apply uid_neq_lock.
    rewrite lookup_insert_eq. discriminate.
  - intros q n Hq Hp.
    destruct (decide (getUidFile file = q)) as [|Hne]; [congruence|].
    rewrite lookup_insert_ne in Hq by assumption.
    rewrite lookup_insert in Hq. case_decide as Hd.
    + subst q. rewrite prefix_sep_self in Hp. discriminate.
    + apply Hall in Hq. congruence.
Qed.

Lemma with_artifact_removed file t u f :
  no_artifact f file ->
  delete (getLockFile file) (delete (getUidFile file) (with_artifact file t u f)) = f.
Proof.
  intros Hno. pose proof (no_artifact_uid f file Hno) as Hu.
  destruct Hno as [Hl _]. unfold with_artifact.
  rewrite delete_insert_eq.
  rewrite (delete_id _ (getUidFile file)).
  2:{ rewrite lookup_insert_ne by (intros H; symmetry in H; exact (uid_neq_lock _ H)).
      exact Hu. }
  rewrite delete_insert_eq. apply delete_id. exact Hl.
Qed.

(** An acquisition where nothing stands in the way. *)
Lemma posix_acquire_fresh (w : world) fuel file opts cb (m : mem) :
  no_artifact (fs w) file ->
  locks m !! file = None ->
  parent_error (fs w) (getLockFile file) = None ->
  run E (acquireLock (S fuel) file opts cb m) w =
  let u := (next_uuid w).1 in
  emit (OCall (Mkdir (getLockFile file)))
    (emit (OCall (WriteFile (getUidFile file) u))
       (run E (cb (inr u) m)
          (with_fs (with_artifact file (clock w) u (fs w)) (next_uuid w).2))).
Proof.
  intros Hno Hl Hp. cbv zeta.
  pose proof (no_artifact_uid _ _ Hno) as Hu. destruct Hno as [Hlk _].
  apply (run_acquire_created E fuel file opts cb m w
           (with_fs (<[getLockFile file := Dir (clock w)]> (fs w)) w)
           (next_uuid w).1
           (with_fs (<[getLockFile file := Dir (clock w)]> (fs w)) (next_uuid w).2)).
  - exact Hl.
  - cbn [do_fs E]. unfold posix. rewrite Hlk, Hp. reflexivity.
  - cbn [do_uuid E]. apply next_uuid_with_fs.
  - cbn [do_fs E]. unfold posix. cbn [fs with_fs].
    rewrite lookup_insert_ne by (intros H; symmetry in H; exact (uid_neq_lock _ H)).
    rewrite Hu.
    rewrite (parent_error_uid _ file (clock w)) by apply lookup_insert_eq.
    unfold with_artifact. cbn [clock with_fs]. rewrite next_uuid_clock.
    destruct (next_uuid w).2; reflexivity.
Qed.

End OnDisk.

Lemma calls_emit_call {W : Type} (c : fscall) (o : outcome W) :
  calls (trace (emit (OCall c) o)) = c :: calls (trace o).
Proof. reflexivity. Qed.

Lemma events_emit_call {W : Type} (c : fscall) (o : outcome W) :
  events (trace (emit (OCall c) o)) = events (trace o).
Proof. reflexivity. Qed.

Section RoundTrip.
Import PosixFs PosixFacts.

(** The memory after [acquired] and the release that follows at
    once, from memory [m]: the heap keeps the lock object, released;
    [locks] is as before. *)
Lemma run_acquired_release {W : Type} (E' : env W) file opts comp u m w now w1 :
  do_now E' w = (now, w1) ->
  do_normalize E' file = file ->
  locks m !! file = None ->
  exists m',
    locks m' = locks m /\ timers m' !! next_timer m = None /\
    (exists l, heap m' !! next_addr m = Some l /\ released l = true /\ uid l = u) /\
    run E' (acquired file opts comp release_at_once u m) w =
    run E' (removeLock file on_released m') w1.
Proof.
  intros Hnow Hn Hl. unfold acquired.
  rewrite (run_Now E' _ _ _ _ Hnow). cbv zeta.
  unfold updateLock. cbn [locks heap]. rewrite !lookup_insert_eq.
  unfold setTimeout. cbn [next_timer locks heap timers next_addr].
  unfold release_at_once.
  set (l1 := set_updateTimeout _ _).
  set (m2 := store _ l1 _).
  assert (heap m2 !! next_addr m = Some l1) as Hh2
    by (unfold m2, store, set_heap; cbn [heap]; apply lookup_insert_eq).
  assert (locks m2 !! file = Some (next_addr m)) as Hl2
    by (unfold m2, store, set_heap; cbn [locks]; apply lookup_insert_eq).
  rewrite (run_release_held E' (mkReleaser file opts (next_addr m)) on_released
             m2 l1 w1 Hn Hl2 Hh2 eq_refl).
  cbn [r_file r_lock].
  eexists. split; [|split; [|split; [|reflexivity]]].
  - unfold release_mem, set_locks, store, set_heap. cbn [locks].
    unfold m2, store, set_heap. cbn [locks updateTimeout l1 set_updateTimeout].
    unfold clearTimeout, set_timers. cbn [locks].
    rewrite delete_insert_eq. apply delete_id. exact Hl.
  - apply release_mem_timers. reflexivity.
  - eexists. split; [apply release_mem_heap|]. split; reflexivity.
Qed.

(** C7 (amended): the first call of the release function of a handle
    that is not released and is the entry that [locks] holds for its
    path marks the handle released and tears the artifact down; it
    reports success unless the unlink or the rmdir of the teardown
    fails with an error other than not-found, which it then reports
    (in any environment).  On the filesystem model, with a well-formed
    artifact (a lock directory that holds nothing but the uid file), it
    reports success and leaves neither the uid file nor the lock
    directory.  In every case each later call reports ERELEASED in the
    turn of the call, without any filesystem call and without a change
    to the filesystem. *)
Theorem release_is_idempotent {W : Type} (E' : env W) (w : W)
    (r : releaser) (m : mem) (l : lockobj) :
  do_normalize E' (r_file r) = r_file r ->
  locks m !! r_file r = Some (r_lock r) ->
  heap m !! r_lock r = Some l -> released l = false ->
  let o := run E' (release r on_released m) w in
  let m' := release_mem (r_file r) (r_lock r) l m in
  let a := do_fs E' (Unlink (getUidFile (r_file r))) w in
  let b := do_fs E' (Rmdir (getLockFile (r_file r))) a.2 in
  result o = Done m' /\
  heap m' !! r_lock r = Some (set_released true l) /\
  events (trace o) =
    [ReleasedCb (match teardown_error a.1 with
                 | Some e => Some e
                 | None => teardown_error b.1
                 end)] /\
  (forall v : world,
     artifact_wf (fs v) (r_file r) ->
     let o' := run E (release r on_released m) v in
     trace o' = [OCall (Unlink (getUidFile (r_file r)));
                 OCall (Rmdir (getLockFile (r_file r)));
                 OEvent (ReleasedCb None)] /\
     fs (after o') !! getLockFile (r_file r) = None /\
     fs (after o') !! getUidFile (r_file r) = None) /\
  (forall w2,
     run E' (release r on_released m') w2 =
     mkOut [OEvent (ReleasedCb (Some ERELEASED))] (Done m') w2) /\
  (forall m2 l2 w2,
     heap m2 !! r_lock r = Some l2 -> released l2 = true ->
     run E' (release r on_released m2) w2 =
     mkOut [OEvent (ReleasedCb (Some ERELEASED))] (Done m2) w2).
Proof.
  intros Hn Hl Hh Hr. cbv zeta.
  rewrite (run_release_held E' r on_released m l w Hn Hl Hh Hr).
  assert (forall m2 l2 w2,
            heap m2 !! r_lock r = Some l2 -> released l2 = true ->
            run E' (release r on_released m2) w2 =
            mkOut [OEvent (ReleasedCb (Some ERELEASED))] (Done m2) w2) as Hagain.
  { intros m2 l2 w2 Hh2 Hr2.
    rewrite (release_released r on_released m2 l2 Hh2 Hr2). reflexivity. }
  split; [|split; [|split; [|split; [|split]]]].
  - rewrite run_removeLock. cbv zeta. destruct (teardown_error _); reflexivity.
  - apply release_mem_heap.
  - rewrite run_removeLock. cbv zeta. destruct (teardown_error _); reflexivity.
  - intros v Hwf. cbv zeta.
    rewrite (run_release_held E r on_released m l v eq_refl Hl Hh Hr).
    rewrite (posix_removeLock _ _ _ _ Hwf).
    cbn [run on_released emit trace result after fs with_fs].
    split; [reflexivity|]. split.
    + apply lookup_delete_eq.
    + rewrite lookup_delete_ne by (intros H; symmetry in H; exact (uid_neq_lock _ H)).
      apply lookup_delete_eq.
  - intros w2. apply (Hagain _ (set_released true l));
      [apply release_mem_heap|reflexivity].
  - exact Hagain.
Qed.

(** An acquisition that cannot create the lock directory because the
    directory above it is missing: [mkdir] fails, [stat] finds
    nothing, the bare retry fails again. *)
Lemma posix_acquire_blocked (w : world) fuel file opts cb (m : mem) e :
  fs w !! getLockFile file = None ->
  locks m !! file = None ->
  parent_error (fs w) (getLockFile file) = Some e ->
  0 < stale opts ->
  run E (acquireLock (S (S fuel)) file opts cb m) w =
  emit (OCall (Mkdir (getLockFile file)))
    (emit (OCall (Stat (getLockFile file)))
       (emit (OCall (Mkdir (getLockFile file)))
          (run E (cb (inl (ELOCKED file)) m) w))).
Proof.
  intros Hlk Hl Hp Hst.
  assert (do_fs E (Mkdir (getLockFile file)) w = (inl e, w)) as Hmk.
  { cbn [do_fs E]. unfold posix. rewrite Hlk, Hp. reflexivity. }
  assert (do_fs E (Stat (getLockFile file)) w = (inl (syserr "ENOENT"), w)) as Hstat.
  { cbn [do_fs E]. unfold posix. rewrite Hlk. reflexivity. }
  cbn [acquireLock]. rewrite Hl.
  rewrite (run_Fs E _ _ _ _ _ _ Hmk). cbn iota beta.
  destruct (Z.leb_spec (stale opts) 0) as [?|_]; [lia|].
  rewrite (run_Fs E _ _ _ _ _ _ Hstat). cbn iota beta.
  change (is_ENOENT (syserr "ENOENT")) with true. cbn iota.
  rewrite Hl. rewrite (run_Fs E _ _ _ _ _ _ Hmk). reflexivity.
Qed.

Lemma posix_attempt_blocked file opts comp (m : mem) e timeouts :
  locks m !! file = None -> 0 < stale opts ->
  forall errors (w : world),
    fs w !! getLockFile file = None ->
    parent_error (fs w) (getLockFile file) = Some e ->
    let o := run E (attempt timeouts errors file opts comp release_at_once m) w in
    fs (after o) = fs w /\ calls (trace o) <> [] /\
    (forall ev, In ev (events (trace o)) -> exists err, ev = LockCb (inl err)).
Proof.
  intros Hl Hst. induction timeouts as [|t ts IH]; intros errors w Hlk Hp.
  - cbv zeta. cbn [attempt].
    rewrite (posix_acquire_blocked _ _ _ _ _ _ _ Hlk Hl Hp Hst).
    cbn. split; [reflexivity|]. split; [discriminate|].
    intros ev [<-|[]]. eexists. reflexivity.
  - cbv zeta. cbn [attempt].
    rewrite (posix_acquire_blocked _ _ _ _ _ _ _ Hlk Hl Hp Hst).
    cbn [run emit after trace calls events omap].
    specialize (IH (errors ++ [ELOCKED file])%list (sleep t w) Hlk Hp).
    cbv zeta in IH. destruct IH as (IH1 & _ & IH3).
    split; [exact IH1|]. split; [discriminate|]. exact IH3.
Qed.

Lemma posix_attempt_held file opts comp (m : mem) h timeouts :
  locks m !! file = Some h ->
  forall errors (w : world),
    fs (after (run E (attempt timeouts errors file opts comp release_at_once m) w)) =
    fs w.
Proof.
  intros Hh. induction timeouts as [|t ts IH]; intros errors w.
  - cbn [attempt]. rewrite (acquireLock_held _ _ _ _ _ _ Hh). reflexivity.
  - cbn [attempt]. rewrite (acquireLock_held _ _ _ _ _ _ Hh).
    cbn [run emit after]. rewrite IH. reflexivity.
Qed.

(** C8: for a path without lock artifact, acquiring and releasing at
    once leaves the filesystem as it was:
    the lock directory and the uid file that the acquisition created
    are removed and nothing else is added or changed.  (When the path
    is not held by this process and the directory above the lock
    exists, and the file itself if symlinks are to be resolved, the
    acquisition does succeed, with exactly the calls shown.) *)
Theorem acquire_release_round_trip (w : world) (file : string)
    (s : supplied) (comp : option handler) (m : mem) :
  no_artifact (fs w) file ->
  let o := run E (lock file s comp release_at_once m) w in
  let u := (next_uuid w).1 in
  fs (after o) = fs w /\
  (locks m !! file = None ->
   parent_error (fs w) (getLockFile file) = None ->
   (resolve (effective s) = true -> is_Some (fs w !! file)) ->
   events (trace o) = [ReleasedCb None] /\
   calls (trace o) =
     ((if resolve (effective s) then [Realpath file] else []) ++
      [Mkdir (getLockFile file); WriteFile (getUidFile file) u;
       Unlink (getUidFile file); Rmdir (getLockFile file)])%list /\
   exists m', result o = Done m' /\ locks m' = locks m /\
     exists l, heap m' !! next_addr m = Some l /\ released l = true).
Proof.
  intros Hno. cbv zeta.
  pose proof (effective_stale_min s) as Hst.
  set (opts := effective s) in *.
  set (hd := default DefaultThrow comp).
  (* what an attempt does once the canonical path is known *)
  assert (forall timeouts errors,
    let o := run E (attempt timeouts errors file opts hd release_at_once m) w in
    fs (after o) = fs w /\
    (locks m !! file = None ->
     parent_error (fs w) (getLockFile file) = None ->
     events (trace o) = [ReleasedCb None] /\
     calls (trace o) =
       [Mkdir (getLockFile file); WriteFile (getUidFile file) (next_uuid w).1;
        Unlink (getUidFile file); Rmdir (getLockFile file)] /\
     exists m', result o = Done m' /\ locks m' = locks m /\
       exists l, heap m' !! next_addr m = Some l /\ released l = true)) as Hatt.
  { intros timeouts errors. cbv zeta.
    destruct (locks m !! file) as [h|] eqn:Hl.
    { split; [exact (posix_attempt_held file opts hd m h timeouts Hl errors w)|].
      discriminate. }
    destruct (parent_error (fs w) (getLockFile file)) as [e|] eqn:Hp.
    - destruct Hno as [Hlk _].
      pose proof (posix_attempt_blocked file opts hd m e timeouts Hl
                    ltac:(lia) errors w Hlk Hp) as (H1 & _).
      split; [exact H1|]. discriminate.
    - assert (run E (attempt timeouts errors file opts hd release_at_once m) w =
              emit (OCall (Mkdir (getLockFile file)))
                (emit (OCall (WriteFile (getUidFile file) (next_uuid w).1))
                   (run E (acquired file opts hd release_at_once (next_uuid w).1 m)
                      (with_fs (with_artifact file (clock w) (next_uuid w).1 (fs w))
                         (next_uuid w).2)))) as ->.
      { destruct timeouts; cbn [attempt];
          rewrite (posix_acquire_fresh _ _ _ _ _ _ Hno Hl Hp); reflexivity. }
      set (w1 := with_fs _ _).
      destruct (run_acquired_release E file opts hd (next_uuid w).1 m w1
                  (clock w1) w1 eq_refl eq_refl Hl)
        as (m' & Hlm & _ & (l & Hhl & Hrl & _) & ->).
      rewrite (posix_removeLock w1 file on_released m'
                 (with_artifact_wf _ _ _ _ Hno)).
      cbn [run on_released emit trace result after events calls omap fs with_fs w1].
      rewrite (with_artifact_removed _ _ _ _ Hno).
      split; [reflexivity|]. intros _ _.
      split; [reflexivity|]. split; [reflexivity|].
      exists m'. split; [reflexivity|]. split; [exact Hlm|]. eauto. }
  unfold lock, canonicalPath. fold opts. fold hd.
  destruct (resolve opts) eqn:Hres; cbn [negb].
  - (* realpath *)
    destruct (fs w !! file) as [n|] eqn:Hfile.
    + assert (do_fs E (Realpath file) w = (inr file, w)) as Hrp.
      { cbn [do_fs E]. unfold posix. rewrite Hfile. reflexivity. }
      rewrite (run_Fs E _ _ _ _ _ _ Hrp). cbn iota beta.
      destruct (Hatt (retry_timeouts (retries opts)) []) as (H1 & H2).
      rewrite calls_emit_call, events_emit_call. cbn [emit after result].
      split; [exact H1|]. intros Hl Hp _.
      destruct (H2 Hl Hp) as (He & Hc & Hm).
      split; [exact He|]. split; [|exact Hm].
      cbn [app]. rewrite Hc. reflexivity.
    + assert (do_fs E (Realpath file) w = (inl (syserr "ENOENT"), w)) as Hrp.
      { cbn [do_fs E]. unfold posix. rewrite Hfile. reflexivity. }
      rewrite (run_Fs E _ _ _ _ _ _ Hrp). cbn iota beta.
      cbn [run release_at_once on_lock emit after].
      split; [reflexivity|]. intros _ _ Hex.
      destruct (Hex eq_refl) as [? ?]. discriminate.
  - cbn [run do_normalize E].
    destruct (Hatt (retry_timeouts (retries opts)) []) as (H1 & H2).
    split; [exact H1|]. intros Hl Hp _. exact (H2 Hl Hp).
Qed.

End RoundTrip.

(** ** A failed write of the token *)

Section WriteFailure.
Import PosixFs PosixFacts.

Lemma call_fault (c : fscall) (v : faulty) e rest :
  faults v = Some e :: rest -> call c v = (inl e, mkFaulty (base v) rest).
Proof. intros H. unfold call. rewrite H. reflexivity. Qed.

Lemma call_spared (c : fscall) (v : faulty) :
  spared v ->
  call c v = ((posix c (base v)).1, mkFaulty (posix c (base v)).2 (tail (faults v))).
Proof.
  unfold spared, call. destruct (faults v) as [|[e|] rest]; [reflexivity| |reflexivity].
  intros [].
Qed.

(** The lock directory alone, just created: the uid file is not
    there and the directory is empty. *)
Lemma fresh_dir_no_uid (f : gmap string node) file t :
  no_artifact f file ->
  <[getLockFile file := Dir t]> f !! getUidFile file = None.
Proof.
  intros Hno.
  rewrite lookup_insert_ne by (intros H; symmetry in H; exact (uid_neq_lock _ H)).
  exact (no_artifact_uid _ _ Hno).
Qed.

Lemma fresh_dir_empty (f : gmap string node) file t :
  no_artifact f file ->
  is_empty_dir (<[getLockFile file := Dir t]> f) (getLockFile file) = true.
Proof.
  intros [_ Hall]. unfold is_empty_dir. apply bool_decide_eq_true_2.
  intros q n Hq. rewrite lookup_insert in Hq. case_decide as Hd.
  - subst q. apply prefix_sep_self.
  - exact (Hall q n Hq).
Qed.

Lemma posix_unlink_fresh (w : world) file t f :
  fs w = <[getLockFile file := Dir t]> f -> no_artifact f file ->
  posix (Unlink (getUidFile file)) w = (inl (syserr "ENOENT"), w).
Proof.
  intros Hfs Hno. unfold posix. rewrite Hfs, (fresh_dir_no_uid _ _ _ Hno).
  reflexivity.
Qed.

Lemma posix_rmdir_fresh (w : world) file t f :
  fs w = <[getLockFile file := Dir t]> f -> no_artifact f file ->
  posix (Rmdir (getLockFile file)) w = (inr tt, with_fs f w).
Proof.
  intros Hfs Hno. unfold posix. rewrite Hfs, lookup_insert_eq.
  rewrite (fresh_dir_empty _ _ _ Hno), delete_insert_eq.
  rewrite delete_id by apply Hno. reflexivity.
Qed.

(** On the filesystem with faults: the write is made to fail, the
    teardown is spared. *)
Lemma posix_write_failure_removed (v : faulty) (fuel : nat) (file : string)
    (opts : options) (m : mem) (err : jserr) (rest : list (option jserr)) :
  locks m !! file = None ->
  no_artifact (fs (base v)) file ->
  parent_error (fs (base v)) (getLockFile file) = None ->
  faults v = None :: Some err :: rest ->
  Forall (eq None) (take 2 rest) ->
  let o := run F (acquireLock (S fuel) file opts on_acquire m) v in
  calls (trace o) =
    [Mkdir (getLockFile file);
     WriteFile (getUidFile file) (next_uuid (base v)).1;
     Unlink (getUidFile file); Rmdir (getLockFile file)] /\
  fs (base (after o)) = fs (base v).
Proof.
  intros Hl Hno Hp Hf Hok. cbv zeta.
  set (f1 := <[getLockFile file := Dir (clock (base v))]> (fs (base v))).
  set (b1 := with_fs f1 (base v)).
  set (v1 := mkFaulty b1 (Some err :: rest)).
  set (v3 := mkFaulty (next_uuid b1).2 rest).
  assert (fs (base v3) = f1) as Hfs3 by apply next_uuid_fs.
  rewrite (run_acquire_write_failed F fuel file opts on_acquire m v v1
             (next_uuid b1).1 (mkFaulty (next_uuid b1).2 (Some err :: rest))
             err v3); cycle 1.
  { exact Hl. }
  { cbn [do_fs F]. rewrite call_spared by (unfold spared; rewrite Hf; exact I).
    unfold posix. destruct Hno as [-> _]. rewrite Hp, Hf. reflexivity. }
  { reflexivity. }
  { cbn [do_fs F]. apply call_fault. reflexivity. }
  assert ((next_uuid b1).1 = (next_uuid (base v)).1) as ->
    by (unfold b1; rewrite next_uuid_with_fs; reflexivity).
  cbv zeta. cbn [do_fs F].
  assert (spared v3) as Hs3.
  { unfold spared, v3. cbn [faults]. destruct rest as [|[e1|] rest']; [exact I| |exact I].
    apply Forall_cons in Hok as [? _]. discriminate. }
  rewrite (call_spared _ _ Hs3).
  rewrite (posix_unlink_fresh (base v3) file _ _ Hfs3 Hno).
  cbn [fst snd teardown_error].
  change (is_ENOENT (syserr "ENOENT")) with true. cbn iota.
  set (v4 := mkFaulty (base v3) (tail (faults v3))).
  assert (spared v4) as Hs4.
  { unfold spared, v4, v3. cbn [faults base].
    destruct rest as [|o1 [|[e2|] rest']]; try exact I.
    apply Forall_cons in Hok as [_ Hok].
    apply Forall_cons in Hok as [? _]. discriminate. }
  rewrite (call_spared _ _ Hs4).
  rewrite (posix_rmdir_fresh (base v4) file _ (fs (base v)) Hfs3 Hno).
  cbn [fst snd]. split; reflexivity.
Qed.

(** C3 (amended): when the directory creation succeeds and the write
    of the token fails, [acquireLock] unlinks the uid file and,
    unless that fails with an error other than not-found, removes the
    lock directory; whatever this teardown reports, the callback is
    called once, with the error of the write, never with success (in
    any environment).  On the filesystem model, when no call of the
    teardown is made to fail, the directory is gone afterwards and the
    filesystem is as it was before the acquisition. *)
Theorem write_failure_teardown {W : Type} (E' : env W) (w : W)
    (fuel : nat) (file : string) (opts : options) (m : mem)
    (w1 : W) (u : list N) (w2 : W) (err : jserr) (w3 : W) :
  locks m !! file = None ->
  do_fs E' (Mkdir (getLockFile file)) w = (inr tt, w1) ->
  do_uuid E' w1 = (u, w2) ->
  do_fs E' (WriteFile (getUidFile file) u) w2 = (inl err, w3) ->
  let o := run E' (acquireLock (S fuel) file opts on_acquire m) w in
  let a := do_fs E' (Unlink (getUidFile file)) w3 in
  events (trace o) = [AcquireCb (inl err)] /\
  result o = Done m /\
  calls (trace o) =
    ([Mkdir (getLockFile file); WriteFile (getUidFile file) u;
      Unlink (getUidFile file)] ++
     match teardown_error a.1 with
     | Some _ => []
     | None => [Rmdir (getLockFile file)]
     end)%list /\
  (forall (v : faulty) (rest : list (option jserr)),
     no_artifact (fs (base v)) file ->
     parent_error (fs (base v)) (getLockFile file) = None ->
     faults v = None :: Some err :: rest ->
     Forall (eq None) (take 2 rest) ->
     let o' := run F (acquireLock (S fuel) file opts on_acquire m) v in
     calls (trace o') =
       [Mkdir (getLockFile file);
        WriteFile (getUidFile file) (next_uuid (base v)).1;
        Unlink (getUidFile file); Rmdir (getLockFile file)] /\
     fs (base (after o')) = fs (base v)).
Proof.
  intros Hl Hmk Hu Hw. cbv zeta.
  rewrite (run_acquire_write_failed E' fuel file opts on_acquire m w w1 u w2
             err w3 Hl Hmk Hu Hw).
  cbv zeta.
  split; [|split; [|split]].
  - destruct (teardown_error _); reflexivity.
  - destruct (teardown_error _); reflexivity.
  - destruct (teardown_error _); reflexivity.
  - intros v rest Hno Hp Hf Hok.
    exact (posix_write_failure_removed v fuel file opts m err rest
             Hl Hno Hp Hf Hok).
Qed.


End WriteFailure.

(** * Released handles stay released *)

(** In a run without other turns the final memory satisfies [P]. *)
Lemma exposes_run {W : Type} (E : env W) (P : mem -> Prop) (p : proc) :
  exposes P p ->
  forall w, match result (run E p w) with
            | Done m | Crashed _ m => P m
            | Stuck => True
            end.
Proof.
  induction 1; intros w; cbn [run emit result]; cbv zeta;
    cbn [emit result]; try solve [auto].
  all: match goal with
       | IH : context [run] |- _ => solve [apply IH; auto]
       end.
Qed.

Section Passing.
Context (P : mem -> Prop).

(** Functions that do not touch the memory pass [P] on. *)
Lemma removeLock_exposes file cb m :
  (forall r m', P m' -> exposes P (cb r m')) -> P m ->
  exposes P (removeLock file cb m).
Proof.
  intros Hcb Hm. unfold removeLock. constructor; [exact Hm|].
  intros [e|[]] m1 H1.
  - destruct (negb (is_ENOENT e)); [apply Hcb, H1|].
    constructor; [exact H1|].
    intros [e'|[]] m2 H2; [destruct (negb (is_ENOENT e'))|]; apply Hcb, H2.
  - constructor; [exact H1|].
    intros [e'|[]] m2 H2; [destruct (negb (is_ENOENT e'))|]; apply Hcb, H2.
Qed.

Lemma acquireLock_exposes fuel file opts cb :
  (forall r m', P m' -> exposes P (cb r m')) ->
  forall m, P m -> exposes P (acquireLock fuel file opts cb m).
Proof.
  intros Hcb. revert opts.
  induction fuel as [|fuel IH]; intros opts m Hm; [constructor|].
  cbn [acquireLock]. destruct (locks m !! file); [apply Hcb, Hm|].
  constructor; [exact Hm|]. intros [e|[]] m1 H1.
  - destruct (stale opts <=? 0); [apply Hcb, H1|].
    constructor; [exact H1|]. intros [e'|mtime] m2 H2.
    + destruct (is_ENOENT e'); [apply IH, H2|apply Hcb, H2].
    + constructor. intros now.
      destruct (mtime >=? now - stale opts); [apply Hcb, H2|].
      apply removeLock_exposes; [|exact H2].
      intros [err|] m3 H3; [apply Hcb, H3|apply IH, H3].
  - constructor. intros u. constructor; [exact H1|].
    intros [e|[]] m2 H2; [|apply Hcb, H2].
    apply removeLock_exposes; [|exact H2]. intros _ m3 H3. apply Hcb, H3.
Qed.

Lemma canonicalPath_exposes file res cb m :
  (forall r m', P m' -> exposes P (cb r m')) -> P m ->
  exposes P (canonicalPath file res cb m).
Proof.
  intros Hcb Hm. unfold canonicalPath. destruct (negb res).
  - constructor. intros q. apply Hcb, Hm.
  - constructor; [exact Hm|]. exact Hcb.
Qed.

Lemma call_compromised_exposes h err m :
  P m -> exposes P (call_compromised h err m).
Proof.
  intros Hm. unfold call_compromised.
  destruct (heap m !! h) as [l|]; [|constructor; exact Hm].
  constructor. destruct (compromised l); constructor; exact Hm.
Qed.

End Passing.

Section Gone.
Context (h : nat).

Lemma gone_same m m' :
  heap m' = heap m -> next_addr m' = next_addr m -> gone h m -> gone h m'.
Proof. unfold gone. intros -> ->. auto. Qed.

(** An assignment to a property of a lock object other than
    [released = false]. *)
Lemma gone_store h' l' l'' m :
  heap m !! h' = Some l' -> (released l' = true -> released l'' = true) ->
  gone h m -> gone h (store h' l'' m).
Proof.
  intros Hh' Hkeep (Hlt & l & Hl & Hr). split; [exact Hlt|].
  unfold store, set_heap. cbn [heap].
  destruct (decide (h' = h)) as [->|Hne].
  - exists l''. rewrite lookup_insert_eq. split; [reflexivity|].
    apply Hkeep. congruence.
  - exists l. rewrite lookup_insert_ne by assumption. auto.
Qed.

Lemma updateLock_gone file opts k m :
  (forall m', gone h m' -> exposes (gone h) (k m')) -> gone h m ->
  exposes (gone h) (updateLock file opts k m).
Proof.
  intros Hk Hm. unfold updateLock.
  destruct (locks m !! file) as [h'|]; [|constructor; exact Hm].
  destruct (heap m !! h') as [l'|] eqn:Hh'; [|constructor; exact Hm].
  unfold setTimeout. apply Hk.
  apply (gone_store h' l'); [exact Hh'|auto|].
  exact (gone_same m _ eq_refl eq_refl Hm).
Qed.

Lemma unlock_gone file res cb m :
  (forall r m', gone h m' -> exposes (gone h) (cb r m')) -> gone h m ->
  exposes (gone h) (unlock file res cb m).
Proof.
  intros Hcb Hm. unfold unlock.
  apply canonicalPath_exposes; [|exact Hm].
  intros [err|file'] m1 H1; [apply Hcb, H1|].
  destruct (locks m1 !! file') as [h'|]; [|apply Hcb, H1].
  destruct (heap m1 !! h') as [l'|] eqn:Hh'; [|constructor; exact H1].
  apply removeLock_exposes; [exact Hcb|].
  apply (gone_same (store h' (set_released true l')
                      match updateTimeout l' with
                      | Some t => clearTimeout t m1
                      | None => m1
                      end)); [reflexivity|reflexivity|].
  apply (gone_store h' l'); [|auto|].
  - destruct (updateTimeout l'); exact Hh'.
  - destruct (updateTimeout l'); [|exact H1].
    exact (gone_same m1 _ eq_refl eq_refl H1).
Qed.

Lemma tick_done_gone file opts h' res m :
  gone h m -> exposes (gone h) (tick_done file opts h' res m).
Proof.
  intros Hm. unfold tick_done.
  destruct (heap m !! h') as [l'|] eqn:Hh'; [|constructor; exact Hm].
  destruct (released l') eqn:Hr'; [constructor; exact Hm|].
  constructor. intros now. destruct (lastUpdate l' <=? now - stale opts).
  - apply unlock_gone; [|exact Hm]. intros _ m1 H1.
    destruct (heap m1 !! h'); [|constructor; exact H1].
    apply call_compromised_exposes, H1.
  - destruct res as [err|[data []]].
    + destruct (is_ENOENT err).
      * apply unlock_gone; [|exact Hm]. intros _ m1 H1.
        apply call_compromised_exposes, H1.
      * apply updateLock_gone; [intros; constructor; assumption|].
        apply (gone_store h' l'); [exact Hh'|congruence|exact Hm].
    + destruct (negb (bool_decide (trim data = uid l'))).
      * apply call_compromised_exposes.
        apply (gone_same (store h' (set_released true l') m));
          [reflexivity|reflexivity|].
        apply (gone_store h' l'); [exact Hh'|auto|exact Hm].
      * constructor. intros now'.
        apply updateLock_gone; [intros; constructor; assumption|].
        apply (gone_store h' l'); [exact Hh'|congruence|exact Hm].
Qed.

Lemma fire_gone t m : gone h m -> exposes (gone h) (fire t m).
Proof.
  intros Hm. unfold fire.
  destruct (timers m !! t) as [p|]; [|constructor; exact Hm].
  unfold tick. constructor. intros now.
  assert (gone h (clearTimeout t m)) as Hc
    by exact (gone_same m _ eq_refl eq_refl Hm).
  destruct (heap (clearTimeout t m) !! t_lock p) as [l'|] eqn:Hh';
    [|constructor; exact Hc].
  assert (gone h (store (t_lock p) (set_updateTimeout None l') (clearTimeout t m)))
    as Hs by (apply (gone_store _ l'); [exact Hh'|auto|exact Hc]).
  constructor; [exact Hs|].
  intros r m1 H1. apply tick_done_gone, H1.
Qed.

Lemma release_gone r cb m :
  (forall x m', gone h m' -> exposes (gone h) (cb x m')) -> gone h m ->
  exposes (gone h) (release r cb m).
Proof.
  intros Hcb Hm. unfold release.
  destruct (heap m !! r_lock r) as [l'|]; [|constructor; exact Hm].
  destruct (released l'); [apply Hcb, Hm|].
  apply unlock_gone; assumption.
Qed.

Lemma acquired_gone file opts comp cb u m :
  (forall r m', gone h m' -> exposes (gone h) (cb r m')) -> gone h m ->
  exposes (gone h) (acquired file opts comp cb u m).
Proof.
  intros Hcb Hm. unfold acquired. constructor. intros now.
  apply updateLock_gone; [intros m' Hm'; apply Hcb, Hm'|].
  destruct Hm as (Hlt & l & Hl & Hr). split; [cbn [next_addr]; lia|].
  exists l. cbn [heap]. rewrite lookup_insert_ne by lia. auto.
Qed.

Lemma attempt_gone timeouts file opts comp cb :
  (forall r m', gone h m' -> exposes (gone h) (cb r m')) ->
  forall errors m, gone h m ->
  exposes (gone h) (attempt timeouts errors file opts comp cb m).
Proof.
  intros Hcb. induction timeouts as [|t ts IH]; intros errors m Hm.
  - cbn [attempt]. apply acquireLock_exposes; [|exact Hm].
    intros [err|u] m1 H1; [apply Hcb, H1|apply acquired_gone; assumption].
  - cbn [attempt]. apply acquireLock_exposes; [|exact Hm].
    intros [err|u] m1 H1; [|apply acquired_gone; assumption].
    constructor; [exact H1|]. intros m2 H2. apply IH, H2.
Qed.

Lemma lock_gone file s comp cb m :
  (forall r m', gone h m' -> exposes (gone h) (cb r m')) -> gone h m ->
  exposes (gone h) (lock file s comp cb m).
Proof.
  intros Hcb Hm. unfold lock. apply canonicalPath_exposes; [|exact Hm].
  intros [err|file'] m1 H1; [apply Hcb, H1|].
  apply attempt_gone; assumption.
Qed.

End Gone.

(** X1: "[released == true] is monotonic": whatever the filesystem
    answers
    and however the turns of the process interleave, no entry point of
    the module ([lock], [unlock], a release function, a timer that
    fires) and no callback of theirs takes a lock object away or
    unmarks it, as long as the user's callbacks do not either. *)
Theorem released_is_stable (h : nat) (m : mem) :
  gone h m ->
  (forall file s comp cb,
     (forall r m', gone h m' -> exposes (gone h) (cb r m')) ->
     exposes (gone h) (lock file s comp cb m)) /\
  (forall file res cb,
     (forall r m', gone h m' -> exposes (gone h) (cb r m')) ->
     exposes (gone h) (unlock file res cb m)) /\
  (forall r cb,
     (forall x m', gone h m' -> exposes (gone h) (cb x m')) ->
     exposes (gone h) (release r cb m)) /\
  (forall t, exposes (gone h) (fire t m)).
Proof.
  intros Hm. repeat split.
  - intros. apply lock_gone; assumption.
  - intros. apply unlock_gone; assumption.
  - intros. apply release_gone; assumption.
  - intros. apply fire_gone; assumption.
Qed.

(** * Every path ends in one callback *)

Lemma answers_once_le Q n n' p :
  (n <= n')%nat -> answers_once Q n p -> answers_once Q n' p.
Proof.
  intros Hle H. revert n' Hle.
  induction H as [n ev m HQ|n k _ IH|n k _ IH|n p k _ IH|n m c k _ IH
                 |n m c1 c2 k _ IH|n m ms k _ IH]; intros n' Hle.
  - constructor. exact HQ.
  - constructor. intros t. apply IH, Hle.
  - constructor. intros u. apply IH, Hle.
  - constructor. intros q. apply IH, Hle.
  - destruct n' as [|n']; [lia|]. constructor. intros r m'. apply IH. lia.
  - destruct n' as [|[|n']]; [lia|lia|]. constructor. intros r m'. apply IH. lia.
  - constructor. intros m'. apply IH, Hle.
Qed.

Lemma answers_once_run {W : Type} (E : env W) Q n p :
  answers_once Q n p ->
  forall w, exists ev m,
    events (trace (run E p w)) = [ev] /\ Q ev /\
    result (run E p w) = Done m /\
    (length (calls (trace (run E p w))) <= n)%nat.
Proof.
  induction 1 as [n ev m HQ|n k _ IH|n k _ IH|n p k _ IH|n m c k _ IH
                 |n m c1 c2 k _ IH|n m ms k _ IH]; intros w; cbn [run].
  - exists ev, m. cbn. repeat split; [exact HQ|lia].
  - apply IH.
  - apply IH.
  - apply IH.
  - destruct (IH (do_fs E c w).1 m (do_fs E c w).2) as (ev & m1 & H1 & H2 & H3 & H4).
    exists ev, m1. rewrite events_emit_call, calls_emit_call.
    cbn [emit result length]. repeat split; [exact H1|exact H2|exact H3|lia].
  - cbv zeta.
    destruct (IH (async_parallel (do_fs E c1 w).1
                    (do_fs E c2 (do_fs E c1 w).2).1
                    (do_order E (do_fs E c2 (do_fs E c1 w).2).2).1) m
                 (do_order E (do_fs E c2 (do_fs E c1 w).2).2).2)
      as (ev & m1 & H1 & H2 & H3 & H4).
    exists ev, m1. rewrite !events_emit_call, !calls_emit_call.
    cbn [emit result length]. repeat split; [exact H1|exact H2|exact H3|lia].
  - destruct (IH m (do_sleep E ms w)) as (ev & m1 & H1 & H2 & H3 & H4).
    exists ev, m1. cbn [emit trace result events calls omap].
    repeat split; [exact H1|exact H2|exact H3|exact H4].
Qed.

Lemma removeLock_answers Q n file cb m :
  (forall r m', answers_once Q n (cb r m')) ->
  answers_once Q (2 + n) (removeLock file cb m).
Proof.
  intros Hcb. unfold removeLock. constructor. intros r m1.
  assert (answers_once Q (1 + n)
            (Fs m1 (Rmdir (getLockFile file)) (fun r m =>
               match r with
               | inl err => if negb (is_ENOENT err) then cb (Some err) m
                            else cb None m
               | inr _ => cb None m
               end))) as Hrm.
  { constructor. intros [e|[]] m2; [destruct (negb (is_ENOENT e))|]; apply Hcb. }
  destruct r as [e|[]]; [|exact Hrm].
  destruct (negb (is_ENOENT e)); [|exact Hrm].
  apply (answers_once_le Q n); [lia|apply Hcb].
Qed.

Lemma acquire_once_answers Q n file cb m :
  (forall r m', answers_once Q n (cb r m')) ->
  answers_once Q (4 + n) (acquire_once file cb m).
Proof.
  intros Hcb. unfold acquire_once.
  destruct (locks m !! file); [apply (answers_once_le Q n); [lia|apply Hcb]|].
  constructor. intros [e|[]] m1; [apply (answers_once_le Q n); [lia|apply Hcb]|].
  constructor. intros u. constructor. intros [e|[]] m2.
  - apply removeLock_answers. intros _ m3. apply Hcb.
  - apply (answers_once_le Q n); [lia|apply Hcb].
Qed.

Lemma acquireLock_answers Q n fuel file opts cb m :
  (forall r m', answers_once Q n (cb r m')) ->
  answers_once Q (8 + n) (acquireLock (S (S fuel)) file opts cb m).
Proof.
  intros Hcb.
  assert (forall k p, (k <= 8)%nat -> answers_once Q (k + n) p ->
                      answers_once Q (8 + n) p) as Hup
    by (intros k p Hk; apply answers_once_le; lia).
  cbn [acquireLock].
  destruct (locks m !! file); [apply (Hup 0%nat); [lia|apply Hcb]|].
  constructor. intros [e|[]] m1.
  - destruct (stale opts <=? 0); [apply (answers_once_le Q n); [lia|apply Hcb]|].
    constructor. intros [e'|mtime] m2.
    + destruct (is_ENOENT e'); [|apply (answers_once_le Q n); [lia|apply Hcb]].
      change (answers_once Q (6 + n) (acquire_once file cb m2)).
      apply (answers_once_le Q (4 + n)); [lia|].
      apply acquire_once_answers, Hcb.
    + constructor. intros now.
      destruct (mtime >=? now - stale opts);
        [apply (answers_once_le Q n); [lia|apply Hcb]|].
      change (answers_once Q (2 + (4 + n))
                (removeLock file (fun r m' =>
                   match r with
                   | Some err => cb (inl err) m'
                   | None => acquire_once file cb m'
                   end) m2)).
      apply removeLock_answers. intros [err|] m3.
      * apply (answers_once_le Q n); [lia|apply Hcb].
      * apply acquire_once_answers, Hcb.
  - constructor. intros u. constructor. intros [e|[]] m2.
    + apply (answers_once_le Q (2 + n)); [lia|].
      apply removeLock_answers. intros _ m3. apply Hcb.
    + apply (answers_once_le Q n); [lia|apply Hcb].
Qed.

(** X2: whatever the filesystem answers and whatever the memory holds
    when its callbacks run, [acquireLock] calls its callback exactly
    once, never throws, and makes at most eight filesystem calls before
    it does (mkdir, stat, unlink, rmdir, then the bare retry's mkdir,
    writeFile, unlink, rmdir). *)
Theorem acquireLock_calls_back_once {W : Type} (E : env W) (w : W)
    (fuel : nat) (file : string) (opts : options) (m : mem) :
  answers_once is_AcquireCb 8 (acquireLock (S (S fuel)) file opts on_acquire m) /\
  let o := run E (acquireLock (S (S fuel)) file opts on_acquire m) w in
  exists r m',
    events (trace o) = [AcquireCb r] /\ result o = Done m' /\
    (length (calls (trace o)) <= 8)%nat.
Proof.
  assert (answers_once is_AcquireCb 8
            (acquireLock (S (S fuel)) file opts on_acquire m)) as H.
  { apply (acquireLock_answers is_AcquireCb 0).
    intros r m1. constructor. exists r. reflexivity. }
  split; [exact H|]. cbv zeta.
  destruct (answers_once_run E _ _ _ H w) as (ev & m' & H1 & [r ->] & H3 & H4).
  exists r, m'. auto.
Qed.

Lemma acquired_answers Q n file opts comp cb u m :
  (forall r m', answers_once Q n (cb r m')) ->
  answers_once Q n (acquired file opts comp cb u m).
Proof.
  intros Hcb. unfold acquired. constructor. intros now. cbv zeta.
  unfold updateLock. cbn [locks heap]. rewrite !lookup_insert_eq.
  unfold setTimeout. apply Hcb.
Qed.

Lemma attempt_answers Q n file opts comp cb timeouts :
  (forall r m', answers_once Q n (cb r m')) ->
  forall errors m,
    answers_once Q (8 * S (length timeouts) + n)
      (attempt timeouts errors file opts comp cb m).
Proof.
  intros Hcb. induction timeouts as [|t ts IH]; intros errors m.
  - cbn [attempt length]. apply (answers_once_le Q (8 + n)); [lia|].
    apply acquireLock_answers. intros [err|u] m1; [apply Hcb|].
    apply acquired_answers, Hcb.
  - cbn [attempt length].
    replace (8 * S (S (length ts)) + n)%nat
      with (8 + (8 * S (length ts) + n))%nat by lia.
    apply acquireLock_answers. intros [err|u] m1.
    + constructor. intros m2. apply IH.
    + apply (answers_once_le Q n); [lia|]. apply acquired_answers, Hcb.
Qed.

Lemma retry_timeouts_length (n : nat) : length (retry_timeouts n) = n.
Proof. unfold retry_timeouts. rewrite length_map, length_seq. reflexivity. Qed.

Lemma lock_answers Q n file s comp cb m :
  (forall r m', answers_once Q n (cb r m')) ->
  answers_once Q (1 + 8 * S (retries (effective s)) + n) (lock file s comp cb m).
Proof.
  intros Hcb. unfold lock, canonicalPath.
  assert (forall file' m1,
            answers_once Q (8 * S (retries (effective s)) + n)
              (attempt (retry_timeouts (retries (effective s))) [] file'
                 (effective s) (default DefaultThrow comp) cb m1)) as Hatt.
  { intros file' m1.
    pose proof (attempt_answers Q n file' (effective s)
                  (default DefaultThrow comp) cb
                  (retry_timeouts (retries (effective s))) Hcb [] m1) as H.
    rewrite retry_timeouts_length in H. exact H. }
  change (1 + 8 * S (retries (effective s)) + n)%nat
    with (S (8 * S (retries (effective s)) + n)).
  destruct (negb (resolve (effective s))).
  - constructor. intros q. apply (answers_once_le Q (8 * S (retries (effective s)) + n));
      [lia|apply Hatt].
  - constructor. intros [err|file'] m1; [|apply Hatt].
    apply (answers_once_le Q n); [lia|apply Hcb].
Qed.

(** X3: [lock] calls its callback exactly once, with an error or with
    a release function, whatever the filesystem answers, whatever the
    options are and however other turns of the process change the
    memory in between; it never throws, calls no compromise handler,
    and makes at most one [realpath] and eight calls for each of its
    [retries + 1] attempts. *)
Theorem lock_calls_back_once {W : Type} (E : env W) (w : W)
    (file : string) (s : supplied) (comp : option handler) (m : mem) :
  answers_once is_LockCb (1 + 8 * S (retries (effective s)))
    (lock file s comp on_lock m) /\
  let o := run E (lock file s comp on_lock m) w in
  exists r m',
    events (trace o) = [LockCb r] /\ result o = Done m' /\
    (length (calls (trace o)) <= 1 + 8 * (retries (effective s) + 1))%nat.
Proof.
  assert (answers_once is_LockCb (1 + 8 * S (retries (effective s)))
            (lock file s comp on_lock m)) as H.
  { apply (answers_once_le is_LockCb (1 + 8 * S (retries (effective s)) + 0));
      [lia|].
    apply lock_answers. intros r m1. constructor. exists r. reflexivity. }
  split; [exact H|]. cbv zeta.
  destruct (answers_once_run E _ _ _ H w) as (ev & m' & H1 & [r ->] & H3 & H4).
  exists r, m'. split; [exact H1|]. split; [exact H3|]. lia.
Qed.

(** * Acquisition: the remaining paths *)

Section AcquirePaths.
Context {W : Type} (E : env W).

Lemma run_acquire_no_check fuel file opts cb m w e w1 :
  locks m !! file = None ->
  do_fs E (Mkdir (getLockFile file)) w = (inl e, w1) ->
  stale opts <= 0 ->
  run E (acquireLock (S fuel) file opts cb m) w =
  emit (OCall (Mkdir (getLockFile file))) (run E (cb (inl (ELOCKED file)) m) w1).
Proof.
  intros Hl Hmk Hst. cbn [acquireLock]. rewrite Hl.
  rewrite (run_Fs E _ _ _ _ _ _ Hmk). cbn iota beta.
  destruct (Z.leb_spec (stale opts) 0); [reflexivity|lia].
Qed.

Lemma run_acquire_stat_failed fuel file opts cb m w e w1 err w2 :
  locks m !! file = None ->
  do_fs E (Mkdir (getLockFile file)) w = (inl e, w1) ->
  0 < stale opts ->
  do_fs E (Stat (getLockFile file)) w1 = (inl err, w2) ->
  run E (acquireLock (S (S fuel)) file opts cb m) w =
  emit (OCall (Mkdir (getLockFile file)))
    (emit (OCall (Stat (getLockFile file)))
       (if is_ENOENT err
        then run E (acquireLock (S fuel) file (set_stale 0 opts) cb m) w2
        else run E (cb (inl err) m) w2)).
Proof.
  intros Hl Hmk Hst Hstat.
  match goal with |- _ = ?R => set (rhs := R) end.
  cbn [acquireLock]. rewrite Hl.
  rewrite (run_Fs E _ _ _ _ _ _ Hmk). cbn iota beta.
  destruct (Z.leb_spec (stale opts) 0) as [?|_]; [lia|].
  rewrite (run_Fs E _ _ _ _ _ _ Hstat). cbn iota beta.
  subst rhs. destruct (is_ENOENT err); reflexivity.
Qed.

(** The registration of lines 211-219, from memory [m]: the new lock
    object, its entry in [locks] and the first timer. *)
Lemma run_acquired file opts comp cb u m w now w1 :
  do_now E w = (now, w1) ->
  run E (acquired file opts comp cb u m) w =
  run E (cb (inr (mkReleaser file opts (next_addr m)))
           (registered file opts comp u now m)) w1.
Proof.
  intros Hnow. unfold acquired. rewrite (run_Now E _ _ _ _ Hnow). cbv zeta.
  unfold updateLock. cbn [locks heap]. rewrite !lookup_insert_eq.
  unfold setTimeout, store, set_heap.
  cbn [locks heap timers next_addr next_timer].
  rewrite insert_insert_eq. reflexivity.
Qed.

End AcquirePaths.

(** X4: in a contended acquisition whose [stat] of the lock directory
    fails, an error other than not-found is passed to the callback
    after those two calls and nothing is removed or retried; on
    not-found the acquisition is retried with [stale: 0], and such a
    call never looks at the directory's age: when its [mkdir] fails it
    reports ELOCKED after that one call. *)
Theorem stat_failure_in_acquisition {W : Type} (E : env W) (w : W)
    (fuel : nat) (file : string) (opts : options)
    (cb : jserr + list N -> mem -> proc) (m : mem)
    (e : jserr) (w1 : W) (err : jserr) (w2 : W) :
  locks m !! file = None ->
  do_fs E (Mkdir (getLockFile file)) w = (inl e, w1) ->
  0 < stale opts ->
  do_fs E (Stat (getLockFile file)) w1 = (inl err, w2) ->
  (is_ENOENT err = false ->
   run E (acquireLock (S (S fuel)) file opts cb m) w =
   emit (OCall (Mkdir (getLockFile file)))
     (emit (OCall (Stat (getLockFile file)))
        (run E (cb (inl err) m) w2))) /\
  (is_ENOENT err = true ->
   run E (acquireLock (S (S fuel)) file opts cb m) w =
   emit (OCall (Mkdir (getLockFile file)))
     (emit (OCall (Stat (getLockFile file)))
        (run E (acquireLock (S fuel) file (set_stale 0 opts) cb m) w2)) /\
   forall e' w3,
     do_fs E (Mkdir (getLockFile file)) w2 = (inl e', w3) ->
     run E (acquireLock (S fuel) file (set_stale 0 opts) cb m) w2 =
     emit (OCall (Mkdir (getLockFile file)))
       (run E (cb (inl (ELOCKED file)) m) w3)).
Proof.
  intros Hl Hmk Hst Hstat.
  pose proof (run_acquire_stat_failed E fuel file opts cb m w e w1 err w2
                Hl Hmk Hst Hstat) as Hrun.
  split; intros Herr; rewrite Herr in Hrun.
  - exact Hrun.
  - split; [exact Hrun|]. intros e' w3 Hmk2.
    apply (run_acquire_no_check E _ _ _ _ _ _ e' _ Hl Hmk2). cbn. lia.
Qed.

(** X5: once the canonical path is known ([path.normalize] of the path
    given with [resolve: false], the answer of a successful [realpath]
    with [resolve: true]) and is not registered, and [mkdir] and the
    write of the token succeed, [lock] registers a new lock object for
    that path (token as written, [lastUpdate] the time of
    registration, not released, the compromise handler given or the
    throwing default), arms its first renewal timer with the effective
    [update] delay and passes the release function of that object to
    the callback; the other entries of the memory stay as they are,
    and [retries] plays no part. *)
Theorem lock_registers {W : Type} (E : env W) (w : W)
    (raw file : string) (s : supplied) (comp : option handler) (m : mem)
    (w0 w1 : W) (u : list N) (w2 w3 : W) (now : Z) (w4 : W) :
  (if resolve (effective s)
   then do_fs E (Realpath raw) w = (inr file, w0)
   else do_normalize E raw = file /\ w0 = w) ->
  locks m !! file = None ->
  do_fs E (Mkdir (getLockFile file)) w0 = (inr tt, w1) ->
  do_uuid E w1 = (u, w2) ->
  do_fs E (WriteFile (getUidFile file) u) w2 = (inr tt, w3) ->
  do_now E w3 = (now, w4) ->
  let o := run E (lock raw s comp on_lock m) w in
  let opts := effective s in
  let m' := registered file opts (default DefaultThrow comp) u now m in
  trace o = ((if resolve opts then [OCall (Realpath raw)] else []) ++
             [OCall (Mkdir (getLockFile file));
              OCall (WriteFile (getUidFile file) u);
              OEvent (LockCb (inr (mkReleaser file opts (next_addr m))))])%list /\
  result o = Done m' /\ after o = w4 /\
  locks m' !! file = Some (next_addr m) /\
  heap m' !! next_addr m =
    Some (mkLock u opts (default DefaultThrow comp) now false
                 (Some (update opts)) (Some (next_timer m)) None) /\
  timers m' !! next_timer m =
    Some (mkPending file opts (next_addr m) (update opts)) /\
  (forall f, f <> file -> locks m' !! f = locks m !! f) /\
  (forall a, a <> next_addr m -> heap m' !! a = heap m !! a) /\
  (forall t, t <> next_timer m -> timers m' !! t = timers m !! t).
Proof.
  intros Hcan Hl Hmk Hu Hw Hnow. cbv zeta.
  assert (run E (attempt (retry_timeouts (retries (effective s))) [] file
                   (effective s) (default DefaultThrow comp) on_lock m) w0 =
          emit (OCall (Mkdir (getLockFile file)))
            (emit (OCall (WriteFile (getUidFile file) u))
               (run E (acquired file (effective s) (default DefaultThrow comp)
                         on_lock u m) w3))) as Hatt.
  { destruct (retry_timeouts (retries (effective s))); cbn [attempt];
      rewrite (run_acquire_created E _ _ _ _ _ _ _ _ _ _ Hl Hmk Hu Hw);
      reflexivity. }
  rewrite (run_acquired E _ _ _ _ _ _ _ _ _ Hnow) in Hatt.
  assert (run E (lock raw s comp on_lock m) w =
          mkOut ((if resolve (effective s) then [OCall (Realpath raw)] else []) ++
                 [OCall (Mkdir (getLockFile file));
                  OCall (WriteFile (getUidFile file) u);
                  OEvent (LockCb (inr (mkReleaser file (effective s)
                                         (next_addr m))))])%list
                (Done (registered file (effective s) (default DefaultThrow comp)
                         u now m)) w4) as ->.
  { unfold lock, canonicalPath.
    destruct (resolve (effective s)); cbn [negb].
    - rewrite (run_Fs E _ _ _ _ _ _ Hcan). cbn iota beta. rewrite Hatt.
      reflexivity.
    - destruct Hcan as [Hn ->]. cbn [run]. rewrite Hn, Hatt. reflexivity. }
  cbn [trace result after].
  split; [reflexivity|]. split; [reflexivity|]. split; [reflexivity|].
  unfold registered. cbn [locks heap timers].
  rewrite !lookup_insert_eq.
  split; [reflexivity|]. split; [reflexivity|]. split; [reflexivity|].
  split; [|split].
  - intros f Hf. apply lookup_insert_ne. congruence.
  - intros a Ha. apply lookup_insert_ne. congruence.
  - intros t Ht. apply lookup_insert_ne. congruence.
Qed.

(** * Renewal: the remaining paths *)

Section RenewalPaths.
Context {W : Type} (E : env W).

(** [updateLock] on a registered, live lock object. *)
Lemma updateLock_registered file opts k m h l :
  locks m !! file = Some h -> heap m !! h = Some l ->
  updateLock file opts k m =
  let d := js_or_opt (updateDelay l) (update opts) in
  k (mkMem (locks m)
           (<[h := set_updateTimeout (Some (next_timer m))
                     (set_updateDelay (Some d) l)]> (heap m))
           (<[next_timer m := mkPending file opts h d]> (timers m))
           (next_addr m) (S (next_timer m))).
Proof.
  intros Hl Hh. unfold updateLock. rewrite Hl, Hh. reflexivity.
Qed.

(** The tick whose answers arrive within the threshold with an error
    other than ENOENT. *)
Lemma run_tick_done_failed file opts h err m l now w w1 :
  heap m !! h = Some l -> released l = false ->
  locks m !! file = Some h ->
  do_now E w = (now, w1) ->
  now - stale opts < lastUpdate l ->
  is_ENOENT err = false ->
  run E (tick_done file opts h (inl err) m) w =
  let t := next_timer m in
  let l' := mkLock (uid l) (lopts l) (compromised l) (lastUpdate l) false
                   (Some 1000) (Some t) (Some err) in
  mkOut [] (Done (mkMem (locks m) (<[h := l']> (heap m))
                        (<[t := mkPending file opts h 1000]> (timers m))
                        (next_addr m) (S t))) w1.
Proof.
  intros Hh Hr Hl Hnow Hfresh Herr. unfold tick_done. rewrite Hh, Hr.
  rewrite (run_Now E _ _ _ _ Hnow).
  destruct (Z.leb_spec (lastUpdate l) (now - stale opts)); [lia|].
  rewrite Herr. cbv zeta.
  erewrite (updateLock_registered file opts Ret _ h); cycle 1.
  { exact Hl. }
  { unfold store, set_heap. cbn [heap]. apply lookup_insert_eq. }
  cbv zeta. unfold store, set_heap.
  cbn [run locks heap timers next_addr next_timer].
  rewrite insert_insert_eq.
  unfold set_updateTimeout, set_updateDelay, set_updateError.
  cbn [uid lopts compromised lastUpdate released updateDelay updateTimeout
       updateError js_or_opt].
  rewrite Hr. reflexivity.
Qed.

(** The tick whose answers arrive within the threshold, both
    successful, with the token as content. *)
Lemma run_tick_done_renewed file opts h data x m l now w w1 now' w2 :
  heap m !! h = Some l -> released l = false ->
  locks m !! file = Some h ->
  do_now E w = (now, w1) ->
  now - stale opts < lastUpdate l ->
  trim data = uid l ->
  do_now E w1 = (now', w2) ->
  run E (tick_done file opts h (inr (data, x)) m) w =
  let t := next_timer m in
  let l' := mkLock (uid l) (lopts l) (compromised l) now' false
                   (Some (update opts)) (Some t) None in
  mkOut [] (Done (mkMem (locks m) (<[h := l']> (heap m))
                        (<[t := mkPending file opts h (update opts)]> (timers m))
                        (next_addr m) (S t))) w2.
Proof.
  intros Hh Hr Hl Hnow Hfresh Heq Hnow'. unfold tick_done. rewrite Hh, Hr.
  rewrite (run_Now E _ _ _ _ Hnow).
  destruct (Z.leb_spec (lastUpdate l) (now - stale opts)); [lia|].
  rewrite bool_decide_eq_true_2 by assumption. cbn [negb]. destruct x.
  rewrite (run_Now E _ _ _ _ Hnow'). cbv zeta.
  erewrite (updateLock_registered file opts Ret _ h); cycle 1.
  { exact Hl. }
  { unfold store, set_heap. cbn [heap]. apply lookup_insert_eq. }
  cbv zeta. unfold store, set_heap.
  cbn [run locks heap timers next_addr next_timer].
  rewrite insert_insert_eq.
  unfold set_updateTimeout, set_updateDelay, set_updateError, set_lastUpdate.
  cbn [uid lopts compromised lastUpdate released updateDelay updateTimeout
       updateError js_or_opt].
  rewrite Hr. reflexivity.
Qed.

(** The tick whose answers arrive within the threshold with ENOENT. *)
Lemma run_tick_done_missing file opts h err m l now w w1 :
  heap m !! h = Some l -> released l = false ->
  locks m !! file = Some h -> do_normalize E file = file ->
  do_now E w = (now, w1) ->
  now - stale opts < lastUpdate l ->
  is_ENOENT err = true ->
  run E (tick_done file opts h (inl err) m) w =
  let m' := release_mem file h l m in
  let fin := mkOut [OEvent (Compromised h err)]
               (match compromised l with
                | UserHandler => Done m'
                | DefaultThrow => Crashed err m'
                end) in
  let a := do_fs E (Unlink (getUidFile file)) w1 in
  match teardown_error a.1 with
  | Some _ => emit (OCall (Unlink (getUidFile file))) (fin a.2)
  | None =>
    let b := do_fs E (Rmdir (getLockFile file)) a.2 in
    emit (OCall (Unlink (getUidFile file)))
      (emit (OCall (Rmdir (getLockFile file))) (fin b.2))
  end.
Proof.
  intros Hh Hr Hl Hn Hnow Hfresh Herr. unfold tick_done. rewrite Hh, Hr.
  rewrite (run_Now E _ _ _ _ Hnow).
  destruct (Z.leb_spec (lastUpdate l) (now - stale opts)); [lia|].
  rewrite Herr.
  rewrite (run_unlock_held _ _ _ _ _ _ _ Hn Hl Hh).
  rewrite run_removeLock. cbv zeta.
  destruct (teardown_error _).
  - erewrite run_call_compromised by apply release_mem_heap. reflexivity.
  - erewrite run_call_compromised by apply release_mem_heap. reflexivity.
Qed.

End RenewalPaths.

(** X6: a renewal tick of a handle that is not released and is the
    entry that [locks] holds for its path, whose read of the uid file
    and update of the mtime both succeed, whose answers arrive within
    the staleness threshold and whose content, trimmed, is the
    handle's token: [lastUpdate] becomes the current time, the
    remembered error and the retry delay are dropped, the next timer
    is armed with the [update] delay of the options, and nobody is
    notified; the filesystem calls are the read and the [utimes] with
    the time at which the tick started. *)
Theorem tick_renews {W : Type} (E : env W) (w : W)
    (file : string) (opts : options) (h : nat) (m : mem) (l : lockobj)
    (t0 : Z) (w1 : W) (data : list N) (w2 w3 : W) (b : bool) (w4 : W)
    (now : Z) (w5 : W) (now' : Z) (w6 : W) :
  heap m !! h = Some l -> released l = false ->
  locks m !! file = Some h ->
  do_now E w = (t0, w1) ->
  do_fs E (ReadFile (getUidFile file)) w1 = (inr data, w2) ->
  do_fs E (Utimes (getLockFile file) t0 t0) w2 = (inr tt, w3) ->
  do_order E w3 = (b, w4) ->
  do_now E w4 = (now, w5) ->
  now - stale opts < lastUpdate l ->
  trim data = uid l ->
  do_now E w5 = (now', w6) ->
  let o := run E (tick file opts h m) w in
  let t := next_timer m in
  let l' := mkLock (uid l) (lopts l) (compromised l) now' false
                   (Some (update opts)) (Some t) None in
  trace o = [OCall (ReadFile (getUidFile file));
             OCall (Utimes (getLockFile file) t0 t0)] /\
  result o =
    Done (mkMem (locks m) (<[h := l']> (heap m))
                (<[t := mkPending file opts h (update opts)]> (timers m))
                (next_addr m) (S t)) /\
  after o = w6.
Proof.
  intros Hh Hr Hl Hnow0 Hread Hut Hord Hnow Hfresh Heq Hnow'. cbv zeta.
  rewrite (run_tick E _ _ _ _ _ _ _ _ _ _ _ _ _ _ Hh Hnow0 Hread Hut Hord).
  cbn [async_parallel].
  erewrite (run_tick_done_renewed E file opts h data tt _
              (set_updateTimeout None l) now w4 w5 now' w6); cycle 1.
  { unfold store, set_heap. cbn [heap]. apply lookup_insert_eq. }
  { exact Hr. }
  { exact Hl. }
  { exact Hnow. }
  { exact Hfresh. }
  { exact Heq. }
  { exact Hnow'. }
  cbv zeta. unfold store, set_heap.
  cbn [emit trace result after locks heap timers next_addr next_timer
       set_updateTimeout uid lopts compromised].
  rewrite insert_insert_eq. auto.
Qed.

(** X7: when the answers of a tick of a handle that is not released
    and is the entry that [locks] holds for its path arrive within the
    staleness threshold, and the read or the [utimes] failed with an
    error other than not-found, the handle stays held: the error is remembered,
    the next tick is armed one second ahead instead of [update]
    milliseconds, [lastUpdate] is left as it is, nothing is removed and
    nobody is notified. *)
Theorem tick_retries_after_error {W : Type} (E : env W) (w : W)
    (file : string) (opts : options) (h : nat) (err : jserr)
    (m : mem) (l : lockobj) (now : Z) (w1 : W) :
  heap m !! h = Some l -> released l = false ->
  locks m !! file = Some h ->
  do_now E w = (now, w1) ->
  now - stale opts < lastUpdate l ->
  is_ENOENT err = false ->
  let o := run E (tick_done file opts h (inl err) m) w in
  let t := next_timer m in
  let l' := mkLock (uid l) (lopts l) (compromised l) (lastUpdate l) false
                   (Some 1000) (Some t) (Some err) in
  trace o = [] /\
  result o =
    Done (mkMem (locks m) (<[h := l']> (heap m))
                (<[t := mkPending file opts h 1000]> (timers m))
                (next_addr m) (S t)) /\
  after o = w1.
Proof.
  intros Hh Hr Hl Hnow Hfresh Herr. cbv zeta.
  rewrite (run_tick_done_failed E _ _ _ _ _ _ _ _ _ Hh Hr Hl Hnow Hfresh Herr).
  cbv zeta. auto.
Qed.

(** X8: when the answers of a tick of a handle that is not released
    and is the entry that [locks] holds for its path arrive within the
    staleness threshold, and the read or the [utimes] failed with
    not-found (the uid file or the lock directory is gone), the handle
    is released
    locally as by [unlock] (marked released, removed from [locks],
    what is left of the artifact removed, the errors of that removal
    ignored) and the compromise handler is called once with that
    not-found error; no timer is armed. *)
Theorem tick_artifact_missing {W : Type} (E : env W) (w : W)
    (file : string) (opts : options) (h : nat) (err : jserr)
    (m : mem) (l : lockobj) (now : Z) (w1 : W) :
  heap m !! h = Some l -> released l = false ->
  locks m !! file = Some h -> do_normalize E file = file ->
  do_now E w = (now, w1) ->
  now - stale opts < lastUpdate l ->
  is_ENOENT err = true ->
  let o := run E (tick_done file opts h (inl err) m) w in
  let m' := release_mem file h l m in
  events (trace o) = [Compromised h err] /\
  result o = (match compromised l with
              | UserHandler => Done m'
              | DefaultThrow => Crashed err m'
              end) /\
  (calls (trace o) = [Unlink (getUidFile file)] \/
   calls (trace o) = [Unlink (getUidFile file); Rmdir (getLockFile file)]) /\
  heap m' !! h = Some (set_released true l) /\
  locks m' !! file = None /\
  next_timer m' = next_timer m /\
  (forall t, timers m' !! t = None \/ timers m' !! t = timers m !! t).
Proof.
  intros Hh Hr Hl Hn Hnow Hfresh Herr. cbv zeta.
  rewrite (run_tick_done_missing E _ _ _ _ _ _ _ _ _ Hh Hr Hl Hn Hnow Hfresh Herr).
  cbv zeta.
  assert (forall t, timers (release_mem file h l m) !! t = None \/
                    timers (release_mem file h l m) !! t = timers m !! t) as Ht.
  { intros t. unfold release_mem, set_locks, store, set_heap. cbn [timers].
    destruct (updateTimeout l) as [t'|]; [|right; reflexivity].
    unfold clearTimeout, set_timers. cbn [timers].
    rewrite lookup_delete. case_decide; auto. }
  assert (next_timer (release_mem file h l m) = next_timer m) as Hnt.
  { unfold release_mem, set_locks, store, set_heap. cbn [next_timer].
    destruct (updateTimeout l); reflexivity. }
  destruct (teardown_error _);
    cbn [emit trace result events calls omap];
    (split; [reflexivity|]); (split; [reflexivity|]);
    (split; [auto|]);
    (split; [apply release_mem_heap|]);
    (split; [apply release_mem_locks|]);
    (split; [exact Hnt|exact Ht]).
Qed.

(** * The standalone [unlock] and path resolution *)

(** X9: [unlock] of a path whose canonical form this process has not
    registered, and which is not the name of a property that [locks]
    inherits, reports ENOTACQUIRED and removes nothing: with
    [resolve: false] it makes no filesystem call at all, with
    [resolve: true] only the [realpath]; and when that [realpath]
    fails, its error is what the callback gets, held or not, and the
    memory is left as it is. *)
Theorem unlock_not_acquired {W : Type} (E : env W) (w : W)
    (raw file : string) (m : mem) :
  inherited file = false ->
  locks m !! file = None ->
  (do_normalize E raw = file ->
   run E (unlock raw false on_released m) w =
   mkOut [OEvent (ReleasedCb (Some ENOTACQUIRED))] (Done m) w) /\
  (forall w1,
     do_fs E (Realpath raw) w = (inr file, w1) ->
     run E (unlock raw true on_released m) w =
     mkOut [OCall (Realpath raw); OEvent (ReleasedCb (Some ENOTACQUIRED))]
           (Done m) w1) /\
  (forall m2 err w1,
     do_fs E (Realpath raw) w = (inl err, w1) ->
     run E (unlock raw true on_released m2) w =
     mkOut [OCall (Realpath raw); OEvent (ReleasedCb (Some err))] (Done m2) w1).
Proof.
  intros _ Hl. split; [|split].
  - intros Hn. unfold unlock, canonicalPath. cbn [negb run].
    rewrite Hn, Hl. reflexivity.
  - intros w1 Hrp. unfold unlock, canonicalPath. cbn [negb].
    rewrite (run_Fs E _ _ _ _ _ _ Hrp). cbn iota beta. rewrite Hl. reflexivity.
  - intros m2 err w1 Hrp. unfold unlock, canonicalPath. cbn [negb].
    rewrite (run_Fs E _ _ _ _ _ _ Hrp). reflexivity.
Qed.


(** X11: when symlinks are to be resolved (the default) and [realpath]
    of the path fails, [lock] passes that error to its callback after
    that one call: no acquisition is attempted, nothing is registered,
    and the failure is not retried however many [retries] were asked
    for.  On the filesystem model this is what happens for a file that
    does not exist: ENOENT, and nothing is created. *)
Theorem lock_unresolvable {W : Type} (E : env W) (w : W)
    (raw : string) (s : supplied) (comp : option handler) (m : mem) :
  resolve (effective s) = true ->
  (forall err w1,
     do_fs E (Realpath raw) w = (inl err, w1) ->
     run E (lock raw s comp on_lock m) w =
     mkOut [OCall (Realpath raw); OEvent (LockCb (inl err))] (Done m) w1) /\
  (forall v : PosixFs.world,
     PosixFs.fs v !! raw = None ->
     run PosixFs.E (lock raw s comp on_lock m) v =
     mkOut [OCall (Realpath raw);
            OEvent (LockCb (inl (PosixFs.syserr "ENOENT")))] (Done m) v).
Proof.
  intros Hres.
  assert (forall {V : Type} (E' : env V) v err v1,
            do_fs E' (Realpath raw) v = (inl err, v1) ->
            run E' (lock raw s comp on_lock m) v =
            mkOut [OCall (Realpath raw); OEvent (LockCb (inl err))] (Done m) v1)
    as Hgen.
  { intros V E' v err v1 Hrp. unfold lock, canonicalPath. rewrite Hres.
    cbn [negb]. rewrite (run_Fs E' _ _ _ _ _ _ Hrp). reflexivity. }
  split.
  - intros err w1. apply Hgen.
  - intros v Hv. apply Hgen. cbn [do_fs PosixFs.E]. unfold PosixFs.posix.
    rewrite Hv. reflexivity.
Qed.

(** X12: with [resolve: true] the lock is keyed by what [realpath]
    returns, not by the path given: when that resolved path is
    registered in this process, under whatever name it was locked,
    [lock] fails with ELOCKED for the resolved path after the
    [realpath] alone, without any other filesystem call and without a
    change to the memory, whatever the number of retries. *)
Theorem lock_keyed_by_resolved_path {W : Type} (E : env W) (w : W)
    (raw file : string) (s : supplied) (comp : option handler) (m : mem)
    (h : nat) (w1 : W) :
  resolve (effective s) = true ->
  do_fs E (Realpath raw) w = (inr file, w1) ->
  locks m !! file = Some h ->
  let o := run E (lock raw s comp on_lock m) w in
  calls (trace o) = [Realpath raw] /\
  events (trace o) = [LockCb (inl (ELOCKED file))] /\
  result o = Done m.
Proof.
  intros Hres Hrp Hh. cbv zeta. unfold lock, canonicalPath. rewrite Hres.
  cbn [negb]. rewrite (run_Fs E _ _ _ _ _ _ Hrp). cbn iota beta.
  rewrite calls_emit_call, events_emit_call. cbn [emit result].
  destruct (attempt_held E (retry_timeouts (retries (effective s))) []
              file (effective s) (default DefaultThrow comp) m h w1 Hh
              ltac:(constructor)) as (H1 & H2 & H3).
  rewrite H1. auto.
Qed.

(** * On the filesystem model: acquisition, reclaim, renewal *)

Section PosixPaths.
Import PosixFs PosixFacts.

Lemma string_length_app (a b : string) :
  String.length (a +:+ b) = (String.length a + String.length b)%nat.
Proof.
  induction a as [|c a IH]; [reflexivity|].
  change (String c a +:+ b) with (String c (a +:+ b)).
  cbn [String.length]. rewrite IH. reflexivity.
Qed.

Lemma parent_shorter (p q : string) :
  parent p = Some q -> (String.length q < String.length p)%nat.
Proof.
  revert q. induction p as [|c r IH]; intros q; cbn [parent]; [discriminate|].
  destruct (parent r) as [q'|].
  - intros [= <-]. cbn [String.length]. specialize (IH q' eq_refl). lia.
  - destruct (Ascii.eqb _ _); [|discriminate]. intros [= <-]. cbn. lia.
Qed.

(** Removing the artifact does not remove the directory it lies in. *)
Lemma parent_error_removed (f : gmap string node) (file : string) :
  parent_error (delete (getLockFile file) (delete (getUidFile file) f))
    (getLockFile file) =
  parent_error f (getLockFile file).
Proof.
  unfold parent_error.
  destruct (parent (getLockFile file)) as [q|] eqn:Hq; [|reflexivity].
  destruct q as [|c q']; [reflexivity|]. apply parent_shorter in Hq.
  rewrite !lookup_delete_ne; [reflexivity| |].
  - intros H. rewrite <- H in Hq. unfold getUidFile in Hq.
    rewrite string_length_app in Hq. lia.
  - intros H. rewrite <- H in Hq. lia.
Qed.

Lemma artifact_removed (f : gmap string node) (file : string) :
  artifact_wf f file ->
  no_artifact (delete (getLockFile file) (delete (getUidFile file) f)) file.
Proof.
  intros (_ & _ & Hrest). split; [apply lookup_delete_eq|].
  intros q n Hq.
  destruct (String.prefix (getLockFile file +:+ "/") q) eqn:Hp; [|reflexivity].
  exfalso. rewrite lookup_delete in Hq. case_decide; [discriminate|].
  rewrite lookup_delete in Hq. case_decide as Hd; [discriminate|].
  apply Hd. symmetry. exact (Hrest q n Hq Hp).
Qed.

Lemma no_artifact_wf (f : gmap string node) (file : string) :
  no_artifact f file -> artifact_wf f file.
Proof.
  intros Hno. pose proof (no_artifact_uid f file Hno) as Hu.
  destruct Hno as [Hl Hall]. split; [|split].
  - intros t. rewrite Hu. discriminate.
  - intros t d. rewrite Hl. discriminate.
  - intros q n Hq Hp. apply Hall in Hq. congruence.
Qed.

Lemma with_artifact_other file t u f q :
  q <> getUidFile file -> q <> getLockFile file ->
  with_artifact file t u f !! q = f !! q.
Proof.
  intros H1 H2. unfold with_artifact.
  rewrite !lookup_insert_ne by congruence. reflexivity.
Qed.

(** The contended path of [acquireLock] up to the staleness test. *)
Lemma run_acquire_contended {W : Type} (E' : env W)
    fuel file opts cb m w e w1 mtime w2 now w3 :
  locks m !! file = None ->
  do_fs E' (Mkdir (getLockFile file)) w = (inl e, w1) ->
  0 < stale opts ->
  do_fs E' (Stat (getLockFile file)) w1 = (inr mtime, w2) ->
  do_now E' w2 = (now, w3) ->
  run E' (acquireLock (S (S fuel)) file opts cb m) w =
  emit (OCall (Mkdir (getLockFile file)))
    (emit (OCall (Stat (getLockFile file)))
       (if mtime >=? now - stale opts
        then run E' (cb (inl (ELOCKED file)) m) w3
        else run E' (removeLock file (fun r m' =>
               match r with
               | Some err => cb (inl err) m'
               | None => acquireLock (S fuel) file (set_stale 0 opts) cb m'
               end) m) w3)).
Proof.
  intros Hl Hmk Hst Hstat Hnow.
  match goal with |- _ = ?R => set (rhs := R) end.
  cbn [acquireLock]. rewrite Hl.
  rewrite (run_Fs E' _ _ _ _ _ _ Hmk). cbn iota beta.
  destruct (Z.leb_spec (stale opts) 0) as [?|_]; [lia|].
  rewrite (run_Fs E' _ _ _ _ _ _ Hstat). cbn iota beta.
  rewrite (run_Now E' _ _ _ _ Hnow).
  subst rhs. destruct (mtime >=? now - stale opts); reflexivity.
Qed.

(** An acquisition that finds a lock directory younger than the
    threshold, or exactly as old. *)
Lemma posix_acquire_fresh_held (w : world) fuel file opts cb (m : mem) t :
  locks m !! file = None ->
  fs w !! getLockFile file = Some (Dir t) ->
  0 < stale opts -> clock w - t <= stale opts ->
  run E (acquireLock (S (S fuel)) file opts cb m) w =
  emit (OCall (Mkdir (getLockFile file)))
    (emit (OCall (Stat (getLockFile file)))
       (run E (cb (inl (ELOCKED file)) m) w)).
Proof.
  intros Hl Hd Hst Hage.
  rewrite (run_acquire_contended E fuel file opts cb m w (syserr "EEXIST") w
             t w (clock w) w Hl); [|
    cbn [do_fs E]; unfold posix; rewrite Hd; reflexivity | exact Hst |
    cbn [do_fs E]; unfold posix; rewrite Hd; reflexivity | reflexivity].
  destruct (Z.geb_spec t (clock w - stale opts)); [reflexivity|lia].
Qed.

End PosixPaths.

(** ** Normalized paths *)

Section Normalized.
Import PosixFs.

Lemma run_path_free (p : proc) :
  path_free p -> forall w, run Enorm p w = run E p w.
Proof.
  induction 1 as [m|e m| |ev k _ IH|k _ IH|k _ IH|m c k _ IH|m c1 c2 k _ IH
                 |m ms k _ IH]; intros w; cbn [run];
    try reflexivity.
  - rewrite IH. reflexivity.
  - apply IH.
  - apply IH.
  - cbn [do_fs Enorm E]. rewrite IH. reflexivity.
  - cbv zeta. cbn [do_fs do_order Enorm E]. rewrite IH. reflexivity.
  - cbn [do_sleep Enorm E]. rewrite IH. reflexivity.
Qed.

Lemma removeLock_path_free file cb m :
  (forall r m', path_free (cb r m')) -> path_free (removeLock file cb m).
Proof.
  intros Hcb. unfold removeLock. constructor. intros [e|[]] m'.
  - destruct (negb (is_ENOENT e)); [apply Hcb|].
    constructor. intros [e'|[]] m''; [destruct (negb (is_ENOENT e'))|]; apply Hcb.
  - constructor. intros [e'|[]] m''; [destruct (negb (is_ENOENT e'))|]; apply Hcb.
Qed.

Lemma acquireLock_path_free fuel file opts cb :
  (forall r m', path_free (cb r m')) ->
  forall m, path_free (acquireLock fuel file opts cb m).
Proof.
  intros Hcb. revert opts.
  induction fuel as [|fuel IH]; intros opts m; [constructor|].
  cbn [acquireLock]. destruct (locks m !! file); [apply Hcb|].
  constructor. intros [e|[]] m1.
  - destruct (stale opts <=? 0); [apply Hcb|].
    constructor. intros [e'|mtime] m2.
    + destruct (is_ENOENT e'); [apply IH|apply Hcb].
    + constructor. intros now.
      destruct (mtime >=? now - stale opts); [apply Hcb|].
      apply removeLock_path_free. intros [err|] m3; [apply Hcb|apply IH].
  - constructor. intros u. constructor. intros [e|[]] m2; [|apply Hcb].
    apply removeLock_path_free. intros _ m3. apply Hcb.
Qed.

Lemma acquired_path_free file opts comp cb u m :
  (forall r m', path_free (cb r m')) ->
  path_free (acquired file opts comp cb u m).
Proof.
  intros Hcb. unfold acquired. constructor. intros now. cbv zeta.
  unfold updateLock. cbn [locks heap]. rewrite !lookup_insert_eq.
  unfold setTimeout. apply Hcb.
Qed.

Lemma attempt_path_free file opts comp cb timeouts :
  (forall r m', path_free (cb r m')) ->
  forall errors m, path_free (attempt timeouts errors file opts comp cb m).
Proof.
  intros Hcb. induction timeouts as [|t ts IH]; intros errors m.
  - cbn [attempt]. apply acquireLock_path_free. intros [err|u] m1;
      [apply Hcb|apply acquired_path_free, Hcb].
  - cbn [attempt]. apply acquireLock_path_free. intros [err|u] m1;
      [|apply acquired_path_free, Hcb].
    constructor. intros m2. apply IH.
Qed.

(** At a normalized path [lock] runs on [Enorm] as it does on [E]. *)
Lemma lock_on_normal_path (w : world) file s comp (m : mem) :
  normalize file = file ->
  run Enorm (lock file s comp on_lock m) w = run E (lock file s comp on_lock m) w.
Proof.
  intros Hn.
  assert (forall r m', path_free (on_lock r m')) as Hcb
    by (intros r m'; constructor; constructor).
  unfold lock, canonicalPath. destruct (negb (resolve (effective s))).
  - cbn [run do_normalize Enorm E]. rewrite Hn.
    apply run_path_free, attempt_path_free, Hcb.
  - apply run_path_free. constructor. intros [err|file'] m1;
      [apply Hcb|apply attempt_path_free, Hcb].
Qed.

End Normalized.

Section PosixTheorems.
Import PosixFs PosixFacts.

(** X13: on the filesystem model, [lock] on a normalized path (one
    whose uid file path is normalized as well, which leaves out [./])
    that is not the name of a property that [locks] inherits, without
    artifact and not held by this process, in an existing directory
    (and, with [resolve: true], the absolute path of an existing file)
    succeeds at the first attempt: afterwards the lock directory and the uid file exist with
    the time of the call as mtime, the uid file holds exactly the token
    that the registered lock object remembers, every other entry of the
    filesystem is as before, and the callback got the release function
    of that object. *)
Theorem posix_lock_creates_artifact (w : world) (file : string)
    (s : supplied) (comp : option handler) (m : mem) :
  inherited file = false -> normalize file = file ->
  normalize (getUidFile file) = getUidFile file ->
  no_artifact (fs w) file ->
  locks m !! file = None ->
  parent_error (fs w) (getLockFile file) = None ->
  (resolve (effective s) = true ->
   String.prefix "/" file = true /\ is_Some (fs w !! file)) ->
  let o := run Enorm (lock file s comp on_lock m) w in
  let h := next_addr m in
  events (trace o) = [LockCb (inr (mkReleaser file (effective s) h))] /\
  fs (after o) = with_artifact file (clock w) (next_uuid w).1 (fs w) /\
  exists m' l,
    result o = Done m' /\ locks m' !! file = Some h /\
    heap m' !! h = Some l /\ released l = false /\ lastUpdate l = clock w /\
    fs (after o) !! getUidFile file = Some (File (clock w) (uid l)) /\
    fs (after o) !! getLockFile file = Some (Dir (clock w)) /\
    (forall q, q <> getUidFile file -> q <> getLockFile file ->
       fs (after o) !! q = fs w !! q).
Proof.
  intros _ Hnorm _ Hno Hl Hp Hex. cbv zeta.
  rewrite (lock_on_normal_path w file s comp m Hnorm).
  set (opts := effective s). set (hd := default DefaultThrow comp).
  set (u := (next_uuid w).1).
  set (w1 := with_fs (with_artifact file (clock w) u (fs w)) (next_uuid w).2).
  assert (run E (attempt (retry_timeouts (retries opts)) [] file opts hd on_lock m) w =
          emit (OCall (Mkdir (getLockFile file)))
            (emit (OCall (WriteFile (getUidFile file) u))
               (run E (acquired file opts hd on_lock u m) w1))) as Hatt.
  { destruct (retry_timeouts (retries opts)); cbn [attempt];
      rewrite (posix_acquire_fresh _ _ _ _ _ _ Hno Hl Hp); reflexivity. }
  rewrite (run_acquired E file opts hd on_lock u m w1 (clock w1) w1 eq_refl)
    in Hatt.
  cbv zeta in Hatt.
  assert (clock w1 = clock w) as Hck
    by (unfold w1; cbn [clock with_fs]; apply next_uuid_clock).
  assert (forall o : outcome world,
            o = run E (attempt (retry_timeouts (retries opts)) [] file opts hd
                         on_lock m) w ->
            events (trace o) = [LockCb (inr (mkReleaser file opts (next_addr m)))] /\
            fs (after o) = with_artifact file (clock w) u (fs w) /\
            exists m' l,
              result o = Done m' /\ locks m' !! file = Some (next_addr m) /\
              heap m' !! next_addr m = Some l /\ released l = false /\
              lastUpdate l = clock w /\
              fs (after o) !! getUidFile file = Some (File (clock w) (uid l)) /\
              fs (after o) !! getLockFile file = Some (Dir (clock w)) /\
              (forall q, q <> getUidFile file -> q <> getLockFile file ->
                 fs (after o) !! q = fs w !! q)) as Hmain.
  { intros o ->. rewrite Hatt.
    cbn [run on_lock emit trace result after events omap fs w1 with_fs].
    split; [reflexivity|]. split; [reflexivity|].
    eexists _, _. split; [reflexivity|].
    unfold registered. cbn [locks heap]. rewrite !lookup_insert_eq.
    split; [reflexivity|]. split; [reflexivity|].
    cbn [released lastUpdate uid].
    split; [reflexivity|]. split; [exact Hck|].
    split; [unfold with_artifact; apply lookup_insert_eq|].
    split.
    - unfold with_artifact.
      rewrite lookup_insert_ne by apply uid_neq_lock.
      apply lookup_insert_eq.
    - intros q H1 H2. apply with_artifact_other; assumption. }
  unfold lock, canonicalPath. fold opts hd.
  destruct (resolve opts) eqn:Hres; cbn [negb].
  - destruct (Hex Hres) as [_ [n Hfile]].
    assert (do_fs E (Realpath file) w = (inr file, w)) as Hrp.
    { cbn [do_fs E]. unfold posix. rewrite Hfile. reflexivity. }
    rewrite (run_Fs E _ _ _ _ _ _ Hrp). cbn iota beta.
    rewrite events_emit_call. cbn [emit after result].
    exact (Hmain _ eq_refl).
  - cbn [run do_normalize E]. exact (Hmain _ eq_refl).
Qed.

(** X14: on the filesystem model, an acquisition that finds a lock
    directory older than the threshold, holding nothing but possibly a
    uid file (a holder that died, also one that died between [mkdir]
    and the write of its token), reclaims it: the old artifact is
    removed, a new one created with a new token and the time of the
    call, and the callback gets that token; six calls in all, and
    the rest of the filesystem untouched. *)
Theorem posix_reclaims_stale (w : world) (fuel : nat) (file : string)
    (opts : options) (m : mem) (t0 : Z) :
  artifact_wf (fs w) file ->
  fs w !! getLockFile file = Some (Dir t0) ->
  locks m !! file = None ->
  parent_error (fs w) (getLockFile file) = None ->
  0 < stale opts -> stale opts < clock w - t0 ->
  let o := run E (acquireLock (S (S fuel)) file opts on_acquire m) w in
  let u := (next_uuid w).1 in
  trace o = [OCall (Mkdir (getLockFile file)); OCall (Stat (getLockFile file));
             OCall (Unlink (getUidFile file)); OCall (Rmdir (getLockFile file));
             OCall (Mkdir (getLockFile file));
             OCall (WriteFile (getUidFile file) u);
             OEvent (AcquireCb (inr u))] /\
  result o = Done m /\
  fs (after o) !! getUidFile file = Some (File (clock w) u) /\
  fs (after o) !! getLockFile file = Some (Dir (clock w)) /\
  (forall q, q <> getUidFile file -> q <> getLockFile file ->
     fs (after o) !! q = fs w !! q).
Proof.
  intros Hwf Hd Hl Hp Hst Hage. cbv zeta.
  rewrite (run_acquire_contended E fuel file opts on_acquire m w
             (syserr "EEXIST") w t0 w (clock w) w Hl); [|
    cbn [do_fs E]; unfold posix; rewrite Hd; reflexivity | exact Hst |
    cbn [do_fs E]; unfold posix; rewrite Hd; reflexivity | reflexivity].
  destruct (Z.geb_spec t0 (clock w - stale opts)); [lia|].
  rewrite (posix_removeLock _ _ _ _ Hwf).
  set (f1 := delete (getLockFile file) (delete (getUidFile file) (fs w))).
  rewrite (posix_acquire_fresh (with_fs f1 w) fuel file (set_stale 0 opts)
             on_acquire m); cycle 1.
  { apply artifact_removed, Hwf. }
  { exact Hl. }
  { cbn [fs with_fs]. unfold f1. rewrite parent_error_removed. exact Hp. }
  cbv zeta. rewrite next_uuid_with_fs.
  cbn [run on_acquire emit trace result after fs with_fs fst snd clock].
  split; [reflexivity|]. split; [reflexivity|].
  split; [unfold with_artifact; apply lookup_insert_eq|]. split.
  - unfold with_artifact.
    rewrite lookup_insert_ne by apply uid_neq_lock.
    apply lookup_insert_eq.
  - intros q H1 H2. rewrite with_artifact_other by assumption.
    unfold f1. rewrite !lookup_delete_ne by congruence. reflexivity.
Qed.

(** X15: on the filesystem model, a renewal tick on a held lock whose
    artifact is in place sets the mtime of the lock directory to the
    time of the tick and changes nothing else on disk; from then on
    an acquisition by any other process, whatever its threshold, fails
    with ELOCKED without touching the artifact as long as no more than
    its threshold has passed since the tick. *)
Theorem posix_renewal_keeps_fresh (w : world) (file : string)
    (opts : options) (h : nat) (m : mem) (l : lockobj)
    (tu td : Z) (data : list N) :
  heap m !! h = Some l -> released l = false ->
  locks m !! file = Some h ->
  fs w !! getUidFile file = Some (File tu data) ->
  trim data = uid l ->
  fs w !! getLockFile file = Some (Dir td) ->
  clock w - stale opts < lastUpdate l ->
  let o := run E (tick file opts h m) w in
  events (trace o) = [] /\
  fs (after o) = <[getLockFile file := Dir (clock w)]> (fs w) /\
  (exists m' l',
     result o = Done m' /\ locks m' !! file = Some h /\
     heap m' !! h = Some l' /\ released l' = false /\
     lastUpdate l' = clock w) /\
  (forall (m2 : mem) (opts2 : options) (fuel : nat) (w2 : world),
     locks m2 !! file = None -> fs w2 = fs (after o) ->
     0 < stale opts2 -> clock w2 - clock w <= stale opts2 ->
     run E (acquireLock (S (S fuel)) file opts2 on_acquire m2) w2 =
     mkOut [OCall (Mkdir (getLockFile file)); OCall (Stat (getLockFile file));
            OEvent (AcquireCb (inl (ELOCKED file)))] (Done m2) w2).
Proof.
  intros Hh Hr Hl Hu Heq Hd Hfresh. cbv zeta.
  set (w1 := with_fs (<[getLockFile file := Dir (clock w)]> (fs w)) w).
  assert (run E (tick file opts h m) w =
          emit (OCall (ReadFile (getUidFile file)))
            (emit (OCall (Utimes (getLockFile file) (clock w) (clock w)))
               (run E (tick_done file opts h (inr (data, tt))
                         (store h (set_updateTimeout None l) m)) w1))) as ->.
  { apply (run_tick E file opts h m l w (clock w) w (inr data) w (inr tt) w1
             (read_first w1) w1 Hh eq_refl).
    - cbn [do_fs E]. unfold posix. rewrite Hu. reflexivity.
    - cbn [do_fs E]. unfold posix. rewrite Hd. reflexivity.
    - reflexivity. }
  rewrite (run_tick_done_renewed E file opts h data tt _
             (set_updateTimeout None l) (clock w) w1 w1 (clock w) w1); cycle 1.
  { unfold store, set_heap. cbn [heap]. apply lookup_insert_eq. }
  { exact Hr. }
  { exact Hl. }
  { reflexivity. }
  { exact Hfresh. }
  { exact Heq. }
  { reflexivity. }
  cbv zeta. cbn [emit trace result after events omap fs w1 with_fs].
  split; [reflexivity|]. split; [reflexivity|]. split.
  - eexists _, _. split; [reflexivity|]. cbn [locks heap].
    split; [exact Hl|]. split; [apply lookup_insert_eq|].
    split; reflexivity.
  - intros m2 opts2 fuel w2 Hl2 Hfs Hst Hage.
    rewrite (posix_acquire_fresh_held w2 fuel file opts2 on_acquire m2 (clock w));
      [reflexivity|exact Hl2| |exact Hst|exact Hage].
    rewrite Hfs. apply lookup_insert_eq.
Qed.

End PosixTheorems.

(** * What [lock] and a tick do to the memory, in every case *)

Lemma ends_run {W : Type} (E : env W) (P : event -> mem -> Prop) (p : proc) :
  ends P p ->
  forall w, exists ev m,
    events (trace (run E p w)) = [ev] /\ result (run E p w) = Done m /\ P ev m.
Proof.
  induction 1 as [ev m HP|k _ IH|k _ IH|p k _ IH|m c k _ IH|m c1 c2 k _ IH
                 |m ms k _ IH]; intros w; cbn [run].
  - exists ev, m. cbn. auto.
  - apply IH.
  - apply IH.
  - apply IH.
  - destruct (IH (do_fs E c w).1 (do_fs E c w).2) as (ev & m1 & H1 & H2 & H3).
    exists ev, m1. rewrite events_emit_call. cbn [emit result]. auto.
  - cbv zeta.
    destruct (IH (async_parallel (do_fs E c1 w).1
                    (do_fs E c2 (do_fs E c1 w).2).1
                    (do_order E (do_fs E c2 (do_fs E c1 w).2).2).1)
                 (do_order E (do_fs E c2 (do_fs E c1 w).2).2).2)
      as (ev & m1 & H1 & H2 & H3).
    exists ev, m1. rewrite !events_emit_call. cbn [emit result]. auto.
  - destruct (IH (do_sleep E ms w)) as (ev & m1 & H1 & H2 & H3).
    exists ev, m1. cbn [emit trace result events omap]. auto.
Qed.

Section Ends.
Context (P : event -> mem -> Prop).

Lemma removeLock_ends file cb m :
  (forall r, ends P (cb r m)) -> ends P (removeLock file cb m).
Proof.
  intros Hcb. unfold removeLock. constructor. intros [e|[]].
  - destruct (negb (is_ENOENT e)); [apply Hcb|].
    constructor. intros [e'|[]]; [destruct (negb (is_ENOENT e'))|]; apply Hcb.
  - constructor. intros [e'|[]]; [destruct (negb (is_ENOENT e'))|]; apply Hcb.
Qed.

Lemma acquire_once_ends file cb m :
  (forall err, ends P (cb (inl err) m)) ->
  (locks m !! file = None -> forall u, ends P (cb (inr u) m)) ->
  ends P (acquire_once file cb m).
Proof.
  intros Herr Hok. unfold acquire_once.
  destruct (locks m !! file) eqn:Hl; [apply Herr|].
  constructor. intros [e|[]]; [apply Herr|].
  constructor. intros u. constructor. intros [e|[]].
  - apply removeLock_ends. intros _. apply Herr.
  - apply Hok. reflexivity.
Qed.

Lemma acquireLock_ends fuel file opts cb m :
  (forall err, ends P (cb (inl err) m)) ->
  (locks m !! file = None -> forall u, ends P (cb (inr u) m)) ->
  ends P (acquireLock (S (S fuel)) file opts cb m).
Proof.
  intros Herr Hok. cbn [acquireLock].
  destruct (locks m !! file) eqn:Hl; [apply Herr|].
  constructor. intros [e|[]].
  - destruct (stale opts <=? 0); [apply Herr|].
    constructor. intros [e'|mtime].
    + destruct (is_ENOENT e'); [|apply Herr].
      change (ends P (acquire_once file cb m)).
      apply acquire_once_ends; [exact Herr|]. intros _. apply Hok. reflexivity.
    + constructor. intros now.
      destruct (mtime >=? now - stale opts); [apply Herr|].
      apply removeLock_ends. intros [err|]; [apply Herr|].
      change (ends P (acquire_once file cb m)).
      apply acquire_once_ends; [exact Herr|]. intros _. apply Hok. reflexivity.
  - constructor. intros u. constructor. intros [e|[]].
    + apply removeLock_ends. intros _. apply Herr.
    + apply Hok. reflexivity.
Qed.

Lemma acquired_ends file opts comp cb u m :
  (forall now,
     ends P (cb (inr (mkReleaser file opts (next_addr m)))
               (registered file opts comp u now m))) ->
  ends P (acquired file opts comp cb u m).
Proof.
  intros Hcb. unfold acquired. constructor. intros now. cbv zeta.
  unfold updateLock. cbn [locks heap]. rewrite !lookup_insert_eq.
  unfold setTimeout, store, set_heap.
  cbn [locks heap timers next_addr next_timer].
  rewrite insert_insert_eq.
  unfold set_updateTimeout, set_updateDelay.
  cbn [uid lopts compromised lastUpdate released updateDelay updateTimeout
       updateError js_or_opt].
  apply Hcb.
Qed.

Lemma attempt_ends file opts comp cb m timeouts :
  (forall err, ends P (cb (inl err) m)) ->
  (locks m !! file = None -> forall u now,
     ends P (cb (inr (mkReleaser file opts (next_addr m)))
               (registered file opts comp u now m))) ->
  forall errors, ends P (attempt timeouts errors file opts comp cb m).
Proof.
  intros Herr Hok. induction timeouts as [|t ts IH]; intros errors.
  - cbn [attempt]. apply acquireLock_ends.
    + intros err. apply Herr.
    + intros Hl u. apply acquired_ends. intros now. apply Hok, Hl.
  - cbn [attempt]. apply acquireLock_ends.
    + intros err. constructor. apply IH.
    + intros Hl u. apply acquired_ends. intros now. apply Hok, Hl.
Qed.

End Ends.

(** X16: [lock] is all or nothing on the memory of the process,
    whatever the filesystem answers and whatever the options are.
    Either its callback gets an error, and then the memory is exactly
    as before (no lock object, no entry in [locks], no timer); or it
    gets a release function, and then exactly one lock object was
    added, registered under a canonical path that was not registered
    before, with one armed timer, everything else unchanged. *)
Theorem lock_all_or_nothing {W : Type} (E : env W) (w : W)
    (file : string) (s : supplied) (comp : option handler) (m : mem) :
  let o := run E (lock file s comp on_lock m) w in
  let opts := effective s in
  (exists err, events (trace o) = [LockCb (inl err)] /\ result o = Done m) \/
  (exists file' u now,
     locks m !! file' = None /\
     events (trace o) = [LockCb (inr (mkReleaser file' opts (next_addr m)))] /\
     result o =
       Done (registered file' opts (default DefaultThrow comp) u now m)).
Proof.
  cbv zeta.
  set (P := fun (ev : event) (m' : mem) =>
    (exists err, ev = LockCb (inl err) /\ m' = m) \/
    (exists file' u now,
       locks m !! file' = None /\
       ev = LockCb (inr (mkReleaser file' (effective s) (next_addr m))) /\
       m' = registered file' (effective s) (default DefaultThrow comp) u now m)).
  assert (ends P (lock file s comp on_lock m)) as H.
  { assert (forall err, ends P (on_lock (inl err) m)) as Herr.
    { intros err. constructor. left. exists err. auto. }
    assert (forall file',
              ends P (attempt (retry_timeouts (retries (effective s))) [] file'
                        (effective s) (default DefaultThrow comp) on_lock m))
      as Hatt.
    { intros file'. apply attempt_ends; [exact Herr|].
      intros Hl u now. constructor. right. exists file', u, now. auto. }
    unfold lock, canonicalPath. destruct (negb (resolve (effective s))).
    - constructor. intros q. apply Hatt.
    - constructor. intros [err|file']; [apply Herr|apply Hatt]. }
  destruct (ends_run E P _ H w) as (ev & m' & H1 & H2 & [HP|HP]).
  - left. destruct HP as (err & -> & ->). exists err. auto.
  - right. destruct HP as (file' & u & now & Hl & -> & ->).
    exists file', u, now. auto.
Qed.

(** X17: a tick of a live, registered handle ends in one of two ways,
    whatever the filesystem answered and whatever the clock shows.
    Either the handle stays held: nobody is notified, [locks] is
    unchanged and exactly one new timer is armed for the handle, with
    the [update] delay or with one second.  Or the handle is given up:
    the compromise handler is called exactly once, the lock object is
    marked released and removed from [locks], and no timer is armed.
    Never both, and never neither. *)
Theorem tick_rearms_or_compromises {W : Type} (E : env W) (w : W)
    (file : string) (opts : options) (h : nat)
    (res : jserr + list N * unit) (m : mem) (l : lockobj) :
  heap m !! h = Some l -> released l = false ->
  locks m !! file = Some h -> do_normalize E file = file ->
  let o := run E (tick_done file opts h res m) w in
  (events (trace o) = [] /\ calls (trace o) = [] /\
   exists m' l' d,
     result o = Done m' /\ heap m' !! h = Some l' /\ released l' = false /\
     locks m' = locks m /\ updateTimeout l' = Some (next_timer m) /\
     timers m' = <[next_timer m := mkPending file opts h d]> (timers m) /\
     (d = update opts \/ d = 1000)) \/
  (exists err m',
     events (trace o) = [Compromised h err] /\
     (result o = Done m' \/ result o = Crashed err m') /\
     heap m' !! h = Some (set_released true l) /\
     locks m' !! file = None /\
     next_timer m' = next_timer m /\
     (forall t, timers m' !! t = None \/ timers m' !! t = timers m !! t)).
Proof.
  intros Hh Hr Hl Hn. cbv zeta.
  destruct (do_now E w) as [now w1] eqn:Hnow.
  assert (forall t, timers (release_mem file h l m) !! t = None \/
                    timers (release_mem file h l m) !! t = timers m !! t) as Ht.
  { intros t. unfold release_mem, set_locks, store, set_heap. cbn [timers].
    destruct (updateTimeout l) as [t'|]; [|right; reflexivity].
    unfold clearTimeout, set_timers. cbn [timers].
    rewrite lookup_delete. case_decide; auto. }
  assert (next_timer (release_mem file h l m) = next_timer m) as Hnt.
  { unfold release_mem, set_locks, store, set_heap. cbn [next_timer].
    destruct (updateTimeout l); reflexivity. }
  destruct (Z.leb_spec (lastUpdate l) (now - stale opts)) as [Hover|Hfresh].
  - (* overdue *)
    right. exists (default EUPDATE (updateError l)), (release_mem file h l m).
    rewrite (run_tick_done_overdue E _ _ _ res _ _ _ _ _ Hh Hr Hl Hn Hnow Hover).
    cbv zeta.
    destruct (teardown_error _); cbn [emit trace result events omap];
      (split; [reflexivity|]);
      (split; [destruct (compromised l); auto|]);
      (split; [apply release_mem_heap|]);
      (split; [apply release_mem_locks|]);
      (split; [exact Hnt|exact Ht]).
  - destruct res as [err|[data x]].
    + destruct (is_ENOENT err) eqn:Herr.
      * (* the artifact is gone *)
        right. exists err, (release_mem file h l m).
        rewrite (run_tick_done_missing E _ _ _ _ _ _ _ _ _
                   Hh Hr Hl Hn Hnow Hfresh Herr).
        cbv zeta.
        destruct (teardown_error _); cbn [emit trace result events omap];
          (split; [reflexivity|]);
          (split; [destruct (compromised l); auto|]);
          (split; [apply release_mem_heap|]);
          (split; [apply release_mem_locks|]);
          (split; [exact Hnt|exact Ht]).
      * (* a transient failure *)
        left.
        rewrite (run_tick_done_failed E _ _ _ _ _ _ _ _ _
                   Hh Hr Hl Hnow Hfresh Herr).
        cbv zeta. cbn [trace result events calls omap].
        split; [reflexivity|]. split; [reflexivity|].
        eexists _, _, 1000. split; [reflexivity|]. cbn [heap locks timers].
        rewrite lookup_insert_eq. cbn [released updateTimeout]. auto 10.
    + destruct (decide (trim data = uid l)) as [Heq|Hne].
      * (* renewed *)
        left. destruct (do_now E w1) as [now' w2] eqn:Hnow'.
        rewrite (run_tick_done_renewed E _ _ _ _ _ _ _ _ _ _ _ _
                   Hh Hr Hl Hnow Hfresh Heq Hnow').
        cbv zeta. cbn [trace result events calls omap].
        split; [reflexivity|]. split; [reflexivity|].
        eexists _, _, (update opts). split; [reflexivity|].
        cbn [heap locks timers].
        rewrite lookup_insert_eq. cbn [released updateTimeout]. auto 10.
      * (* another party's token *)
        right.
        exists EMISMATCH,
          (set_locks (delete file) (store h (set_released true l) m)).
        destruct x.
        rewrite (run_tick_done_mismatch E _ _ _ _ _ _ _ _ _ _
                   Hh Hr Hnow Hfresh Hne).
        cbv zeta. cbn [trace result events omap].
        split; [reflexivity|].
        split; [destruct (compromised l); auto|].
        unfold set_locks, store, set_heap.
        cbn [heap locks timers next_timer].
        split; [apply lookup_insert_eq|].
        split; [apply lookup_delete_eq|].
        split; [reflexivity|]. intros t. right. reflexivity.
Qed.

(** * On the filesystem model: a missing directory, and teardown *)

Lemma sleeps_emit_call {W : Type} (c : fscall) (o : outcome W) :
  sleeps (trace (emit (OCall c) o)) = sleeps (trace o).
Proof. reflexivity. Qed.

Lemma calls_emit_sleep {W : Type} (ms : Z) (o : outcome W) :
  calls (trace (emit (OSleep ms) o)) = calls (trace o).
Proof. reflexivity. Qed.

Lemma events_emit_sleep {W : Type} (ms : Z) (o : outcome W) :
  events (trace (emit (OSleep ms) o)) = events (trace o).
Proof. reflexivity. Qed.

Lemma sleeps_emit_sleep {W : Type} (ms : Z) (o : outcome W) :
  sleeps (trace (emit (OSleep ms) o)) = ms :: sleeps (trace o).
Proof. reflexivity. Qed.

Section PosixEdges.
Import PosixFs PosixFacts.

Lemma posix_attempt_missing_dir file opts comp (m : mem) e timeouts :
  locks m !! file = None -> 0 < stale opts ->
  forall errors (w : world),
    Forall (eq (ELOCKED file)) errors ->
    fs w !! getLockFile file = None ->
    parent_error (fs w) (getLockFile file) = Some e ->
    let o := run E (attempt timeouts errors file opts comp on_lock m) w in
    events (trace o) = [LockCb (inl (ELOCKED file))] /\
    result o = Done m /\ fs (after o) = fs w /\
    calls (trace o) =
      concat (replicate (S (length timeouts))
                [Mkdir (getLockFile file); Stat (getLockFile file);
                 Mkdir (getLockFile file)]) /\
    sleeps (trace o) = timeouts.
Proof.
  intros Hl Hst. induction timeouts as [|t ts IH]; intros errors w Herr Hlk Hp.
  - cbv zeta. cbn [attempt].
    rewrite (posix_acquire_blocked _ _ _ _ _ _ _ Hlk Hl Hp Hst).
    unfold mainError. rewrite (mainError_from_same (ELOCKED file)); cycle 1.
    { constructor. }
    { apply Forall_app. split; [assumption|]. constructor; [reflexivity|constructor]. }
    { cbn; lia. }
    destruct errors; cbn; auto.
  - cbv zeta. cbn [attempt].
    rewrite (posix_acquire_blocked _ _ _ _ _ _ _ Hlk Hl Hp Hst).
    cbn [run]. rewrite !events_emit_call, !calls_emit_call, !sleeps_emit_call.
    rewrite events_emit_sleep, calls_emit_sleep, sleeps_emit_sleep.
    cbn [emit result after].
    specialize (IH (errors ++ [ELOCKED file])%list (sleep t w)).
    cbv zeta in IH. destruct IH as (IH1 & IH2 & IH3 & IH4 & IH5).
    { apply Forall_app. split; [assumption|]. constructor; [reflexivity|constructor]. }
    { exact Hlk. }
    { exact Hp. }
    cbn [do_sleep E].
    split; [exact IH1|]. split; [exact IH2|]. split; [exact IH3|].
    split; [rewrite IH4; reflexivity|rewrite IH5; reflexivity].
Qed.

(** X18: on the filesystem model, [lock] with [resolve: false] on a
    normalized path whose directory does not exist (or is not a
    directory)
    reports ELOCKED, "already being hold", although no lock exists:
    every failure of [mkdir] is taken for contention, [stat] finds no
    lock directory, and the bare retry fails like the first [mkdir].
    Each of the [retries + 1] attempts makes these three calls, the
    waits in between are those of package [retry], and the filesystem
    and the memory are left as they are. *)
Theorem posix_lock_missing_directory (w : world) (file : string)
    (s : supplied) (comp : option handler) (m : mem) (e : jserr) :
  normalize file = file ->
  resolve (effective s) = false ->
  locks m !! file = None ->
  fs w !! getLockFile file = None ->
  parent_error (fs w) (getLockFile file) = Some e ->
  let o := run Enorm (lock file s comp on_lock m) w in
  events (trace o) = [LockCb (inl (ELOCKED file))] /\
  result o = Done m /\ fs (after o) = fs w /\
  calls (trace o) =
    concat (replicate (S (retries (effective s)))
              [Mkdir (getLockFile file); Stat (getLockFile file);
               Mkdir (getLockFile file)]) /\
  sleeps (trace o) = retry_timeouts (retries (effective s)).
Proof.
  intros Hnorm Hres Hl Hlk Hp. cbv zeta.
  rewrite (lock_on_normal_path w file s comp m Hnorm).
  unfold lock, canonicalPath. rewrite Hres. cbn [negb run do_normalize E].
  pose proof (effective_stale_min s) as Hst.
  pose proof (posix_attempt_missing_dir file (effective s)
                (default DefaultThrow comp) m e
                (retry_timeouts (retries (effective s))) Hl ltac:(lia)
                [] w ltac:(constructor) Hlk Hp) as H.
  cbv zeta in H. rewrite retry_timeouts_length in H. exact H.
Qed.

(** X19: on the filesystem model, the teardown of a well-formed
    artifact (whole, or only the directory, or nothing at all)
    reports no error and leaves no artifact, with every other entry of
    the filesystem as it was; and it is idempotent: run again, it
    makes the same two calls, both answered not-found, reports no
    error and changes nothing. *)
Theorem posix_teardown_idempotent (w : world) (file : string) (m : mem) :
  artifact_wf (fs w) file ->
  let o := run E (removeLock file on_released m) w in
  trace o = [OCall (Unlink (getUidFile file)); OCall (Rmdir (getLockFile file));
             OEvent (ReleasedCb None)] /\
  no_artifact (fs (after o)) file /\
  (forall q, q <> getUidFile file -> q <> getLockFile file ->
     fs (after o) !! q = fs w !! q) /\
  run E (removeLock file on_released m) (after o) =
  mkOut [OCall (Unlink (getUidFile file)); OCall (Rmdir (getLockFile file));
         OEvent (ReleasedCb None)] (Done m) (after o).
Proof.
  intros Hwf. cbv zeta. rewrite (posix_removeLock _ _ _ _ Hwf).
  set (f1 := delete (getLockFile file) (delete (getUidFile file) (fs w))).
  cbn [run on_released emit trace result after fs with_fs].
  pose proof (artifact_removed _ _ Hwf) as Hno. fold f1 in Hno.
  split; [reflexivity|]. split; [exact Hno|]. split.
  - intros q H1 H2. unfold f1. rewrite !lookup_delete_ne by congruence.
    reflexivity.
  - rewrite (posix_removeLock (with_fs f1 w) file on_released m);
      [|apply no_artifact_wf; exact Hno].
    cbn [run on_released emit fs with_fs].
    pose proof (no_artifact_uid _ _ Hno) as Hu. destruct Hno as [Hlk _].
    rewrite (delete_id f1 (getUidFile file)) by exact Hu.
    rewrite (delete_id f1 (getLockFile file)) by exact Hlk.
    reflexivity.
Qed.

End PosixEdges.

(** * Consecutive ticks *)

(** X20: the error that a compromise by timeout reports is the one of
    the latest failed tick, if no tick has succeeded since.  A tick
    that fails within the threshold with an error other than not-found
    leaves a memory in which the next tick, once its answers arrive a
    full threshold after the last successful renewal, releases the
    handle and calls the compromise handler with that error, not with
    EUPDATE, whatever that tick's own operations returned. *)
Theorem failed_tick_error_is_reported {W : Type} (E : env W) (w : W)
    (file : string) (opts : options) (h : nat) (err : jserr)
    (m : mem) (l : lockobj) (now : Z) (w1 : W)
    (res : jserr + list N * unit) (w2 : W) (now2 : Z) (w3 : W) :
  heap m !! h = Some l -> released l = false ->
  locks m !! file = Some h -> do_normalize E file = file ->
  do_now E w = (now, w1) ->
  now - stale opts < lastUpdate l ->
  is_ENOENT err = false ->
  do_now E w2 = (now2, w3) ->
  lastUpdate l <= now2 - stale opts ->
  let m1 := mem_of (run E (tick_done file opts h (inl err) m) w) in
  let o := run E (tick_done file opts h res m1) w2 in
  events (trace o) = [Compromised h err] /\
  locks (mem_of o) !! file = None /\
  (exists l', heap (mem_of o) !! h = Some l' /\ released l' = true).
Proof.
  intros Hh Hr Hl Hn Hnow Hfresh Herr Hnow2 Hover. cbv zeta.
  pose proof (run_tick_done_failed E _ _ _ _ _ _ _ _ _
                Hh Hr Hl Hnow Hfresh Herr) as H1.
  cbv zeta in H1.
  match type of H1 with
  | _ = mkOut _ (Done ?m') _ =>
    assert (mem_of (run E (tick_done file opts h (inl err) m) w) = m') as ->
      by (unfold mem_of; rewrite H1; reflexivity)
  end.
  set (l1 := mkLock _ _ _ _ _ _ _ _). set (m1 := mkMem _ _ _ _ _).
  assert (heap m1 !! h = Some l1) as Hh1 by apply lookup_insert_eq.
  rewrite (run_tick_done_overdue E file opts h res m1 l1 now2 w2 w3
             Hh1 eq_refl Hl Hn Hnow2 Hover).
  cbv zeta. cbn [updateError l1 default].
  destruct (teardown_error _); unfold mem_of;
    cbn [emit trace result events omap compromised l1];
    (split; [reflexivity|]);
    (destruct (compromised l);
     (split; [apply release_mem_locks|]);
     eexists; (split; [apply release_mem_heap|reflexivity])).
Qed.

(** X21: a successful renewal forgets the error of an earlier failed
    tick.  After a tick that renewed the lock, a later tick whose
    answers arrive a full threshold after that renewal reports
    EUPDATE, whatever error the lock object remembered before. *)
Theorem renewal_forgets_error {W : Type} (E : env W) (w : W)
    (file : string) (opts : options) (h : nat) (data : list N)
    (m : mem) (l : lockobj) (now : Z) (w1 : W) (now' : Z) (w2 : W)
    (res : jserr + list N * unit) (w3 : W) (now3 : Z) (w4 : W) :
  heap m !! h = Some l -> released l = false ->
  locks m !! file = Some h -> do_normalize E file = file ->
  do_now E w = (now, w1) ->
  now - stale opts < lastUpdate l ->
  trim data = uid l ->
  do_now E w1 = (now', w2) ->
  do_now E w3 = (now3, w4) ->
  now' <= now3 - stale opts ->
  let m1 := mem_of (run E (tick_done file opts h (inr (data, tt)) m) w) in
  let o := run E (tick_done file opts h res m1) w3 in
  events (trace o) = [Compromised h EUPDATE] /\
  locks (mem_of o) !! file = None.
Proof.
  intros Hh Hr Hl Hn Hnow Hfresh Heq Hnow' Hnow3 Hover. cbv zeta.
  pose proof (run_tick_done_renewed E _ _ _ _ tt _ _ _ _ _ _ _
                Hh Hr Hl Hnow Hfresh Heq Hnow') as H1.
  cbv zeta in H1.
  match type of H1 with
  | _ = mkOut _ (Done ?m') _ =>
    assert (mem_of (run E (tick_done file opts h (inr (data, tt)) m) w) = m')
      as -> by (unfold mem_of; rewrite H1; reflexivity)
  end.
  set (l1 := mkLock _ _ _ _ _ _ _ _). set (m1 := mkMem _ _ _ _ _).
  assert (heap m1 !! h = Some l1) as Hh1 by apply lookup_insert_eq.
  rewrite (run_tick_done_overdue E file opts h res m1 l1 now3 w3 w4
             Hh1 eq_refl Hl Hn Hnow3 Hover).
  cbv zeta. cbn [updateError l1 default].
  destruct (teardown_error _); unfold mem_of;
    cbn [emit trace result events omap compromised l1];
    (split; [reflexivity|]);
    destruct (compromised l); apply release_mem_locks.
Qed.

(** * Exclusion on the filesystem model *)

Section Exclusion.
Import PosixFs PosixFacts.

Lemma posix_attempt_excluded file opts comp (m : mem) t timeouts :
  locks m !! file = None -> 0 < stale opts ->
  Forall (fun ms => 0 <= ms) timeouts ->
  forall errors (w : world),
    Forall (eq (ELOCKED file)) errors ->
    fs w !! getLockFile file = Some (Dir t) ->
    clock w + foldr Z.add 0 timeouts - t <= stale opts ->
    let o := run E (attempt timeouts errors file opts comp on_lock m) w in
    events (trace o) = [LockCb (inl (ELOCKED file))] /\
    result o = Done m /\ fs (after o) = fs w /\
    calls (trace o) =
      concat (replicate (S (length timeouts))
                [Mkdir (getLockFile file); Stat (getLockFile file)]) /\
    sleeps (trace o) = timeouts.
Proof.
  intros Hl Hst Hpos. induction Hpos as [|ms ts Hms Hts IH];
    intros errors w Herr Hd Hage; cbn [foldr] in Hage.
  - cbv zeta. cbn [attempt].
    rewrite (posix_acquire_fresh_held w 0 file opts _ m t Hl Hd Hst ltac:(lia)).
    unfold mainError. rewrite (mainError_from_same (ELOCKED file)); cycle 1.
    { constructor. }
    { apply Forall_app. split; [assumption|]. constructor; [reflexivity|constructor]. }
    { cbn; lia. }
    destruct errors; cbn; auto.
  - assert (0 <= foldr Z.add 0 ts) as Hsum.
    { clear -Hts. induction Hts; cbn [foldr]; lia. }
    cbv zeta. cbn [attempt].
    rewrite (posix_acquire_fresh_held w 0 file opts _ m t Hl Hd Hst ltac:(lia)).
    cbn [run]. rewrite !events_emit_call, !calls_emit_call, !sleeps_emit_call.
    rewrite events_emit_sleep, calls_emit_sleep, sleeps_emit_sleep.
    cbn [emit result after].
    specialize (IH (errors ++ [ELOCKED file])%list (sleep ms w)).
    cbv zeta in IH. destruct IH as (IH1 & IH2 & IH3 & IH4 & IH5).
    { apply Forall_app. split; [assumption|]. constructor; [reflexivity|constructor]. }
    { exact Hd. }
    { cbn [clock sleep]. lia. }
    cbn [do_sleep E].
    split; [exact IH1|]. split; [exact IH2|]. split; [exact IH3|].
    split; [rewrite IH4; reflexivity|rewrite IH5; reflexivity].
Qed.

Lemma retry_timeouts_nonneg (n : nat) : Forall (fun ms => 0 <= ms) (retry_timeouts n).
Proof.
  unfold retry_timeouts. apply Forall_map, Forall_forall. intros i _. cbn. lia.
Qed.

(** X22: on the filesystem model, while a lock directory exists whose
    mtime is at most the contender's threshold behind the clock, and
    stays that young through all the waits of its retries, [lock] with
    [resolve: false] on a normalized path that this process has not
    registered, and that is not the name of a property that [locks]
    inherits, fails with ELOCKED after [retries + 1] attempts of one
    [mkdir] and one [stat] each; it removes and creates nothing and
    registers nothing. *)
Theorem posix_fresh_lock_excludes (w : world) (file : string)
    (s : supplied) (comp : option handler) (m : mem) (t : Z) :
  inherited file = false -> normalize file = file ->
  resolve (effective s) = false ->
  locks m !! file = None ->
  fs w !! getLockFile file = Some (Dir t) ->
  clock w + foldr Z.add 0 (retry_timeouts (retries (effective s))) - t
    <= stale (effective s) ->
  let o := run Enorm (lock file s comp on_lock m) w in
  events (trace o) = [LockCb (inl (ELOCKED file))] /\
  result o = Done m /\ fs (after o) = fs w /\
  calls (trace o) =
    concat (replicate (S (retries (effective s)))
              [Mkdir (getLockFile file); Stat (getLockFile file)]) /\
  sleeps (trace o) = retry_timeouts (retries (effective s)).
Proof.
  intros _ Hnorm Hres Hl Hd Hage. cbv zeta.
  rewrite (lock_on_normal_path w file s comp m Hnorm).
  unfold lock, canonicalPath. rewrite Hres. cbn [negb run do_normalize E].
  pose proof (effective_stale_min s) as Hst.
  pose proof (posix_attempt_excluded file (effective s)
                (default DefaultThrow comp) m t
                (retry_timeouts (retries (effective s))) Hl ltac:(lia)
                (retry_timeouts_nonneg _) [] w ltac:(constructor) Hd Hage) as H.
  cbv zeta in H. rewrite retry_timeouts_length in H. exact H.
Qed.

End Exclusion.

(** * Concrete runs *)

Module Scenario.
Import PosixFs PosixFacts Sample.

Lemma m_held_heap : heap m_held !! 0%nat = Some l_held.
Proof. vm_compute. reflexivity. Qed.

Lemma m_held_locks : locks m_held !! "/tmp/a" = Some 0%nat.
Proof. vm_compute. reflexivity. Qed.

Lemma fs0_no_artifact : no_artifact fs0 "/tmp/a".
Proof.
  split; [vm_compute; reflexivity|].
  apply (bool_decide_unpack _). vm_compute. exact I.
Qed.

(** C1 as stated fails: a lock whose age equals the threshold
    ([now - mtime = stale], not less) is not reclaimed but reported
    as held; and a stale lock whose removal fails (here on a foreign
    file in the lock directory) is neither removed nor is the
    acquisition retried. *)
Lemma contended_acquisition_at_threshold :
  let w := mkWorld (fs_other 0) 10000 [mine] true in
  let o := run E (acquireLock 2 "/tmp/a" opts on_acquire empty_mem) w in
  let w' := mkWorld (<["/tmp/a.lock/x" := File 0 []]> (fs_other 0))
                    20000 [mine] true in
  let o' := run E (acquireLock 2 "/tmp/a" opts on_acquire empty_mem) w' in
  (~ (clock w - 0 < stale opts) /\
   trace o = [OCall (Mkdir "/tmp/a.lock"); OCall (Stat "/tmp/a.lock");
              OEvent (AcquireCb (inl (ELOCKED "/tmp/a")))] /\
   fs (after o) = fs w) /\
  (stale opts < clock w' - 0 /\
   trace o' = [OCall (Mkdir "/tmp/a.lock"); OCall (Stat "/tmp/a.lock");
               OCall (Unlink "/tmp/a.lock/.uid"); OCall (Rmdir "/tmp/a.lock");
               OEvent (AcquireCb (inl (syserr "ENOTEMPTY")))] /\
   fs (after o') !! "/tmp/a.lock" = Some (Dir 0)).
Proof.
  cbv zeta. split; split.
  - vm_compute. intros H. discriminate H.
  - split; vm_compute; reflexivity.
  - vm_compute. reflexivity.
  - split; vm_compute; reflexivity.
Qed.

(** C2 as stated fails: the holder stalls, another party reclaims the
    lock at time 20000, and the holder's tick then reads a uid that
    is not its token; the last renewal being more than the threshold
    old, the tick reports EUPDATE, not EMISMATCH, and removes the
    artifact of the new owner. *)
Lemma tick_uid_mismatch_when_overdue :
  let w := mkWorld (fs_other 20000) 20000 [] true in
  let o := run E (fire 0 m_held) w in
  fs w !! "/tmp/a.lock/.uid" = Some (File 20000 other) /\
  trim other <> uid l_held /\
  trace o = [OCall (ReadFile "/tmp/a.lock/.uid");
             OCall (Utimes "/tmp/a.lock" 20000 20000);
             OCall (Unlink "/tmp/a.lock/.uid"); OCall (Rmdir "/tmp/a.lock");
             OEvent (Compromised 0 EUPDATE)] /\
  ~ In (Compromised 0 EMISMATCH) (events (trace o)) /\
  fs (after o) = fs0.
Proof.
  cbv zeta. split; [vm_compute; reflexivity|].
  split; [vm_compute; discriminate|].
  split; [vm_compute; reflexivity|].
  split; [|vm_compute; reflexivity].
  vm_compute. intros [H|[]]. discriminate H.
Qed.

(** C3 as stated fails: the write of the token fails and so does the
    unlink of the teardown (with an error other than not-found); the
    directory is not removed, and an empty lock directory without
    token stays on disk. *)
Lemma write_failure_leaves_directory :
  let v := mkFaulty w_start [None; Some eio; Some (syserr "EACCES")] in
  let o := run F (acquireLock 2 "/tmp/a" opts on_acquire empty_mem) v in
  trace o = [OCall (Mkdir "/tmp/a.lock");
             OCall (WriteFile "/tmp/a.lock/.uid" mine);
             OCall (Unlink "/tmp/a.lock/.uid");
             OEvent (AcquireCb (inl eio))] /\
  fs (base (after o)) !! "/tmp/a.lock" = Some (Dir 0) /\
  fs (base (after o)) !! "/tmp/a.lock/.uid" = None.
Proof. cbv zeta. repeat split; vm_compute; reflexivity. Qed.

(** C7 as stated fails: the lock directory of a held handle holds a
    foreign entry; the first call of the release function unlinks the
    uid file, fails to remove the directory and reports ENOTEMPTY; the
    directory stays on disk and the handle is nevertheless released, so
    that the second call reports ERELEASED.  And it fails for a live
    handle that is not the entry of [locks]: after the two racing
    acquisitions of [raced] the first call of the first handle's
    release function reports success, but it is the second handle that
    is marked released; the first handle is not, and the second call
    of its release function reports ENOTACQUIRED, not ERELEASED. *)
Lemma release_fails_on_foreign_entry :
  let w := mkWorld (<["/tmp/a.lock/x" := File 0 []]> fs_mine) 3000 [] true in
  let o := run E (release r_held on_released m_held) w in
  let o1 := run E (release r_first on_released m_raced) w_raced in
  (locks m_held !! "/tmp/a" = Some 0%nat /\
   heap m_held !! 0%nat = Some l_held /\ released l_held = false) /\
  trace o = [OCall (Unlink "/tmp/a.lock/.uid"); OCall (Rmdir "/tmp/a.lock");
             OEvent (ReleasedCb (Some (syserr "ENOTEMPTY")))] /\
  fs (after o) !! "/tmp/a.lock" = Some (Dir 0) /\
  trace (run E (release r_held on_released (mem_of o)) (after o)) =
    [OEvent (ReleasedCb (Some ERELEASED))] /\
  (events t_raced = [LockCb (inr r_first); LockCb (inr r_second)] /\
   heap m_raced !! 0%nat = Some l_first /\ released l_first = false /\
   locks m_raced !! "/tmp/a" = Some 1%nat) /\
  events (trace o1) = [ReleasedCb None] /\
  heap (mem_of o1) !! 0%nat = Some l_first /\
  heap (mem_of o1) !! 1%nat = Some (set_released true l_second) /\
  trace (run E (release r_first on_released (mem_of o1)) (after o1)) =
    [OEvent (ReleasedCb (Some ENOTACQUIRED))].
Proof.
  cbv zeta. split; [repeat split; vm_compute; reflexivity|].
  repeat split; vm_compute; reflexivity.
Qed.

(** C9 as stated fails: the tick at time 5000 fails on [utimes] with
    EIO, which is remembered; the tick at time 10001, whose own
    operations succeed, finds the last renewal more than the
    threshold old and calls the compromise callback with that EIO,
    not with an "update timeout" error.  And for a live handle that is
    not the entry of [locks] the local release misses it: after the
    two racing acquisitions of [raced] the overdue tick of the first
    handle, at time 30000, calls the compromise callback for it but
    marks the second handle released and leaves the first one
    unmarked. *)
Lemma overdue_tick_reports_remembered_error :
  let w := mkWorld fs_mine 10001 [] true in
  let o := run E (fire 1 m_failed) w in
  let w2 := mkWorld (fs w_raced) 30000 [] true in
  let o2 := run E (fire 0 m_raced) w2 in
  (exists l, heap m_failed !! 0%nat = Some l /\
     stale opts < clock w - lastUpdate l /\ updateError l = Some eio) /\
  events (trace o) = [Compromised 0 eio] /\
  eio <> EUPDATE /\
  (events t_raced = [LockCb (inr r_first); LockCb (inr r_second)] /\
   heap m_raced !! 0%nat = Some l_first /\ released l_first = false /\
   locks m_raced !! "/tmp/a" = Some 1%nat /\
   stale opts <= clock w2 - lastUpdate l_first) /\
  events (trace o2) = [Compromised 0 EUPDATE] /\
  heap (mem_of o2) !! 0%nat = Some (set_updateTimeout None l_first) /\
  heap (mem_of o2) !! 1%nat = Some (set_released true l_second).
Proof.
  cbv zeta. split; [|split; [|split]].
  - eexists. split; [vm_compute; reflexivity|].
    split; vm_compute; reflexivity.
  - vm_compute. reflexivity.
  - discriminate.
  - split; [repeat split; try (vm_compute; reflexivity)|].
    + vm_compute. intros H. discriminate H.
    + repeat split; vm_compute; reflexivity.
Qed.

(** C6 as stated fails: a release that is requested does not cancel
    the timer of every handle.  After the two racing acquisitions of
    [raced] both callers hold a release function, [locks] holds the
    second handle, and the first is live with its timer armed.  The
    release function of the first handle reports success, yet it is
    the second handle whose timer is cleared and that is marked
    released; the timer of the first stays armed, and when it fires,
    at time 25000, the compromise callback of the first handle is
    called with ENOENT. *)
Lemma release_after_race_keeps_timer :
  let o := run E (release r_first on_released m_raced) w_raced in
  let late := mkWorld (fs (after o)) 25000 [] true in
  (events t_raced = [LockCb (inr r_first); LockCb (inr r_second)] /\
   heap m_raced !! 0%nat = Some l_first /\ released l_first = false /\
   updateTimeout l_first = Some 0%nat /\
   timers m_raced !! 0%nat = Some (mkPending "/tmp/a" opts 0 5000) /\
   locks m_raced !! "/tmp/a" = Some 1%nat) /\
  trace o = [OCall (Unlink "/tmp/a.lock/.uid"); OCall (Rmdir "/tmp/a.lock");
             OEvent (ReleasedCb None)] /\
  heap (mem_of o) !! 0%nat = Some l_first /\
  timers (mem_of o) !! 0%nat = Some (mkPending "/tmp/a" opts 0 5000) /\
  heap (mem_of o) !! 1%nat = Some (set_released true l_second) /\
  timers (mem_of o) !! 1%nat = None /\
  events (trace (run E (fire 0 (mem_of o)) late)) =
    [Compromised 0 (syserr "ENOENT")].
Proof.
  cbv zeta. split; [repeat split; vm_compute; reflexivity|].
  repeat split; vm_compute; reflexivity.
Qed.

(** *** The theorems at concrete inputs *)

(** A stale lock of another party at time 20000 is reclaimed: one
    removal, one bare retry. *)
Lemma contended_acquisition_staleness_witness :
  trace (run E (acquireLock 2 "/tmp/a" opts on_acquire empty_mem)
           (mkWorld (fs_other 0) 20000 [mine] true)) =
  [OCall (Mkdir "/tmp/a.lock"); OCall (Stat "/tmp/a.lock");
   OCall (Unlink "/tmp/a.lock/.uid"); OCall (Rmdir "/tmp/a.lock");
   OCall (Mkdir "/tmp/a.lock"); OCall (WriteFile "/tmp/a.lock/.uid" mine);
   OEvent (AcquireCb (inr mine))].
Proof.
  set (w := mkWorld (fs_other 0) 20000 [mine] true).
  destruct (contended_acquisition_staleness E w 0 "/tmp/a" opts on_acquire
              empty_mem (syserr "EEXIST") w 0 w 20000 w) as [_ H].
  - vm_compute; reflexivity.
  - vm_compute; reflexivity.
  - vm_compute; reflexivity.
  - vm_compute; reflexivity.
  - vm_compute; reflexivity.
  - rewrite H; [vm_compute; reflexivity|]. vm_compute; reflexivity.
Defined.

(** The uid file is overwritten while the lock is held; the tick at
    time 5000 sees it. *)
Lemma tick_uid_mismatch_witness :
  let o := run E (tick "/tmp/a" opts 0 m_held)
             (mkWorld (fs_other 0) 5000 [] true) in
  events (trace o) = [Compromised 0 EMISMATCH] /\
  locks (mem_of o) !! "/tmp/a" = None.
Proof.
  set (w := mkWorld (fs_other 0) 5000 [] true).
  destruct (tick_uid_mismatch E w "/tmp/a" opts 0 m_held l_held
              5000 w other w (with_fs (<["/tmp/a.lock" := Dir 5000]> (fs_other 0)) w)
              true (with_fs (<["/tmp/a.lock" := Dir 5000]> (fs_other 0)) w)
              5000 (with_fs (<["/tmp/a.lock" := Dir 5000]> (fs_other 0)) w))
    as (H1 & _ & H3 & _ & _ & H6 & _).
  - exact m_held_heap.
  - reflexivity.
  - reflexivity.
  - vm_compute; reflexivity.
  - vm_compute; reflexivity.
  - reflexivity.
  - reflexivity.
  - vm_compute; reflexivity.
  - vm_compute; discriminate.
  - cbv zeta. split; [exact H1|].
    unfold mem_of. fold w. rewrite H3. exact H6.
Defined.

(** The write fails with EIO and the teardown is not disturbed. *)
Lemma write_failure_teardown_witness :
  let v := mkFaulty w_start [None; Some eio] in
  let o := run F (acquireLock 2 "/tmp/a" opts on_acquire empty_mem) v in
  events (trace o) = [AcquireCb (inl eio)] /\ fs (base (after o)) = fs0.
Proof.
  set (v := mkFaulty w_start [None; Some eio]).
  destruct (write_failure_teardown F v 1 "/tmp/a" opts empty_mem
              (mkFaulty (with_fs (<["/tmp/a.lock" := Dir 0]> fs0) w_start) [Some eio])
              mine
              (mkFaulty (mkWorld (<["/tmp/a.lock" := Dir 0]> fs0) 0 [] true) [Some eio])
              eio
              (mkFaulty (mkWorld (<["/tmp/a.lock" := Dir 0]> fs0) 0 [] true) []))
    as (H1 & _ & _ & H4).
  - vm_compute; reflexivity.
  - vm_compute; reflexivity.
  - vm_compute; reflexivity.
  - vm_compute; reflexivity.
  - cbv zeta. split; [exact H1|].
    destruct (H4 v []) as (_ & H).
    + exact fs0_no_artifact.
    + vm_compute; reflexivity.
    + reflexivity.
    + constructor.
    + exact H.
Defined.

(** A second acquisition while the first handle is registered. *)
Lemma acquire_registered_fails_fast_witness :
  run E (acquireLock 2 "/tmp/a" opts on_acquire m_held) w_start =
  mkOut [OEvent (AcquireCb (inl (ELOCKED "/tmp/a")))] (Done m_held) w_start.
Proof.
  destruct (acquire_registered_fails_fast E w_start 1 "/tmp/a" opts m_held 0)
    as (_ & H & _).
  - exact m_held_locks.
  - exact H.
Defined.

(** The handle is released before its first tick. *)
Lemma released_handle_is_quiet_witness :
  let o := run E (release r_held on_released m_held)
             (mkWorld fs_mine 3000 [] true) in
  timers (mem_of o) !! 0%nat = None /\
  fire 0 (mem_of o) = Ret (mem_of o).
Proof.
  set (w := mkWorld fs_mine 3000 [] true).
  destruct (released_handle_is_quiet E w r_held m_held l_held)
    as (H1 & _ & H3 & _).
  - reflexivity.
  - exact m_held_locks.
  - exact m_held_heap.
  - reflexivity.
  - cbv zeta. unfold mem_of. fold w. rewrite H1. apply H3. reflexivity.
Defined.

(** The handle is released twice. *)
Lemma release_is_idempotent_witness :
  let w := mkWorld fs_mine 3000 [] true in
  let o := run E (release r_held on_released m_held) w in
  events (trace o) = [ReleasedCb None] /\
  fs (after o) = fs0 /\
  events (trace (run E (release r_held on_released (mem_of o)) (after o))) =
    [ReleasedCb (Some ERELEASED)].
Proof.
  set (w := mkWorld fs_mine 3000 [] true).
  destruct (release_is_idempotent E w r_held m_held l_held)
    as (H1 & _ & _ & H4 & H5 & _).
  - reflexivity.
  - exact m_held_locks.
  - exact m_held_heap.
  - reflexivity.
  - cbv zeta. fold w. destruct (H4 w) as (H4' & _).
    + apply with_artifact_wf. exact fs0_no_artifact.
    + split; [rewrite H4'; reflexivity|].
      split; [vm_compute; reflexivity|].
      unfold mem_of. rewrite H1, H5. reflexivity.
Defined.

(** Acquire and release at once in the directory [/tmp]. *)
Lemma acquire_release_round_trip_witness :
  let o := run E (lock "/tmp/a" plain (Some UserHandler) release_at_once empty_mem)
             w_start in
  fs (after o) = fs0 /\ events (trace o) = [ReleasedCb None].
Proof.
  destruct (acquire_release_round_trip w_start "/tmp/a" plain
              (Some UserHandler) empty_mem) as (H1 & H2).
  - exact fs0_no_artifact.
  - cbv zeta. split; [exact H1|].
    destruct H2 as (H & _).
    + vm_compute; reflexivity.
    + vm_compute; reflexivity.
    + intros Hres. vm_compute in Hres. discriminate Hres.
    + exact H.
Defined.

(** The answers of the second tick arrive at time 10001. *)
Lemma overdue_tick_compromises_witness :
  let o := run E (tick_done "/tmp/a" opts 0 (inr (mine, tt)) m_held)
             (mkWorld fs_mine 10001 [] true) in
  events (trace o) = [Compromised 0 EUPDATE] /\
  locks (mem_of o) !! "/tmp/a" = None.
Proof.
  set (w := mkWorld fs_mine 10001 [] true).
  destruct (overdue_tick_compromises E w "/tmp/a" opts 0 (inr (mine, tt))
              m_held l_held 10001 w) as (H1 & H2 & _ & _ & H5 & _).
  - exact m_held_heap.
  - reflexivity.
  - exact m_held_locks.
  - reflexivity.
  - reflexivity.
  - vm_compute. intros H. discriminate H.
  - cbv zeta. fold w. split; [exact H1|].
    unfold mem_of. rewrite H2. exact H5.
Defined.

(** The dispossessed holder calls its release function. *)
Lemma release_after_mismatch_witness :
  let o := run E (tick_done "/tmp/a" opts 0 (inr (other, tt)) m_held)
             (mkWorld (fs_other 0) 5000 [] true) in
  events (trace o) = [Compromised 0 EMISMATCH] /\
  trace (run E (release r_held on_released (mem_of o)) (after o)) =
    [OEvent (ReleasedCb (Some ERELEASED))].
Proof.
  set (w := mkWorld (fs_other 0) 5000 [] true).
  destruct (release_after_mismatch E w "/tmp/a" opts 0 other m_held l_held
              5000 w) as (H1 & H2 & H3 & _).
  - exact m_held_heap.
  - reflexivity.
  - reflexivity.
  - vm_compute; reflexivity.
  - vm_compute; discriminate.
  - cbv zeta. fold w. split; [exact H1|].
    unfold mem_of.
    destruct H2 as [H2|H2]; rewrite H2; unfold r_held; rewrite H3; reflexivity.
Defined.

End Scenario.

(** * Further concrete runs *)

Module Coverage.
Import PosixFs PosixFacts Sample.

Lemma m_failed_heap : heap m_failed !! 0%nat = Some l_failed.
Proof. vm_compute. reflexivity. Qed.

Lemma m_failed_locks : locks m_failed !! "/tmp/a" = Some 0%nat.
Proof. vm_compute. reflexivity. Qed.

Lemma fs_mine_wf : artifact_wf fs_mine "/tmp/a".
Proof. apply with_artifact_wf. exact Scenario.fs0_no_artifact. Qed.

(** A lock in a directory that does not exist: [stat] reports
    not-found and the bare retry fails. *)
Lemma stat_failure_in_acquisition_witness :
  trace (run E (acquireLock 2 "/nodir/a" opts on_acquire empty_mem) w_start) =
  [OCall (Mkdir "/nodir/a.lock"); OCall (Stat "/nodir/a.lock");
   OCall (Mkdir "/nodir/a.lock"); OEvent (AcquireCb (inl (ELOCKED "/nodir/a")))].
Proof.
  destruct (stat_failure_in_acquisition E w_start 0 "/nodir/a" opts on_acquire
              empty_mem (syserr "ENOENT") w_start (syserr "ENOENT") w_start)
    as [_ H].
  - vm_compute; reflexivity.
  - vm_compute; reflexivity.
  - vm_compute; reflexivity.
  - vm_compute; reflexivity.
  - destruct H as [H1 H2]; [vm_compute; reflexivity|].
    rewrite H1, (H2 (syserr "ENOENT") w_start); vm_compute; reflexivity.
Defined.

(** The first acquisition of [/tmp/a]. *)
Lemma lock_registers_witness :
  let o := run E (lock "/tmp/a" plain (Some UserHandler) on_lock empty_mem) w_start in
  result o = Done m_held /\
  heap m_held !! 0%nat = Some l_held /\
  timers m_held !! 0%nat = Some (mkPending "/tmp/a" opts 0 5000).
Proof.
  destruct (lock_registers E w_start "/tmp/a" "/tmp/a" plain (Some UserHandler)
              empty_mem w_start
              (with_fs (<["/tmp/a.lock" := Dir 0]> fs0) w_start) mine
              (mkWorld (<["/tmp/a.lock" := Dir 0]> fs0) 0 [] true)
              (mkWorld fs_mine 0 [] true) 0 (mkWorld fs_mine 0 [] true))
    as (_ & H2 & _ & _ & H5 & H6 & _).
  - split; reflexivity.
  - reflexivity.
  - vm_compute; reflexivity.
  - vm_compute; reflexivity.
  - vm_compute; reflexivity.
  - reflexivity.
  - cbv zeta. split; [rewrite H2; vm_compute; reflexivity|].
    split; [exact Scenario.m_held_heap|]. vm_compute; reflexivity.
Defined.

(** The first tick of the holder, at time 5000. *)
Lemma tick_renews_witness :
  let o := run E (tick "/tmp/a" opts 0 m_held) (mkWorld fs_mine 5000 [] true) in
  trace o = [OCall (ReadFile "/tmp/a.lock/.uid");
             OCall (Utimes "/tmp/a.lock" 5000 5000)] /\
  fs (after o) !! "/tmp/a.lock" = Some (Dir 5000).
Proof.
  set (w := mkWorld fs_mine 5000 [] true).
  set (w' := with_fs (<["/tmp/a.lock" := Dir 5000]> fs_mine) w).
  destruct (tick_renews E w "/tmp/a" opts 0 m_held l_held
              5000 w mine w w' true w' 5000 w' 5000 w')
    as (H1 & _ & H3).
  - exact Scenario.m_held_heap.
  - reflexivity.
  - exact Scenario.m_held_locks.
  - reflexivity.
  - vm_compute; reflexivity.
  - vm_compute; reflexivity.
  - reflexivity.
  - reflexivity.
  - vm_compute; reflexivity.
  - vm_compute; reflexivity.
  - reflexivity.
  - cbv zeta. split; [exact H1|]. rewrite H3. vm_compute; reflexivity.
Defined.

(** The [utimes] of the first tick fails with EIO. *)
Lemma tick_retries_after_error_witness :
  let o := run E (tick_done "/tmp/a" opts 0 (inl eio) m_held)
             (mkWorld fs_mine 5000 [] true) in
  trace o = [] /\
  timers (mem_of o) !! 1%nat = Some (mkPending "/tmp/a" opts 0 1000).
Proof.
  set (w := mkWorld fs_mine 5000 [] true).
  destruct (tick_retries_after_error E w "/tmp/a" opts 0 eio m_held l_held 5000 w)
    as (H1 & H2 & _).
  - exact Scenario.m_held_heap.
  - reflexivity.
  - exact Scenario.m_held_locks.
  - reflexivity.
  - vm_compute; reflexivity.
  - reflexivity.
  - cbv zeta. split; [exact H1|]. unfold mem_of. rewrite H2.
    vm_compute; reflexivity.
Defined.

(** Somebody removed the artifact under the holder. *)
Lemma tick_artifact_missing_witness :
  let o := run E (tick_done "/tmp/a" opts 0 (inl (syserr "ENOENT")) m_held)
             (mkWorld fs0 5000 [] true) in
  events (trace o) = [Compromised 0 (syserr "ENOENT")] /\
  locks (mem_of o) !! "/tmp/a" = None.
Proof.
  set (w := mkWorld fs0 5000 [] true).
  destruct (tick_artifact_missing E w "/tmp/a" opts 0 (syserr "ENOENT")
              m_held l_held 5000 w) as (H1 & H2 & _ & _ & H5 & _).
  - exact Scenario.m_held_heap.
  - reflexivity.
  - exact Scenario.m_held_locks.
  - reflexivity.
  - reflexivity.
  - vm_compute; reflexivity.
  - reflexivity.
  - cbv zeta. split; [exact H1|]. unfold mem_of. rewrite H2. exact H5.
Defined.

(** [unlock] in a process that holds nothing. *)
Lemma unlock_not_acquired_witness :
  run E (unlock "/tmp/a" false on_released empty_mem) w_start =
  mkOut [OEvent (ReleasedCb (Some ENOTACQUIRED))] (Done empty_mem) w_start.
Proof.
  destruct (unlock_not_acquired E w_start "/tmp/a" "/tmp/a" empty_mem)
    as (H & _).
  - reflexivity.
  - reflexivity.
  - apply H. reflexivity.
Defined.


(** [lock] of a file that does not exist, with the default options. *)
Lemma lock_unresolvable_witness :
  run E (lock "/tmp/b" defaults None on_lock empty_mem) w_start =
  mkOut [OCall (Realpath "/tmp/b"); OEvent (LockCb (inl (syserr "ENOENT")))]
        (Done empty_mem) w_start.
Proof.
  destruct (lock_unresolvable E w_start "/tmp/b" defaults None empty_mem)
    as (_ & H).
  - reflexivity.
  - apply H. vm_compute; reflexivity.
Defined.

(** The holder locks [/tmp/a] again, with the default options. *)
Lemma lock_keyed_by_resolved_path_witness :
  let o := run E (lock "/tmp/a" defaults None on_lock m_held)
             (mkWorld fs_mine 3000 [] true) in
  calls (trace o) = [Realpath "/tmp/a"] /\
  events (trace o) = [LockCb (inl (ELOCKED "/tmp/a"))].
Proof.
  set (w := mkWorld fs_mine 3000 [] true).
  destruct (lock_keyed_by_resolved_path E w "/tmp/a" "/tmp/a" defaults None
              m_held 0 w) as (H1 & H2 & _).
  - reflexivity.
  - vm_compute; reflexivity.
  - exact Scenario.m_held_locks.
  - cbv zeta. fold w. split; [exact H1|exact H2].
Defined.

(** The artifact of the first acquisition of [/tmp/a]. *)
Lemma posix_lock_creates_artifact_witness :
  let o := run Enorm (lock "/tmp/a" plain (Some UserHandler) on_lock empty_mem)
             w_start in
  events (trace o) = [LockCb (inr r_held)] /\ fs (after o) = fs_mine.
Proof.
  destruct (posix_lock_creates_artifact w_start "/tmp/a" plain (Some UserHandler)
              empty_mem) as (H1 & H2 & _).
  - reflexivity.
  - vm_compute; reflexivity.
  - vm_compute; reflexivity.
  - exact Scenario.fs0_no_artifact.
  - reflexivity.
  - vm_compute; reflexivity.
  - intros Hres. vm_compute in Hres. discriminate Hres.
  - cbv zeta. split; [exact H1|exact H2].
Defined.

(** Another party's lock of time 0 is reclaimed at time 20000. *)
Lemma posix_reclaims_stale_witness :
  let o := run E (acquireLock 2 "/tmp/a" opts on_acquire empty_mem)
             (mkWorld (fs_other 0) 20000 [mine] true) in
  events (trace o) = [AcquireCb (inr mine)] /\
  fs (after o) !! "/tmp/a.lock/.uid" = Some (File 20000 mine).
Proof.
  set (w := mkWorld (fs_other 0) 20000 [mine] true).
  destruct (posix_reclaims_stale w 0 "/tmp/a" opts empty_mem 0)
    as (H1 & _ & H3 & _).
  - apply with_artifact_wf. exact Scenario.fs0_no_artifact.
  - vm_compute; reflexivity.
  - reflexivity.
  - vm_compute; reflexivity.
  - vm_compute; reflexivity.
  - vm_compute; reflexivity.
  - cbv zeta. fold w. split; [rewrite H1; reflexivity|exact H3].
Defined.

(** The holder renews at time 5000; a contender comes at time 15000. *)
Lemma posix_renewal_keeps_fresh_witness :
  let o := run E (tick "/tmp/a" opts 0 m_held) (mkWorld fs_mine 5000 [] true) in
  fs (after o) !! "/tmp/a.lock" = Some (Dir 5000) /\
  events (trace (run E (acquireLock 2 "/tmp/a" opts on_acquire empty_mem)
                   (mkWorld (fs (after o)) 15000 [other] true))) =
  [AcquireCb (inl (ELOCKED "/tmp/a"))].
Proof.
  set (w := mkWorld fs_mine 5000 [] true).
  destruct (posix_renewal_keeps_fresh w "/tmp/a" opts 0 m_held l_held 0 0 mine)
    as (_ & H2 & _ & H4).
  - exact Scenario.m_held_heap.
  - reflexivity.
  - exact Scenario.m_held_locks.
  - vm_compute; reflexivity.
  - vm_compute; reflexivity.
  - vm_compute; reflexivity.
  - vm_compute; reflexivity.
  - cbv zeta. fold w. split; [rewrite H2; vm_compute; reflexivity|].
    rewrite (H4 empty_mem opts 0%nat); [reflexivity|reflexivity|reflexivity| |].
    + vm_compute; reflexivity.
    + vm_compute. intros H. discriminate H.
Defined.

(** [lock] below a directory that does not exist, with two retries. *)
Lemma posix_lock_missing_directory_witness :
  let o := run Enorm (lock "/nodir/a" patient None on_lock empty_mem) w_start in
  events (trace o) = [LockCb (inl (ELOCKED "/nodir/a"))] /\
  sleeps (trace o) = [1000; 2000] /\
  length (calls (trace o)) = 9%nat.
Proof.
  destruct (posix_lock_missing_directory w_start "/nodir/a" patient None
              empty_mem (syserr "ENOENT")) as (H1 & _ & _ & H4 & H5).
  - vm_compute; reflexivity.
  - reflexivity.
  - reflexivity.
  - vm_compute; reflexivity.
  - vm_compute; reflexivity.
  - cbv zeta. split; [exact H1|]. split; [rewrite H5; reflexivity|].
    rewrite H4. reflexivity.
Defined.

(** The teardown of the holder's artifact, twice. *)
Lemma posix_teardown_idempotent_witness :
  let o := run E (removeLock "/tmp/a" on_released empty_mem)
             (mkWorld fs_mine 3000 [] true) in
  events (trace o) = [ReleasedCb None] /\
  events (trace (run E (removeLock "/tmp/a" on_released empty_mem) (after o))) =
  [ReleasedCb None].
Proof.
  set (w := mkWorld fs_mine 3000 [] true).
  destruct (posix_teardown_idempotent w "/tmp/a" empty_mem) as (H1 & _ & _ & H4).
  - exact fs_mine_wf.
  - cbv zeta. fold w. split; [rewrite H1; reflexivity|].
    rewrite H4. reflexivity.
Defined.

(** A late tick on the released handle. *)
Lemma released_is_stable_witness :
  exposes (gone 0) (fire 0 m_released) /\
  exposes (gone 0) (unlock "/tmp/a" true on_released m_released).
Proof.
  destruct (released_is_stable 0 m_released) as (_ & H2 & _ & H4).
  - split; [vm_compute; lia|].
    exists (set_released true l_held). split; [apply release_mem_heap|reflexivity].
  - split; [apply H4|]. apply H2. intros r m' Hm'.
    constructor. constructor. exact Hm'.
Defined.

(** The first tick of the holder ends in one of the two ways. *)
Lemma tick_rearms_or_compromises_witness :
  let o := run E (tick_done "/tmp/a" opts 0 (inr (mine, tt)) m_held)
             (mkWorld fs_mine 5000 [] true) in
  events (trace o) = [] \/ exists err, events (trace o) = [Compromised 0 err].
Proof.
  set (w := mkWorld fs_mine 5000 [] true).
  destruct (tick_rearms_or_compromises E w "/tmp/a" opts 0 (inr (mine, tt))
              m_held l_held) as [(H & _)|(err & m' & H & _)].
  - exact Scenario.m_held_heap.
  - reflexivity.
  - exact Scenario.m_held_locks.
  - reflexivity.
  - left. exact H.
  - right. exists err. exact H.
Defined.

(** The tick at time 5000 fails with EIO; the answers of the next one
    arrive at time 10000. *)
Lemma failed_tick_error_is_reported_witness :
  let m1 := mem_of (run E (tick_done "/tmp/a" opts 0 (inl eio) m_held)
                      (mkWorld fs_mine 5000 [] true)) in
  events (trace (run E (tick_done "/tmp/a" opts 0 (inr (mine, tt)) m1)
                   (mkWorld fs_mine 10000 [] true))) =
  [Compromised 0 eio].
Proof.
  set (w := mkWorld fs_mine 5000 [] true).
  set (w2 := mkWorld fs_mine 10000 [] true).
  destruct (failed_tick_error_is_reported E w "/tmp/a" opts 0 eio m_held l_held
              5000 w (inr (mine, tt)) w2 10000 w2) as (H & _).
  - exact Scenario.m_held_heap.
  - reflexivity.
  - exact Scenario.m_held_locks.
  - reflexivity.
  - reflexivity.
  - vm_compute; reflexivity.
  - reflexivity.
  - reflexivity.
  - vm_compute. intros H. discriminate H.
  - exact H.
Defined.

(** After the failed tick the one at time 6000 succeeds; the answers
    of the next arrive at time 16000. *)
Lemma renewal_forgets_error_witness :
  let m1 := mem_of (run E (tick_done "/tmp/a" opts 0 (inr (mine, tt)) m_failed)
                      (mkWorld fs_mine 6000 [] true)) in
  events (trace (run E (tick_done "/tmp/a" opts 0 (inr (mine, tt)) m1)
                   (mkWorld fs_mine 16000 [] true))) =
  [Compromised 0 EUPDATE].
Proof.
  set (w := mkWorld fs_mine 6000 [] true).
  set (w3 := mkWorld fs_mine 16000 [] true).
  destruct (renewal_forgets_error E w "/tmp/a" opts 0 mine m_failed l_failed
              6000 w 6000 w (inr (mine, tt)) w3 16000 w3) as (H & _).
  - exact m_failed_heap.
  - reflexivity.
  - exact m_failed_locks.
  - reflexivity.
  - reflexivity.
  - vm_compute; reflexivity.
  - vm_compute; reflexivity.
  - reflexivity.
  - reflexivity.
  - vm_compute. intros H. discriminate H.
  - exact H.
Defined.

(** A contender with two retries, at time 3000, against a lock of
    time 0. *)
Lemma posix_fresh_lock_excludes_witness :
  let w := mkWorld (fs_other 0) 3000 [mine] true in
  let o := run Enorm (lock "/tmp/a" patient None on_lock empty_mem) w in
  events (trace o) = [LockCb (inl (ELOCKED "/tmp/a"))] /\
  fs (after o) = fs_other 0 /\ sleeps (trace o) = [1000; 2000].
Proof.
  set (w := mkWorld (fs_other 0) 3000 [mine] true).
  destruct (posix_fresh_lock_excludes w "/tmp/a" patient None empty_mem 0)
    as (H1 & _ & H3 & _ & H5).
  - reflexivity.
  - vm_compute; reflexivity.
  - reflexivity.
  - reflexivity.
  - vm_compute; reflexivity.
  - vm_compute. intros H. discriminate H.
  - cbv zeta. fold w. split; [exact H1|]. split; [exact H3|].
    rewrite H5. reflexivity.
Defined.

End Coverage.
